(** * Breakdown analysis of GPU traces (hta/analyzers/breakdown_analysis.py)

    A shallow embedding of [BreakdownAnalysis]: the sweep-line overlap
    classifier, the TopK aggregation, the temporal breakdown, the idle-time
    classification per stream and the association of kernels with user
    annotations.  Timestamps and durations are integers ([Z]); the float
    columns that pandas computes by division are modelled by [fl] below,
    a rational value or one of the non-finite IEEE values. *)

From Stdlib Require Import ZArith QArith Qround List String Lia Bool.
From Stdlib Require Import Sorting.Permutation Sorting.Sorted Sorting.Mergesort.
From Stdlib Require Import Structures.Orders.
Import ListNotations.
Open Scope Z_scope.

(** ** Python-level effects: results and exceptions *)

Inductive py_error : Type :=
| KeyError (missing : list string)
| IndexError
| AssertionError
| ValueError.

Inductive result (A : Type) : Type :=
| Ok : A -> result A
| Err : py_error -> result A.
Arguments Ok {A} _.
Arguments Err {A} _.

Definition bind {A B} (m : result A) (k : A -> result B) : result B :=
  match m with Ok a => k a | Err e => Err e end.

Notation "x <- m ;; k" := (bind m (fun x => k))
  (at level 61, m at next level, right associativity).

(** [assert c] *)
Definition py_assert (c : bool) : result unit :=
  if c then Ok tt else Err AssertionError.

(** ** Float columns

    pandas divides integer columns into float64 columns.  [Fin q] is a
    finite value, [NaN] is not-a-number and [Inf b] is +inf ([b = true])
    or -inf ([b = false]).  Division by zero follows IEEE: 0/0 is NaN and
    x/0 is an infinity of the sign of x. *)

Inductive fl : Type :=
| Fin (q : Q)
| NaN
| Inf (pos : bool).

Definition fl_div (a b : Z) : fl :=
  if b =? 0 then (if a =? 0 then NaN else Inf (0 <? a))
  else Fin (inject_Z a / inject_Z b)%Q.

Definition fl_mul100 (x : fl) : fl :=
  match x with Fin q => Fin (100 * q)%Q | v => v end.

(** Round half to even of a rational, as numpy's [rint]. *)
Definition round_half_even (q : Q) : Z :=
  let f := Qfloor q in
  let d := (q - inject_Z f)%Q in
  match Qcompare d (1 # 2) with
  | Lt => f
  | Gt => f + 1
  | Eq => if Z.even f then f else f + 1
  end.

(** [round(x, 2)] on a float series: [rint(x * 100) / 100]. *)
Definition fl_round2 (x : fl) : fl :=
  match x with
  | Fin q => Fin (inject_Z (round_half_even (q * 100)) / 100)%Q
  | v => v
  end.

(** ** Counting integer points

    The length of a union of half-open integer intervals is the number of
    integer time points it covers. [count_range f lo n] counts the points
    [x] of [lo, lo + n) with [f x = true]. *)

Fixpoint count_range (f : Z -> bool) (lo : Z) (n : nat) : Z :=
  match n with
  | O => 0
  | S m => count_range f lo m + (if f (lo + Z.of_nat m) then 1 else 0)
  end.

Definition count_between (f : Z -> bool) (lo hi : Z) : Z :=
  count_range f lo (Z.to_nat (hi - lo)).

(** Membership of a point in a half-open interval [s, e). *)
Definition in_iv (x : Z) (iv : Z * Z) : bool := (fst iv <=? x) && (x <? snd iv).

Definition covered (ivs : list (Z * Z)) (x : Z) : bool := existsb (in_iv x) ivs.

Definition sumZ (l : list Z) : Z := fold_right Z.add 0 l.

(** ** Sorting

    pandas' [sort_values] is an unstable quicksort; the executable model
    uses the Standard Library's (stable) merge sort, and the theorems that
    depend on the order of ties quantify over every sorted permutation. *)

Module TimeOrder <: TotalLeBool'.
Definition t := (Z * Z)%type.
Definition leb (x y : t) : bool := fst x <=? fst y.
Infix "<=?" := leb (at level 70, no associativity).
Lemma time_order_leb_total : forall x y, (x <=? y) = true \/ (y <=? x) = true.
Proof. intros x y; unfold leb; rewrite !Z.leb_le; lia. Qed.
Definition leb_total := time_order_leb_total.
End TimeOrder.
Module TimeSort := Sort TimeOrder.

Module KeyOrder <: TotalLeBool'.
Definition t := string.
Definition leb (x y : t) : bool := String.leb x y.
Infix "<=?" := leb (at level 70, no associativity).
Lemma key_order_leb_total : forall x y, (x <=? y) = true \/ (y <=? x) = true.
Proof. exact String.leb_total. Qed.
Definition leb_total := key_order_leb_total.
End KeyOrder.
Module KeySort := Sort KeyOrder.

(** The keys of a [groupby]: distinct, in ascending order. *)
Definition group_keys (ks : list string) : list string :=
  KeySort.sort (nodup string_dec ks).

(** [df.groupby(key)[col].agg(["sum"])] over rows (key, value). *)
Definition groupby_sum (rows : list (string * Z)) : list (string * Z) :=
  map (fun k => (k, sumZ (map snd (filter (fun r => String.eqb (fst r) k) rows))))
      (group_keys (map fst rows)).

(** A Python dict assignment [d[k] = v]: in place if present, appended otherwise. *)
Fixpoint dict_set {V : Type} (k : string) (v : V) (d : list (string * V))
  : list (string * V) :=
  match d with
  | [] => [(k, v)]
  | (k', v') :: r => if String.eqb k k' then (k, v) :: r else (k', v') :: dict_set k v r
  end.

(** [KernelType.<member>.name] (hta/utils/utils.py). *)
Definition KernelType_COMPUTATION : string := "COMPUTATION".
Definition KernelType_COMMUNICATION : string := "COMMUNICATION".
Definition KernelType_MEMORY : string := "MEMORY".

(** ** OverlapClassifier: [_get_gpu_kernel_type_time] (lines 494-561) *)

Section OverlapClassifier.

(** [value = 1 << idx] *)
Definition flag (idx : nat) : Z := Z.shiftl 1 (Z.of_nat idx).

(** [kernel_t_df.melt(var_name="status", value_name="time")
       .replace({"ts": value, "end": -value})]: the "ts" rows, then the
    "end" rows; an event is (time, status). *)
Definition melt_status (value : Z) (ivs : list (Z * Z)) : list (Z * Z) :=
  map (fun iv => (fst iv, value)) ivs ++ map (fun iv => (snd iv, - value)) ivs.

(** The loop over [enumerate(kernel_type_to_analysis)]: each category's
    merged intervals are concatenated and the frame is re-sorted by time. *)
Fixpoint overlap_events_from (idx : nat) (acc : list (Z * Z))
         (cats : list (string * list (Z * Z))) : list (Z * Z) :=
  match cats with
  | [] => acc
  | (_, ivs) :: rest =>
      overlap_events_from (S idx) (TimeSort.sort (acc ++ melt_status (flag idx) ivs)) rest
  end.

Fixpoint kernel_t_mapping_from (idx : nat) (d : list (string * Z))
         (cats : list (string * list (Z * Z))) : list (string * Z) :=
  match cats with
  | [] => d
  | (kt, _) :: rest => kernel_t_mapping_from (S idx) (dict_set kt (flag idx) d) rest
  end.

(** Every event of all categories, in emission order. *)
Fixpoint emitted_from (idx : nat) (cats : list (string * list (Z * Z))) : list (Z * Z) :=
  match cats with
  | [] => []
  | (_, ivs) :: rest => melt_status (flag idx) ivs ++ emitted_from (S idx) rest
  end.

(** Rows (time, running, next_time): [running = status.cumsum()] and
    [next_time = time.shift(-1)], NaN ([None]) on the last row. *)
Fixpoint sweep_rows (acc : Z) (ev : list (Z * Z)) : list (Z * Z * option Z) :=
  match ev with
  | [] => []
  | (t, s) :: rest =>
      (t, acc + s, match rest with [] => None | (t', _) :: _ => Some t' end)
        :: sweep_rows (acc + s) rest
  end.

Definition row_running (r : Z * Z * option Z) : Z := snd (fst r).

(** [(next_time - time).astype(int)]: NaN cannot be cast. *)
Definition row_dur (r : Z * Z * option Z) : option Z :=
  match r with (t, _, Some n) => Some (n - t) | _ => None end.

Fixpoint traverse_opt {A B} (f : A -> option B) (l : list A) : option (list B) :=
  match l with
  | [] => Some []
  | a :: r => match f a, traverse_opt f r with
              | Some b, Some bs => Some (b :: bs)
              | _, _ => None
              end
  end.

(** [running_mapping[u]]: the names of the categories whose flag is set
    in [u], joined with " overlapping " in mapping order. *)
Definition running_label (mapping : list (string * Z)) (u : Z) : string :=
  match fold_left
          (fun acc kv =>
             if negb (Z.land u (snd kv) =? 0)
             then Some (match acc with
                        | None => fst kv
                        | Some s => (s ++ " overlapping " ++ fst kv)%string
                        end)
             else acc)
          mapping None with
  | None => EmptyString
  | Some s => s
  end.

(** The classification of a time-sorted event frame: keep the rows with
    [running > 0], label them, take their durations, sum per label. *)
Definition classify_sorted (mapping : list (string * Z)) (ev : list (Z * Z))
  : option (list (string * Z)) :=
  let rows := filter (fun r => 0 <? row_running r) (sweep_rows 0 ev) in
  match traverse_opt row_dur rows with
  | None => None
  | Some durs => Some (groupby_sum (combine (map (fun r => running_label mapping (row_running r)) rows) durs))
  end.

(** [_get_gpu_kernel_type_time] after each category has been merged:
    [cats] pairs each kernel type with its merged intervals. [None] is the
    exception raised by [astype(int)]. *)
Definition gpu_kernel_type_sweep (cats : list (string * list (Z * Z)))
  : option (list (string * Z)) :=
  classify_sorted (kernel_t_mapping_from 0 [] cats) (overlap_events_from 0 [] cats).

(** Sum of the reported label totals. *)
Definition total_time (out : option (list (string * Z))) : option Z :=
  option_map (fun l => sumZ (map snd l)) out.

Definition all_intervals (cats : list (string * list (Z * Z))) : list (Z * Z) :=
  flat_map snd cats.

End OverlapClassifier.

(** ** Trace events *)

(** One row of a rank's trace frame (the columns the analyses read).
    [ev_name] and [ev_cat] are symbol ids. *)
Record event : Type := mk_event {
  ev_ts : Z;
  ev_dur : Z;
  ev_stream : Z;
  ev_cat : Z;
  ev_name : Z;
  ev_pid : Z;
  ev_tid : Z
}.

Definition kernel_interval (e : event) : Z * Z := (ev_ts e, ev_ts e + ev_dur e).

(** ** IntervalMerger *)

(** Modelled from the spec: [merge_kernel_intervals] of hta/utils/utils.py,
    which is not part of src (spec 4.1): sort by start; scan, extending the
    current interval's end with [max(end, next.end)] whenever
    [next.start <= current.end], otherwise close it and open a new one;
    empty input gives empty output. Intervals are (start, end). *)
Fixpoint merge_scan (cur : Z * Z) (l : list (Z * Z)) : list (Z * Z) :=
  match l with
  | [] => [cur]
  | (s, e) :: r =>
      if s <=? snd cur then merge_scan (fst cur, Z.max (snd cur) e) r
      else cur :: merge_scan (s, e) r
  end.

Definition merge_kernel_intervals (ivs : list (Z * Z)) : list (Z * Z) :=
  match TimeSort.sort ivs with
  | [] => []
  | x :: r => merge_scan x r
  end.

(** [merged.end.sum() - merged.ts.sum()] *)
Definition busy_time (merged : list (Z * Z)) : Z :=
  sumZ (map snd merged) - sumZ (map fst merged).

(** ** Temporal breakdown: [get_temporal_breakdown] (lines 625-755) *)

Section TemporalBreakdown.

(** [get_kernel_type(sym_table[name])]: the kernel type of a name id, an
    injected capability of the symbol table (hta/utils/utils.py). *)
Variable kernel_type_of : Z -> string.

(** [_get_idle_time_for_kernels]: [iloc[-1]] and [iloc[0]] of an empty
    frame raise [IndexError]. *)
Definition _get_idle_time_for_kernels (kernels : list event) : result (Z * Z) :=
  let merged := merge_kernel_intervals (map kernel_interval kernels) in
  match merged with
  | [] => Err IndexError
  | first :: _ =>
      let kernel_time := snd (last merged first) - fst first in
      let kernel_run_time := busy_time merged in
      Ok (kernel_time - kernel_run_time, kernel_time)
  end.

Definition kernels_of_type (ty : string) (gpu_kernels : list event) : list event :=
  filter (fun e => String.eqb (kernel_type_of (ev_name e)) ty) gpu_kernels.

Record rank_times : Type := mk_rank_times {
  idle_time : Z;
  compute_time : Z;
  comm_time : Z;
  mem_time : Z;
  non_compute_time : Z;
  kernel_time : Z
}.

(** [idle_time_per_rank], with its five assertions. *)
Definition idle_time_per_rank (trace_df : list event) : result rank_times :=
  let gpu_kernels := filter (fun e => negb (ev_stream e =? -1)) trace_df in
  r <- _get_idle_time_for_kernels gpu_kernels ;;
  let idle_time := fst r in
  let kernel_time := snd r in
  let comp_kernels := merge_kernel_intervals
        (map kernel_interval (kernels_of_type KernelType_COMPUTATION gpu_kernels)) in
  let comm_kernels := merge_kernel_intervals
        (map kernel_interval (kernels_of_type KernelType_COMMUNICATION gpu_kernels)) in
  let mem_kernels := merge_kernel_intervals
        (map kernel_interval (kernels_of_type KernelType_MEMORY gpu_kernels)) in
  let compute_time := busy_time comp_kernels in
  let comm_time := busy_time comm_kernels in
  let mem_time := busy_time mem_kernels in
  let non_compute_time := kernel_time - compute_time - idle_time in
  _ <- py_assert (idle_time <=? kernel_time) ;;
  _ <- py_assert (compute_time <=? kernel_time) ;;
  _ <- py_assert (0 <=? non_compute_time) ;;
  _ <- py_assert (comm_time <=? kernel_time) ;;
  _ <- py_assert (mem_time <=? kernel_time) ;;
  Ok (mk_rank_times idle_time compute_time comm_time mem_time non_compute_time kernel_time).


(** A data frame: named columns of cells, in column order. *)
Inductive cell : Type :=
| CInt (z : Z)
| CFloat (f : fl).

Definition frame : Type := list (string * list cell).

(** [df[c]] *)
Fixpoint df_get (df : frame) (c : string) : result (list cell) :=
  match df with
  | [] => Err (KeyError [c])
  | (c', col) :: r => if String.eqb c c' then Ok col else df_get r c
  end.

(** [df[[c1, ..., cn]]]: a [KeyError] names every missing column. *)
Definition df_select (df : frame) (cols : list string) : result frame :=
  match filter (fun c => negb (existsb (String.eqb c) (map fst df))) cols with
  | [] => Ok (map (fun c => (c, match df_get df c with Ok col => col | Err _ => [] end)) cols)
  | missing => Err (KeyError missing)
  end.

Definition cell_div (a b : cell) : cell :=
  match a, b with
  | CInt x, CInt y => CFloat (fl_div x y)
  | _, _ => CFloat NaN
  end.

Definition cell_pctg (c : cell) : cell :=
  match c with
  | CFloat f => CFloat (fl_round2 (fl_mul100 f))
  | CInt z => CFloat (fl_round2 (fl_mul100 (Fin (inject_Z z))))
  end.

Definition col_div (a b : list cell) : list cell := map (fun p => cell_div (fst p) (snd p)) (combine a b).

Definition col_pctg (c : list cell) : list cell := map cell_pctg c.

Fixpoint temporal_rows (traces : list (Z * list event)) : result (list (Z * rank_times)) :=
  match traces with
  | [] => Ok []
  | (rank, trace_df) :: rest =>
      t <- idle_time_per_rank trace_df ;;
      rs <- temporal_rows rest ;;
      Ok ((rank, t) :: rs)
  end.

(** [pd.DataFrame(result)] for the [defaultdict(list)] filled by the loop
    over ranks: no rank, no column. *)
Definition temporal_result (rows : list (Z * rank_times)) : frame :=
  match rows with
  | [] => []
  | _ =>
    [("rank", map (fun r => CInt (fst r)) rows);
     ("idle_time(us)", map (fun r => CInt (idle_time (snd r))) rows);
     ("compute_time(us)", map (fun r => CInt (compute_time (snd r))) rows);
     ("non_compute_time(us)", map (fun r => CInt (non_compute_time (snd r))) rows);
     ("kernel_time(us)", map (fun r => CInt (kernel_time (snd r))) rows);
     ("comm_time(us)", map (fun r => CInt (comm_time (snd r))) rows);
     ("mem_time(us)", map (fun r => CInt (mem_time (snd r))) rows)]%string
  end.

(** A ratio column and its percentage column. *)
Definition add_ratio (df : frame) (num ratio pctg : string) : result frame :=
  a <- df_get df num ;;
  k <- df_get df "kernel_time(us)" ;;
  let df1 := dict_set ratio (col_div a k) df in
  c <- df_get df1 ratio ;;
  Ok (dict_set pctg (col_pctg c) df1).

Definition temporal_columns : list string :=
  ["rank"; "idle_time(us)"; "compute_time(us)"; "comm_time(us)"; "mem_time(us)";
   "non_compute_time(us)"; "kernel_time(us)"; "idle_time_pctg"; "compute_time_pctg";
   "comm_time_pctg"; "mem_time_pctg"; "non_compute_time_pctg"]%string.

(** [get_temporal_breakdown] with [visualize=False] (the plot is out of scope). *)
Definition get_temporal_breakdown (traces : list (Z * list event)) : result frame :=
  rows <- temporal_rows traces ;;
  let result_df := temporal_result rows in
  df1 <- add_ratio result_df "idle_time(us)" "idle_time" "idle_time_pctg" ;;
  df2 <- add_ratio df1 "compute_time(us)" "compute_time" "compute_time_pctg" ;;
  df3 <- add_ratio df2 "comm_time(us)" "comm_time" "comm_time_pctg" ;;
  df4 <- add_ratio df3 "mem_time(us)" "mem_time" "mem_time_pctg" ;;
  df_select df4 temporal_columns.

(** A percentage column value that is a finite number in [0, 100]. *)
Definition pct_in_range (f : fl) : Prop :=
  exists q, f = Fin q /\ (0 <= q <= 100)%Q.

End TemporalBreakdown.

(** ** TopK aggregation: [_aggr_gpu_kernel_time] (lines 563-622) *)

(** The [std] column: [StdSqrt v] is the square root of the rational [v]
    (a sample variance); [StdNaN] is the NaN of a one-row group. *)
Inductive std_val : Type :=
| StdNaN
| StdSqrt (v : Q).

(** A row of [agg(["sum", "max", "min", "mean", "std"])] after
    [reset_index]. *)
Record agg_row : Type := mk_agg_row {
  ar_name : string;
  ar_sum : Z;
  ar_max : Z;
  ar_min : Z;
  ar_mean : Q;
  ar_std : std_val
}.

(** Sample variance (ddof = 1) of at least two values. *)
Definition sample_var (xs : list Z) : Q :=
  let n := inject_Z (Z.of_nat (List.length xs)) in
  let m := (inject_Z (sumZ xs) / n)%Q in
  (fold_right (fun x acc => (inject_Z x - m) * (inject_Z x - m) + acc) 0 xs / (n - 1))%Q.

(** The aggregates of one (non-empty) group. *)
Definition agg_of (name : string) (xs : list Z) : agg_row :=
  match xs with
  | [] => mk_agg_row name 0 0 0 0 StdNaN
  | x :: r =>
      mk_agg_row name (sumZ xs) (fold_left Z.max r x) (fold_left Z.min r x)
        (inject_Z (sumZ xs) / inject_Z (Z.of_nat (List.length xs)))%Q
        (match r with [] => StdNaN | _ => StdSqrt (sample_var xs) end)
  end.

Definition group_values (k : string) (rows : list (string * Z)) : list Z :=
  map snd (filter (fun p => String.eqb (fst p) k) rows).

(** [df.groupby(by=["name"])[col].agg(["sum", "max", "min", "mean", "std"])]
    followed by [reset_index], over rows (name, col). *)
Definition groupby_agg (rows : list (string * Z)) : list agg_row :=
  map (fun k => agg_of k (group_values k rows)) (group_keys (map fst rows)).

(** [fillna({"std": 0})] on one row. *)
Definition fillna_std (r : agg_row) : agg_row :=
  match ar_std r with
  | StdNaN => mk_agg_row (ar_name r) (ar_sum r) (ar_max r) (ar_min r) (ar_mean r) (StdSqrt 0)
  | StdSqrt _ => r
  end.

Module SumDescOrder <: TotalLeBool'.
Definition t := agg_row.
Definition leb (x y : t) : bool := ar_sum y <=? ar_sum x.
Infix "<=?" := leb (at level 70, no associativity).
Lemma sum_desc_order_leb_total : forall x y, (x <=? y) = true \/ (y <=? x) = true.
Proof. intros x y; unfold leb; rewrite !Z.leb_le; lia. Qed.
Definition leb_total := sum_desc_order_leb_total.
End SumDescOrder.
(** [sort_values(by=["sum"], ascending=False, ignore_index=True)] *)
Module SumDescSort := Sort SumDescOrder.

Module ZOrder <: TotalLeBool'.
Definition t := Z.
Definition leb (x y : t) : bool := x <=? y.
Infix "<=?" := leb (at level 70, no associativity).
Lemma z_order_leb_total : forall x y, (x <=? y) = true \/ (y <=? x) = true.
Proof. intros x y; unfold leb; rewrite !Z.leb_le; lia. Qed.
Definition leb_total := z_order_leb_total.
End ZOrder.
Module ZSort := Sort ZOrder.

(** [Series.cumsum()] *)
Fixpoint cumsum_from (acc : Z) (xs : list Z) : list Z :=
  match xs with
  | [] => []
  | x :: r => (acc + x) :: cumsum_from (acc + x) r
  end.

(** [Series.quantile(p)] with its default linear interpolation between the
    two closest ranks; a [p] outside [0, 1] raises [ValueError]. *)
Definition quantile (p : Q) (xs : list Z) : result Q :=
  if negb (Qle_bool 0 p && Qle_bool p 1) then Err ValueError else
  let v := ZSort.sort xs in
  let pos := (p * inject_Z (Z.of_nat (List.length v) - 1))%Q in
  let lo := Qfloor pos in
  let frac := (pos - inject_Z lo)%Q in
  let a := nth (Z.to_nat lo) v 0 in
  let b := nth (S (Z.to_nat lo)) v a in
  Ok (inject_Z a + frac * (inject_Z b - inject_Z a))%Q.

(** [keep_idx]: membership in [allowlist_names], or [sum < 0] without one. *)
Definition keep_of (allowlist_names : option (list string)) (r : agg_row) : bool :=
  match allowlist_names with
  | Some l => existsb (String.eqb (ar_name r)) l
  | None => ar_sum r <? 0
  end.

Definition others : string := "others".

(** The name of the row at index [i] with cumulative sum [c] after the two
    [loc[..., "name"] = "others"] assignments. *)
Definition rename_one (num_kernels : Z) (q : Q) (keep : agg_row -> bool)
    (i : Z) (r : agg_row) (c : Z) : string :=
  let n1 := if negb (keep r) && negb (Qle_bool (inject_Z c) q) then others else ar_name r in
  if negb (keep r) && (num_kernels <=? i) then others else n1.

(** The (name, sum) columns of the renamed frame, rows indexed from [i]. *)
Fixpoint rename_indexed (f : Z -> agg_row -> Z -> string) (i : Z)
    (rc : list (agg_row * Z)) : list (string * Z) :=
  match rc with
  | [] => []
  | (r, c) :: rest => (f i r c, ar_sum r) :: rename_indexed f (i + 1) rest
  end.

(** The part of [_aggr_gpu_kernel_time] after the first aggregation, on the
    rows [g] in the order [sort_values] produced. *)
Definition aggr_collapse (num_kernels : Z) (duration_ratio : Q)
    (allowlist_names : option (list string)) (g : list agg_row) : result (list agg_row) :=
  if num_kernels <? Z.of_nat (List.length g) then
    let cs := cumsum_from 0 (map ar_sum g) in
    q <- quantile duration_ratio cs ;;
    let renamed := rename_indexed (rename_one num_kernels q (keep_of allowlist_names)) 0
                     (combine g cs) in
    Ok (map fillna_std (groupby_agg renamed))
  else Ok g.

(** The first aggregation: per-name statistics of the durations, sorted by
    [sum] in descending order, [std] filled. *)
Definition aggr_first_pass (gpu_kernel_time : list (string * Z)) : list agg_row :=
  map fillna_std (SumDescSort.sort (groupby_agg gpu_kernel_time)).

Definition _aggr_gpu_kernel_time (gpu_kernel_time : list (string * Z)) (num_kernels : Z)
    (duration_ratio : Q) (allowlist_names : option (list string)) : result (list agg_row) :=
  aggr_collapse num_kernels duration_ratio allowlist_names (aggr_first_pass gpu_kernel_time).

(** Example inputs: (name, dur) rows of GPU kernels. *)
Definition topk_example : list (string * Z) :=
  [("A"%string, 20); ("B"%string, 9); ("B"%string, 1); ("C"%string, 4); ("C"%string, 4)].

Definition topk_gate_example : list (string * Z) :=
  [("A"%string, 30); ("B"%string, 20); ("C"%string, 10)].

(** The row of a name in an aggregated frame. *)
Definition find_row (nm : string) (rows : list agg_row) : option agg_row :=
  find (fun r => String.eqb (ar_name r) nm) rows.

(** ** Idle time: [_analyze_idle_time_for_stream] (lines 757-828) *)

(** Modelled from the spec: [IdleTimeType] of hta/utils/utils.py, not in
    src (spec 4.4); the order of its values orders the groups. *)
Inductive idle_category : Type :=
| HOST_WAIT
| KERNEL_WAIT
| OTHER.

Definition idle_category_eqb (a b : idle_category) : bool :=
  match a, b with
  | HOST_WAIT, HOST_WAIT | KERNEL_WAIT, KERNEL_WAIT | OTHER, OTHER => true
  | _, _ => false
  end.

Definition idle_categories : list idle_category := [HOST_WAIT; KERNEL_WAIT; OTHER].

(** A row of [gpu_kernels] after the join with the runtime events:
    [ts_runtime] is NaN ([None]) when no runtime event correlates. *)
Record gpu_kernel : Type := mk_gpu_kernel {
  gk_ts : Z;
  gk_dur : Z;
  gk_stream : Z;
  gk_ts_runtime : option Z
}.

Module KernelTsOrder <: TotalLeBool'.
Definition t := gpu_kernel.
Definition leb (x y : t) : bool := gk_ts x <=? gk_ts y.
Infix "<=?" := leb (at level 70, no associativity).
Lemma kernel_ts_order_leb_total : forall x y, (x <=? y) = true \/ (y <=? x) = true.
Proof. intros x y; unfold leb; rewrite !Z.leb_le; lia. Qed.
Definition leb_total := kernel_ts_order_leb_total.
End KernelTsOrder.
(** [sort_values(by="ts")] *)
Module KernelTsSort := Sort KernelTsOrder.

(** [end_ts = ts + dur] *)
Definition end_ts (k : gpu_kernel) : Z := gk_ts k + gk_dur k.

(** [prev_end_ts = end_ts.shift(1)]: each kernel with the end of the
    previous one, NaN for the first. *)
Fixpoint with_prev_end (prev : option Z) (ks : list gpu_kernel) : list (gpu_kernel * option Z) :=
  match ks with
  | [] => []
  | k :: r => (k, prev) :: with_prev_end (Some (end_ts k)) r
  end.

(** [idle_interval = ts - prev_end_ts] *)
Definition idle_interval (row : gpu_kernel * option Z) : option Z :=
  match snd row with
  | Some p => Some (gk_ts (fst row) - p)
  | None => None
  end.

(** [ts_runtime > prev_end_ts]: false when either side is NaN. *)
Definition is_host_wait (row : gpu_kernel * option Z) : bool :=
  match gk_ts_runtime (fst row), snd row with
  | Some rt, Some p => p <? rt
  | _, _ => false
  end.

(** [idle_category]: OTHER, overwritten by HOST_WAIT, then by KERNEL_WAIT
    where [~is_host_wait & (idle_interval < consecutive_kernel_delay)]. *)
Definition idle_category_of (consecutive_kernel_delay : Z) (row : gpu_kernel * option Z)
  : idle_category :=
  if is_host_wait row then HOST_WAIT
  else match idle_interval row with
       | Some d => if d <? consecutive_kernel_delay then KERNEL_WAIT else OTHER
       | None => OTHER
       end.

(** [Series.sum()] skips NaN. *)
Definition sum_skipna (xs : list (option Z)) : Z :=
  sumZ (map (fun o => match o with Some z => z | None => 0 end) xs).

(** A row of the per-stream result: [idle_category] (the index),
    [idle_time], [stream], [idle_time_ratio]. *)
Record idle_row : Type := mk_idle_row {
  ir_category : idle_category;
  ir_idle_time : Z;
  ir_stream : Z;
  ir_ratio : fl
}.

(** The per-stream analysis on the stream's kernels in the order
    [sort_values] gave them. *)
Definition analyze_sorted (stream consecutive_kernel_delay : Z) (gpu_kernels_s : list gpu_kernel)
  : list idle_row :=
  let rows := with_prev_end None gpu_kernels_s in
  let cat := idle_category_of consecutive_kernel_delay in
  let present := filter (fun c => existsb (fun r => idle_category_eqb (cat r) c) rows) idle_categories in
  let sums := map (fun c => (c, sum_skipna (map idle_interval
                   (filter (fun r => idle_category_eqb (cat r) c) rows)))) present in
  let total_idle_time := sumZ (map snd sums) in
  map (fun p => mk_idle_row (fst p) (snd p) stream (fl_div (snd p) total_idle_time)) sums.

(** [_analyze_idle_time_for_stream] with [show_idle_interval_stats=False]. *)
Definition _analyze_idle_time_for_stream (stream : Z) (gpu_kernels : list gpu_kernel)
    (consecutive_kernel_delay : Z) : list idle_row :=
  analyze_sorted stream consecutive_kernel_delay
    (KernelTsSort.sort (filter (fun k => gk_stream k =? stream) gpu_kernels)).

(** The gap of a consecutive pair (previous kernel, kernel) and its
    category. *)
Definition pair_gap (pk : gpu_kernel * gpu_kernel) : Z := gk_ts (snd pk) - end_ts (fst pk).

Definition pair_category (consecutive_kernel_delay : Z) (pk : gpu_kernel * gpu_kernel) : idle_category :=
  idle_category_of consecutive_kernel_delay (snd pk, Some (end_ts (fst pk))).

(** Example streams: two overlapping kernels; and a host wait of +50
    followed by an overlap of -50. *)
Definition overlap_stream : list gpu_kernel :=
  [mk_gpu_kernel 0 100 7 (Some 0); mk_gpu_kernel 50 100 7 (Some 40)].

Definition cancelling_stream : list gpu_kernel :=
  [mk_gpu_kernel 0 100 7 None; mk_gpu_kernel 150 100 7 (Some 120); mk_gpu_kernel 200 10 7 None].

(** A host wait of 4 (runtime at 12, previous end at 10) and an OTHER gap
    of 10; no kernel starts before its runtime event. *)
Definition host_other_stream : list gpu_kernel :=
  [mk_gpu_kernel 0 10 7 None; mk_gpu_kernel 14 6 7 (Some 12); mk_gpu_kernel 30 5 7 None].

(** ** User annotations (lines 216-492) *)

(** A Python dict [d.get(k)] over an association list. *)
Fixpoint dict_get {V : Type} (d : list (string * V)) (k : string) : option V :=
  match d with
  | [] => None
  | (k', v) :: r => if String.eqb k k' then Some v else dict_get r k
  end.

(** Modelled from the spec: the symbol table of hta/common/trace.py, not in
    src.  [sym_index] maps a symbol to its id (it is also what
    [get_sym_id_map] returns); [sym_name] is the decoding used by
    [add_symbols_to_trace_df]; [find_matched_symbols] resolves the allowlist
    patterns. *)
Record symbol_table : Type := mk_symbol_table {
  sym_index : list (string * Z);
  sym_name : Z -> string;
  find_matched_symbols : list string -> list string
}.

(** The messages logged by the annotation analyses. *)
Inductive log_entry : Type :=
| WarnNoGpuUserAnnotations (rank : Z)
| WarnNoAnnotation (annotation : string)
| InfoPidTid (pid tid : Z) (num_annotations : nat)
| InfoAnnotationCount (rank : Z) (annotation : string) (num : nat).

(** A row of the GPU user annotation frame: [pid, tid, ts, end, dur, name]
    with the interval index [[ts, end)]. *)
Record annotation : Type := mk_annotation {
  an_pid : Z;
  an_tid : Z;
  an_ts : Z;
  an_end : Z;
  an_dur : Z;
  an_name : Z
}.

(** A row of the GPU kernel frame with its [user_annotation] column. *)
Record kernel_row : Type := mk_kernel_row {
  kr_ev : event;
  kr_user_annotation : Z
}.

Module AnnDurDescOrder <: TotalLeBool'.
Definition t := annotation.
Definition leb (x y : t) : bool := an_dur y <=? an_dur x.
Infix "<=?" := leb (at level 70, no associativity).
Lemma ann_dur_desc_order_leb_total : forall x y, (x <=? y) = true \/ (y <=? x) = true.
Proof. intros x y; unfold leb; rewrite !Z.leb_le; lia. Qed.
Definition leb_total := ann_dur_desc_order_leb_total.
End AnnDurDescOrder.
(** [sort_values("dur", ascending=False)] *)
Module AnnDurDescSort := Sort AnnDurDescOrder.

(** [_get_gpu_user_anno_interval_dataframe]: [None] when the symbol is
    missing ([get(..., -1) == -1]). *)
Definition _get_gpu_user_anno_interval_dataframe (st : symbol_table) (trace_df : list event)
  : option (list annotation) :=
  let gpu_user_anno_id := match dict_get (sym_index st) "gpu_user_annotation" with
                          | Some v => v | None => -1 end in
  if gpu_user_anno_id =? -1 then None
  else Some (AnnDurDescSort.sort
    (map (fun e => mk_annotation (ev_pid e) (ev_tid e) (ev_ts e) (ev_ts e + ev_dur e)
                     (ev_dur e) (ev_name e))
       (filter (fun e => ev_cat e =? gpu_user_anno_id) trace_df))).

(** [_get_gpu_kernel_interval_dataframe]: the rows kept by [GPUKernelFilter]
    (modelled from the spec: hta/common/trace_filter.py, not in src, is the
    predicate [is_gpu_kernel]), each with [user_annotation = -1]. *)
Definition _get_gpu_kernel_interval_dataframe (is_gpu_kernel : event -> bool)
    (trace_df : list event) : list kernel_row :=
  map (fun e => mk_kernel_row e (-1)) (filter is_gpu_kernel trace_df).

(** [IntervalIndex.overlaps] of two [closed="left"] intervals [[ts, end)]. *)
Definition overlaps_left (k : kernel_row) (a : annotation) : bool :=
  (ev_ts (kr_ev k) <? an_end a) && (an_ts a <? ev_ts (kr_ev k) + ev_dur (kr_ev k)).

Definition with_annotation (k : kernel_row) (name : Z) : kernel_row :=
  mk_kernel_row (kr_ev k) name.

(** [loc[(pid == pid) & (tid == tid) & overlaps, "user_annotation"] = anno_name]
    on one kernel row. *)
Definition assign_annotation (pid tid : Z) (a : annotation) (k : kernel_row) : kernel_row :=
  if (ev_pid (kr_ev k) =? pid) && (ev_tid (kr_ev k) =? tid) && overlaps_left k a
  then with_annotation k (an_name a) else k.

Definition pid_tid_eqb (x y : Z * Z) : bool := (fst x =? fst y) && (snd x =? snd y).

(** [drop_duplicates()]: first occurrences, in order. *)
Fixpoint drop_duplicates_from (seen : list (Z * Z)) (l : list (Z * Z)) : list (Z * Z) :=
  match l with
  | [] => []
  | x :: r =>
      if existsb (pid_tid_eqb x) seen then drop_duplicates_from seen r
      else x :: drop_duplicates_from (x :: seen) r
  end.

Definition same_pid_tid (p : Z * Z) (a : annotation) : bool :=
  (an_pid a =? fst p) && (an_tid a =? snd p).

(** [_associate_gpu_kernels_with_user_annotations]: the log and the kernel
    frame it updates in place. *)
Definition _associate_gpu_kernels_with_user_annotations (gpu_kernels_df : list kernel_row)
    (gpu_user_anno_df : list annotation) : list log_entry * list kernel_row :=
  fold_left
    (fun st p =>
       let filt := filter (same_pid_tid p) gpu_user_anno_df in
       (fst st ++ [InfoPidTid (fst p) (snd p) (List.length filt)],
        fold_left (fun ks a => map (assign_annotation (fst p) (snd p) a) ks) filt (snd st)))
    (drop_duplicates_from [] (map (fun a => (an_pid a, an_tid a)) gpu_user_anno_df))
    ([], gpu_kernels_df).

(** [get_gpu_kernels_with_user_annotations] with [expand_names=False];
    [get_trace] is [Trace.get_trace] (modelled from the spec: not in src). *)
Definition get_gpu_kernels_with_user_annotations (is_gpu_kernel : event -> bool)
    (st : symbol_table) (get_trace : Z -> result (list event)) (rank : Z)
  : result (list log_entry * option (list kernel_row)) :=
  trace_df <- get_trace rank ;;
  match _get_gpu_user_anno_interval_dataframe st trace_df with
  | None => Ok ([WarnNoGpuUserAnnotations rank], None)
  | Some gpu_user_anno_df =>
      let gpu_kernels_df := _get_gpu_kernel_interval_dataframe is_gpu_kernel trace_df in
      let r := _associate_gpu_kernels_with_user_annotations gpu_kernels_df gpu_user_anno_df in
      Ok (fst r, Some (snd r))
  end.

Module RankNameOrder <: TotalLeBool'.
Definition t := (Z * agg_row)%type.
Definition leb (x y : t) : bool :=
  (fst x <? fst y) || ((fst x =? fst y) && String.leb (ar_name (snd x)) (ar_name (snd y))).
Infix "<=?" := leb (at level 70, no associativity).
Lemma rank_name_order_leb_total : forall x y, (x <=? y) = true \/ (y <=? x) = true.
Proof.
  intros x y; unfold leb.
  destruct (Z.ltb_spec (fst x) (fst y)); [left; reflexivity|].
  destruct (Z.ltb_spec (fst y) (fst x)); [right; reflexivity|].
  assert (fst x = fst y) as E by lia. rewrite E, Z.eqb_refl. simpl.
  apply String.leb_total.
Qed.
Definition leb_total := rank_name_order_leb_total.
End RankNameOrder.
(** [sort_values(by=["rank", "name"])] *)
Module RankNameSort := Sort RankNameOrder.

(** The loop over the ranks of [get_gpu_user_annotation_breakdown]. *)
Fixpoint annotation_breakdown_ranks (st : symbol_table) (annotation : string) (idx : Z)
    (num_kernels : Z) (duration_ratio : Q) (allowlist_names : option (list string))
    (traces : list (Z * list event)) : result (list log_entry * list (Z * agg_row)) :=
  match traces with
  | [] => Ok ([], [])
  | (rank, trace_df) :: rest =>
      let kernels := filter (fun e => ev_cat e =? idx) trace_df in
      let named := map (fun e => (sym_name st (ev_name e), ev_dur e)) kernels in
      g <- _aggr_gpu_kernel_time named num_kernels duration_ratio allowlist_names ;;
      r <- annotation_breakdown_ranks st annotation idx num_kernels duration_ratio
             allowlist_names rest ;;
      Ok (InfoAnnotationCount rank annotation (List.length kernels) :: fst r,
          map (fun row => (rank, row)) g ++ snd r)
  end.

(** [get_gpu_user_annotation_breakdown] with [visualize=False]: rows
    (rank, aggregate) of [all_kernel_df]. *)
Definition get_gpu_user_annotation_breakdown (st : symbol_table) (traces : list (Z * list event))
    (use_gpu_annotation : bool) (duration_ratio : Q) (num_kernels : Z)
    (allowlist_patterns : option (list string))
  : result (list log_entry * option (list (Z * agg_row))) :=
  let annotation := if use_gpu_annotation then "gpu_user_annotation"%string
                    else "user_annotation"%string in
  match dict_get (sym_index st) annotation with
  | None => Ok ([WarnNoAnnotation annotation], None)
  | Some idx =>
      let allowlist_names := option_map (find_matched_symbols st) allowlist_patterns in
      r <- annotation_breakdown_ranks st annotation idx num_kernels duration_ratio
             allowlist_names traces ;;
      Ok (fst r, Some (RankNameSort.sort (snd r)))
  end.

(** The last annotation of [l] that overlaps the kernel [k]. *)
Definition last_overlap (k : kernel_row) (l : list annotation) : option annotation :=
  fold_left (fun acc a => if overlaps_left k a then Some a else acc) l None.

(** The nested annotations of the spec: A = [0, 1000) and B = [100, 200) on
    (pid, tid) = (1, 2), named 11 and 12, and a kernel K = [120, 150). *)
Definition anno_A : annotation := mk_annotation 1 2 0 1000 1000 11.
Definition anno_B : annotation := mk_annotation 1 2 100 200 100 12.
Definition kernel_K : kernel_row :=
  mk_kernel_row (mk_event 120 30 7 0 5 1 2) (-1).

(** A rank with a GPU user annotation (symbol 9, name 11) on [0, 1000) of
    (pid, tid) = (1, 2), a kernel of that thread on [120, 150) and a kernel
    of thread 3 on [200, 210). *)
Definition anno_example_st : symbol_table :=
  mk_symbol_table [("gpu_user_annotation"%string, 9)] (fun _ => EmptyString) (fun l => l).
Definition anno_example_trace : list event :=
  [mk_event 0 1000 (-1) 9 11 1 2; mk_event 120 30 7 0 5 1 2; mk_event 200 10 7 0 6 1 3].

(** ** Idle time breakdown of a rank: [get_idle_time_breakdown] (lines 831-946) *)

(** A row of a rank's trace frame as [get_idle_time_breakdown] reads it:
    [index_correlation] names the frame label of the correlated runtime
    event. *)
Record trace_rec : Type := mk_trace_rec {
  tr_ts : Z;
  tr_dur : Z;
  tr_stream : Z;
  tr_cat : Z;
  tr_index_correlation : Z
}.

(** A trace frame: rows with their index labels. *)
Definition trace_frame : Type := list (Z * trace_rec).

Definition kernel_cats : list string :=
  ["kernel"; "Kernel"; "gpu_memset"; "Memset"; "gpu_memcpy"; "Memcpy"; "mtia_ccp_events"]%string.

(** [[sym_id_map.get(cat, -1000) for cat in kernel_cats]] *)
Definition kernel_cat_ids (sym_id_map : list (string * Z)) : list Z :=
  map (fun c => match dict_get sym_id_map c with Some v => v | None => -1000 end) kernel_cats.

(** [trace_df[["ts", "index"]]] looked up by label: the [ts] of the row
    labelled [l], NaN ([None]) when there is none. *)
Definition runtime_ts (trace_df : trace_frame) (l : Z) : option Z :=
  match find (fun r => fst r =? l) trace_df with
  | Some r => Some (tr_ts (snd r))
  | None => None
  end.

(** [gpu_kernels_pre.join(trace_df[["ts", "index"]], on="index_correlation",
    rsuffix="_runtime")] after the stream and category filter. *)
Definition idle_gpu_kernels (sym_id_map : list (string * Z)) (trace_df : trace_frame)
  : list gpu_kernel :=
  let ids := kernel_cat_ids sym_id_map in
  map (fun r => mk_gpu_kernel (tr_ts (snd r)) (tr_dur (snd r)) (tr_stream (snd r))
                  (runtime_ts trace_df (tr_index_correlation (snd r))))
      (filter (fun r => negb (tr_stream (snd r) =? -1)
                        && existsb (Z.eqb (tr_cat (snd r))) ids) trace_df).

(** [Series.unique()]: distinct values in order of first appearance. *)
Fixpoint unique_from (seen : list Z) (l : list Z) : list Z :=
  match l with
  | [] => []
  | x :: r => if existsb (Z.eqb x) seen then unique_from seen r else x :: unique_from (x :: seen) r
  end.

(** [idle_category_name_map]: [member.value -> name.lower()]. *)
Definition idle_category_name (c : idle_category) : string :=
  match c with
  | HOST_WAIT => "host_wait"
  | KERNEL_WAIT => "kernel_wait"
  | OTHER => "other"
  end.

(** A row of the result: [rank, stream, idle_category, idle_time,
    idle_time_ratio], after [round(2)]. *)
Record idle_breakdown_row : Type := mk_idle_breakdown_row {
  ib_rank : Z;
  ib_stream : Z;
  ib_category : string;
  ib_idle_time : Z;
  ib_ratio : fl
}.

(** [get_idle_time_breakdown] with [visualize=False] and
    [show_idle_interval_stats=False] (the second result is then [None]);
    [pd.concat] of no frame raises [ValueError]. *)
Definition get_idle_time_breakdown (sym_id_map : list (string * Z))
    (get_trace : Z -> result trace_frame) (consecutive_kernel_delay : Z) (rank : Z)
    (streams : option (list Z)) : result (list idle_breakdown_row) :=
  trace_df <- get_trace rank ;;
  let gpu_kernels := idle_gpu_kernels sym_id_map trace_df in
  let streams := match streams with
                 | None | Some [] => unique_from [] (map gk_stream gpu_kernels)
                 | Some l => l
                 end in
  match streams with
  | [] => Err ValueError
  | _ =>
      let result_list := map (fun s => _analyze_idle_time_for_stream s gpu_kernels
                                         consecutive_kernel_delay) streams in
      Ok (map (fun r => mk_idle_breakdown_row rank (ir_stream r) (idle_category_name (ir_category r))
                          (ir_idle_time r) (fl_round2 (ir_ratio r)))
              (List.concat result_list))
  end.

(** A rank with a kernel on stream 7 (label 1) launched by the runtime
    event labelled 0, and a CPU event. *)
Definition idle_example_trace : trace_frame :=
  [(0, mk_trace_rec 0 5 (-1) 1 (-1)); (1, mk_trace_rec 10 20 7 2 0);
   (2, mk_trace_rec 40 10 7 2 (-1))].

Definition idle_example_symbols : list (string * Z) := [("kernel"%string, 2); ("cuda_runtime"%string, 1)].

(** ** GPU kernel breakdown: [get_gpu_kernel_breakdown] (lines 37-213) *)

(** [round(x, 1)] on a float series: [rint(x * 10) / 10]. *)
Definition fl_round1 (x : fl) : fl :=
  match x with
  | Fin q => Fin (inject_Z (round_half_even (q * 10)) / 10)%Q
  | v => v
  end.

(** [sort_values(by=["sum"], ascending=False)] on (kernel_type, sum) rows. *)
Module PairSumDescOrder <: TotalLeBool'.
Definition t := (string * Z)%type.
Definition leb (x y : t) : bool := snd y <=? snd x.
Infix "<=?" := leb (at level 70, no associativity).
Lemma pair_sum_desc_order_leb_total : forall x y, (x <=? y) = true \/ (y <=? x) = true.
Proof. intros x y. unfold leb. destruct (Z.leb_spec (snd y) (snd x)); [left; reflexivity|right; apply Z.leb_le; lia]. Qed.
Definition leb_total := pair_sum_desc_order_leb_total.
End PairSumDescOrder.

Module PairSumDescSort := Sort PairSumDescOrder.

(** One row of [all_kernel_df]: the statistics of [_aggr_gpu_kernel_time]
    with the [kernel_type] and [rank] columns added. *)
Record kernel_breakdown_row : Type := mk_kernel_breakdown_row {
  kb_stats : agg_row;
  kb_kernel_type : string;
  kb_rank : Z
}.

(** [sort_values(by=["kernel_type", "name", "rank"])] (a stable lexsort). *)
Module KindNameRankOrder <: TotalLeBool'.
Definition t := kernel_breakdown_row.
Definition leb (x y : t) : bool :=
  if String.eqb (kb_kernel_type x) (kb_kernel_type y) then
    if String.eqb (ar_name (kb_stats x)) (ar_name (kb_stats y)) then kb_rank x <=? kb_rank y
    else String.leb (ar_name (kb_stats x)) (ar_name (kb_stats y))
  else String.leb (kb_kernel_type x) (kb_kernel_type y).
Infix "<=?" := leb (at level 70, no associativity).
Lemma kind_name_rank_order_leb_total : forall x y, (x <=? y) = true \/ (y <=? x) = true.
Proof.
  intros x y. unfold leb.
  rewrite (String.eqb_sym (kb_kernel_type y)), (String.eqb_sym (ar_name (kb_stats y))).
  destruct (String.eqb _ _); [destruct (String.eqb _ _)|]; try apply String.leb_total.
  destruct (Z.leb_spec (kb_rank x) (kb_rank y)); [left; reflexivity|right; apply Z.leb_le; lia].
Qed.
Definition leb_total := kind_name_rank_order_leb_total.
End KindNameRankOrder.

Module KindNameRankSort := Sort KindNameRankOrder.

Section GpuKernelBreakdown.

(** [sym_table[name]] and [get_kernel_type] (hta/utils/utils.py): the
    symbol of a name id and the kernel type of a kernel name. *)
Variable sym_name : Z -> string.
Variable get_kernel_type : string -> string.

(** [gpu_kernels["kernel_type"]] *)
Definition gk_kernel_type (e : event) : string := get_kernel_type (sym_name (ev_name e)).

Definition kernel_type_to_analysis (include_memory_kernels : bool) : list string :=
  [KernelType_COMPUTATION; KernelType_COMMUNICATION]
  ++ (if include_memory_kernels then [KernelType_MEMORY] else []).

(** [trace_df[trace_df["stream"].ne(-1)]] *)
Definition rank_gpu_kernels (trace_df : list event) : list event :=
  filter (fun e => negb (ev_stream e =? -1)) trace_df.

(** The kernels of one type, [gpu_kernels[gpu_kernels["kernel_type"] == kernel_type]]. *)
Definition kernels_of_kind (kernel_type : string) (gpu_kernels : list event) : list event :=
  filter (fun e => String.eqb (gk_kernel_type e) kernel_type) gpu_kernels.

(** The loop of [_get_gpu_kernel_type_time] pairs each kernel type with
    [merge_kernel_intervals] of its kernels. *)
Definition kernel_type_frames (gpu_kernels : list event) (kernel_type_to_analysis : list string)
  : list (string * list (Z * Z)) :=
  map (fun kt => (kt, merge_kernel_intervals (map kernel_interval (kernels_of_kind kt gpu_kernels))))
      kernel_type_to_analysis.

(** [_get_gpu_kernel_type_time] (lines 494-561); the NaN that [astype(int)]
    cannot cast raises a [ValueError]. *)
Definition _get_gpu_kernel_type_time (gpu_kernels : list event) (kernel_type_to_analysis : list string)
  : result (list (string * Z)) :=
  match gpu_kernel_type_sweep (kernel_type_frames gpu_kernels kernel_type_to_analysis) with
  | Some l => Ok l
  | None => Err ValueError
  end.

(** The inner loop over [kernel_type_to_analysis] for one rank. *)
Fixpoint aggr_kernel_types (num_kernels : Z) (duration_ratio : Q) (rank : Z)
    (gpu_kernels : list event) (types : list string) : result (list kernel_breakdown_row) :=
  match types with
  | [] => Ok []
  | kt :: rest =>
      g <- _aggr_gpu_kernel_time
             (map (fun e => (sym_name (ev_name e), ev_dur e)) (kernels_of_kind kt gpu_kernels))
             num_kernels duration_ratio None ;;
      r <- aggr_kernel_types num_kernels duration_ratio rank gpu_kernels rest ;;
      Ok (map (fun a => mk_kernel_breakdown_row a kt rank) g ++ r)
  end.

(** The loop over [t.traces.items()]: the rows appended to
    [kernel_type_df] and to [all_kernel_df]. *)
Fixpoint kernel_breakdown_ranks (types : list string) (num_kernels : Z) (duration_ratio : Q)
    (traces : list (Z * list event)) : result (list (string * Z) * list kernel_breakdown_row) :=
  match traces with
  | [] => Ok ([], [])
  | (rank, trace_df) :: rest =>
      let gpu_kernels := rank_gpu_kernels trace_df in
      kt <- _get_gpu_kernel_type_time gpu_kernels types ;;
      rows <- aggr_kernel_types num_kernels duration_ratio rank gpu_kernels types ;;
      acc <- kernel_breakdown_ranks types num_kernels duration_ratio rest ;;
      Ok (kt ++ fst acc, rows ++ snd acc)
  end.

(** [get_gpu_kernel_breakdown] without the plots: [kernel_type_df] as
    (kernel_type, sum, percentage) rows and [all_kernel_df].  The unstable
    sort on [sum] is modelled by a stable one. *)
Definition get_gpu_kernel_breakdown (traces : list (Z * list event)) (duration_ratio : Q)
    (num_kernels : Z) (include_memory_kernels : bool)
  : result (list (string * Z * fl) * list kernel_breakdown_row) :=
  let types := kernel_type_to_analysis include_memory_kernels in
  acc <- kernel_breakdown_ranks types num_kernels duration_ratio traces ;;
  let kernel_type_df := PairSumDescSort.sort (groupby_sum (fst acc)) in
  let total := sumZ (map snd kernel_type_df) in
  Ok (map (fun p => (fst p, snd p, fl_round1 (fl_mul100 (fl_div (snd p) total)))) kernel_type_df,
      KindNameRankSort.sort (snd acc)).

End GpuKernelBreakdown.

(** Example: a GEMM kernel (name id 1) on [0, 20) and an NCCL kernel
    (name id 2) on [10, 30) of rank 0, plus a CPU event. *)
Definition breakdown_sym_name (x : Z) : string :=
  if x =? 1 then "gemm"%string else "nccl_all_reduce"%string.
Definition breakdown_kernel_type (s : string) : string :=
  if String.eqb s "gemm" then KernelType_COMPUTATION else KernelType_COMMUNICATION.
(** Two kernels on one stream: [0, 10) and [20, 30). *)
Definition idle_kernels_example : list event :=
  [mk_event 0 10 7 0 1 0 7; mk_event 20 10 7 0 2 0 7].

Definition breakdown_example : list (Z * list event) :=
  [(0, [mk_event 0 20 7 0 1 0 7; mk_event 10 20 8 0 2 0 8; mk_event 0 40 (-1) 0 3 0 1])].

(** ** Notions used by the proofs *)

(** The value of the running sum just after time [x]: the statuses of the
    events at or before [x]. *)
Definition running_at (ev : list (Z * Z)) (x : Z) : Z :=
  sumZ (map snd (filter (fun e => fst e <=? x) ev)).

Definition tle (a b : Z * Z) : Prop := TimeOrder.leb a b = true.

Definition last_time (ev : list (Z * Z)) : Z := fst (last ev (0, 0)).

(** The summed durations of the positive rows of the sweep. *)
Definition sweep_total (acc : Z) (ev : list (Z * Z)) : option Z :=
  option_map sumZ (traverse_opt row_dur (filter (fun r => 0 <? row_running r) (sweep_rows acc ev))).

(** Merged intervals: each non-decreasing, each ending strictly before the
    next one starts. *)
Fixpoint chain (l : list (Z * Z)) : Prop :=
  match l with
  | [] => True
  | (s, e) :: r => s <= e /\ match r with [] => True | (s', _) :: _ => e < s' end /\ chain r
  end.


(** * Proofs *)

(** ** Counting integer points *)

Lemma count_range_ext (f g : Z -> bool) (lo : Z) (n : nat) :
  (forall x, lo <= x < lo + Z.of_nat n -> f x = g x) ->
  count_range f lo n = count_range g lo n.
Proof.
  induction n as [|n IH]; intros H; simpl; [reflexivity|].
  rewrite IH by (intros x Hx; apply H; lia).
  rewrite (H (lo + Z.of_nat n)) by lia. reflexivity.
Qed.

Lemma count_range_add (f : Z -> bool) (lo : Z) (n m : nat) :
  count_range f lo (n + m) = count_range f lo n + count_range f (lo + Z.of_nat n) m.
Proof.
  induction m as [|m IH]; simpl.
  - rewrite Nat.add_0_r. lia.
  - rewrite Nat.add_succ_r. simpl. rewrite IH.
    replace (lo + Z.of_nat (n + m)) with (lo + Z.of_nat n + Z.of_nat m) by lia. lia.
Qed.

Lemma count_range_const (b : bool) (lo : Z) (n : nat) :
  count_range (fun _ => b) lo n = if b then Z.of_nat n else 0.
Proof.
  induction n as [|n IH]; simpl; [destruct b; reflexivity|].
  rewrite IH. destruct b; lia.
Qed.

Lemma count_range_bounds (f : Z -> bool) (lo : Z) (n : nat) :
  0 <= count_range f lo n <= Z.of_nat n.
Proof.
  induction n as [|n IH]; simpl; [lia|]. destruct (f _); lia.
Qed.


Lemma count_range_disj (f g : Z -> bool) (lo : Z) (n : nat) :
  (forall x, f x = true -> g x = false) ->
  count_range (fun x => f x || g x) lo n = count_range f lo n + count_range g lo n.
Proof.
  intros H. induction n as [|n IH]; simpl; [lia|]. rewrite IH.
  destruct (f (lo + Z.of_nat n)) eqn:E.
  - rewrite (H _ E). simpl. lia.
  - simpl. destruct (g _); lia.
Qed.

Lemma count_range_iv (s e lo : Z) (n : nat) :
  count_range (fun x => in_iv x (s, e)) lo n
  = Z.max 0 (Z.min (lo + Z.of_nat n) e - Z.max lo s).
Proof.
  induction n as [|n IH]; simpl.
  - lia.
  - rewrite IH. unfold in_iv; simpl.
    destruct (s <=? lo + Z.of_nat n) eqn:E1; destruct (lo + Z.of_nat n <? e) eqn:E2;
      simpl; rewrite ?Z.leb_le, ?Z.leb_gt, ?Z.ltb_lt, ?Z.ltb_ge in *; lia.
Qed.

Lemma count_between_ext (f g : Z -> bool) (a b : Z) :
  (forall x, a <= x < b -> f x = g x) ->
  count_between f a b = count_between g a b.
Proof.
  intros H. unfold count_between. apply count_range_ext.
  intros x Hx. apply H. destruct (Z.le_gt_cases a b); [rewrite Z2Nat.id in Hx|]; lia.
Qed.

Lemma count_between_split (f : Z -> bool) (a b c : Z) :
  a <= b <= c ->
  count_between f a c = count_between f a b + count_between f b c.
Proof.
  intros H. unfold count_between.
  replace (Z.to_nat (c - a)) with (Z.to_nat (b - a) + Z.to_nat (c - b))%nat by lia.
  rewrite count_range_add. do 2 f_equal. lia.
Qed.

Lemma count_between_zero (f : Z -> bool) (a b : Z) :
  (forall x, a <= x < b -> f x = false) -> count_between f a b = 0.
Proof.
  intros H. rewrite (count_between_ext f (fun _ => false)) by exact H.
  unfold count_between. rewrite count_range_const. reflexivity.
Qed.

Lemma count_between_const (b : bool) (x y : Z) :
  x <= y -> count_between (fun _ => b) x y = if b then y - x else 0.
Proof.
  intros H. unfold count_between. rewrite count_range_const. destruct b; lia.
Qed.

(** Counting a predicate that only holds inside [a, b) over a wider range. *)
Lemma count_between_restrict (f : Z -> bool) (lo a b hi : Z) :
  (forall x, f x = true -> a <= x < b) -> lo <= a <= b -> b <= hi ->
  count_between f lo hi = count_between f a b.
Proof.
  intros H H1 H2.
  rewrite (count_between_split f lo a hi) by lia.
  rewrite (count_between_split f a b hi) by lia.
  rewrite (count_between_zero f lo a), (count_between_zero f b hi); [lia| |];
    intros x Hx; destruct (f x) eqn:E; auto; apply H in E; lia.
Qed.


Lemma count_between_bounds (f : Z -> bool) (a b : Z) :
  a <= b -> 0 <= count_between f a b <= b - a.
Proof.
  intros H. unfold count_between. pose proof (count_range_bounds f a (Z.to_nat (b - a))). lia.
Qed.

(** ** Sums and groupby *)

Lemma sumZ_app (l1 l2 : list Z) : sumZ (l1 ++ l2) = sumZ l1 + sumZ l2.
Proof. induction l1; simpl; lia. Qed.

Lemma sumZ_map_add {A} (f g : A -> Z) (l : list A) :
  sumZ (map (fun a => f a + g a) l) = sumZ (map f l) + sumZ (map g l).
Proof. induction l; simpl; lia. Qed.

Lemma sumZ_map_ext {A} (f g : A -> Z) (l : list A) :
  (forall a, In a l -> f a = g a) -> sumZ (map f l) = sumZ (map g l).
Proof.
  induction l as [|a l IH]; intros H; simpl; [reflexivity|].
  rewrite H by (left; reflexivity). rewrite IH by (intros; apply H; right; assumption). reflexivity.
Qed.

Lemma sumZ_perm (l1 l2 : list Z) : Permutation l1 l2 -> sumZ l1 = sumZ l2.
Proof. induction 1; simpl; lia. Qed.

Lemma sumZ_indicator (a : string) (v : Z) (ks : list string) :
  NoDup ks -> In a ks ->
  sumZ (map (fun k => if String.eqb a k then v else 0) ks) = v.
Proof.
  induction ks as [|k ks IH]; intros Hnd Hin; [destruct Hin|].
  inversion Hnd as [|? ? Hk Hnd']; subst. simpl.
  destruct (String.eqb_spec a k) as [->|Hne].
  - rewrite (sumZ_map_ext _ (fun _ => 0)).
    + clear. induction ks; simpl; lia.
    + intros k' Hk'. destruct (String.eqb_spec k k'); [subst; contradiction|reflexivity].
  - destruct Hin as [->|Hin]; [contradiction|]. rewrite IH; auto.
Qed.

Lemma groupby_total_gen (rows : list (string * Z)) (ks : list string) :
  NoDup ks -> (forall r, In r rows -> In (fst r) ks) ->
  sumZ (map (fun k => sumZ (map snd (filter (fun r => String.eqb (fst r) k) rows))) ks)
  = sumZ (map snd rows).
Proof.
  intros Hnd. induction rows as [|r rows IH]; intros Hin; simpl.
  - clear. induction ks; simpl; lia.
  - rewrite (sumZ_map_ext _
       (fun k => (if String.eqb (fst r) k then snd r else 0)
                 + sumZ (map snd (filter (fun r => String.eqb (fst r) k) rows)))).
    + rewrite sumZ_map_add, sumZ_indicator, IH; auto.
      * intros r' Hr'. apply Hin. right; exact Hr'.
      * apply Hin. left; reflexivity.
    + intros k _. destruct (String.eqb (fst r) k); simpl; lia.
Qed.

Lemma group_keys_NoDup (ks : list string) : NoDup (group_keys ks).
Proof.
  unfold group_keys. eapply Permutation_NoDup; [apply KeySort.Permuted_sort|apply NoDup_nodup].
Qed.

Lemma group_keys_In (ks : list string) (k : string) : In k (group_keys ks) <-> In k ks.
Proof.
  unfold group_keys. split; intros H.
  - apply (nodup_In string_dec).
    eapply Permutation_in; [symmetry; apply KeySort.Permuted_sort|exact H].
  - eapply Permutation_in; [apply KeySort.Permuted_sort|].
    apply (nodup_In string_dec), H.
Qed.

(** [groupby(...).agg(["sum"])] loses no row and counts none twice. *)
Lemma groupby_sum_total (rows : list (string * Z)) :
  sumZ (map snd (groupby_sum rows)) = sumZ (map snd rows).
Proof.
  unfold groupby_sum. rewrite map_map. simpl.
  apply groupby_total_gen; [apply group_keys_NoDup|].
  intros r Hr. apply group_keys_In, in_map, Hr.
Qed.

Lemma map_snd_combine {A B} (l1 : list A) (l2 : list B) :
  List.length l1 = List.length l2 -> map snd (combine l1 l2) = l2.
Proof.
  revert l2; induction l1 as [|a l1 IH]; intros [|b l2] H; simpl in *; try discriminate; auto.
  f_equal. apply IH. lia.
Qed.

Lemma traverse_opt_length {A B} (f : A -> option B) (l : list A) (bs : list B) :
  traverse_opt f l = Some bs -> List.length bs = List.length l.
Proof.
  revert bs; induction l as [|a l IH]; intros bs H; simpl in H.
  - injection H as <-. reflexivity.
  - destruct (f a), (traverse_opt f l) eqn:E; try discriminate.
    injection H as <-. simpl. rewrite (IH l0); reflexivity.
Qed.

(** ** The sweep *)

Lemma tle_trans : Transitive tle.
Proof. unfold tle, TimeOrder.leb. intros x y z. rewrite !Z.leb_le. lia. Qed.

Lemma running_at_cons (t d x : Z) (l : list (Z * Z)) :
  running_at ((t, d) :: l) x = (if t <=? x then d else 0) + running_at l x.
Proof. unfold running_at. simpl. destruct (t <=? x); simpl; lia. Qed.

Lemma running_at_app (l1 l2 : list (Z * Z)) (x : Z) :
  running_at (l1 ++ l2) x = running_at l1 x + running_at l2 x.
Proof. unfold running_at. rewrite filter_app, map_app, sumZ_app. reflexivity. Qed.

Lemma running_at_after (l : list (Z * Z)) (x : Z) :
  (forall e, In e l -> x < fst e) -> running_at l x = 0.
Proof.
  induction l as [|[t d] l IH]; intros H; [reflexivity|].
  rewrite running_at_cons, IH by (intros; apply H; right; assumption).
  specialize (H (t, d) (or_introl eq_refl)). simpl in H.
  destruct (Z.leb_spec t x); lia.
Qed.

Lemma running_at_perm (l1 l2 : list (Z * Z)) (x : Z) :
  Permutation l1 l2 -> running_at l1 x = running_at l2 x.
Proof.
  intros Hp. unfold running_at. apply sumZ_perm, Permutation_map.
  induction Hp; simpl.
  - constructor.
  - destruct (fst x0 <=? x); auto.
  - destruct (fst x0 <=? x), (fst y <=? x); auto using Permutation_refl, perm_swap, perm_skip.
  - eapply perm_trans; eauto.
Qed.

Lemma last_in_list {A} (x : A) (l : list A) (d : A) : In (last (x :: l) d) (x :: l).
Proof.
  revert x. induction l as [|y l IH]; intros x; [left; reflexivity|].
  change (last (x :: y :: l) d) with (last (y :: l) d). right. apply IH.
Qed.

Lemma sorted_last_ge (t d : Z) (l : list (Z * Z)) :
  StronglySorted tle ((t, d) :: l) ->
  forall e, In e ((t, d) :: l) -> t <= fst e <= last_time ((t, d) :: l).
Proof.
  revert t d. induction l as [|[t' d'] l IH]; intros t d Hs e He.
  - destruct He as [<-|[]]. unfold last_time; simpl; lia.
  - inversion Hs as [|? ? Hs' Hall]; subst.
    assert (Ht : t <= t').
    { rewrite Forall_forall in Hall. specialize (Hall (t', d') (or_introl eq_refl)).
      unfold tle, TimeOrder.leb in Hall. simpl in Hall. apply Z.leb_le, Hall. }
    unfold last_time. change (last ((t, d) :: (t', d') :: l) (0, 0)) with (last ((t', d') :: l) (0, 0)).
    destruct He as [<-|He].
    + cbn [fst]. specialize (IH t' d' Hs' (t', d') (or_introl eq_refl)). unfold last_time in IH. lia.
    + specialize (IH t' d' Hs' e He). unfold last_time in IH. lia.
Qed.

(** The heart of the sweep: over a time-sorted frame whose last running
    value is not positive, the positive rows add up to the number of time
    points at which the running sum is positive. *)
Lemma sweep_total_count (l : list (Z * Z)) (acc t d : Z) :
  StronglySorted tle ((t, d) :: l) ->
  acc + d + sumZ (map snd l) <= 0 ->
  sweep_total acc ((t, d) :: l)
  = Some (count_between (fun x => 0 <? acc + running_at ((t, d) :: l) x) t (last_time ((t, d) :: l))).
Proof.
  revert acc t d. induction l as [|[t' d'] l IH]; intros acc t d Hs Hsum.
  - unfold sweep_total. simpl in *. unfold row_running. simpl.
    destruct (Z.ltb_spec 0 (acc + d)); [lia|]. simpl.
    unfold last_time, count_between. simpl. rewrite Z.sub_diag. reflexivity.
  - inversion Hs as [|? ? Hs' Hall]; subst.
    assert (Ht : t <= t').
    { rewrite Forall_forall in Hall. specialize (Hall (t', d') (or_introl eq_refl)).
      unfold tle, TimeOrder.leb in Hall. simpl in Hall. apply Z.leb_le, Hall. }
    assert (HT : t' <= last_time ((t', d') :: l))
      by (apply (sorted_last_ge t' d' l Hs' (t', d') (or_introl eq_refl))).
    assert (IH' := IH (acc + d) t' d' Hs' ltac:(simpl in Hsum; lia)). clear IH.
    unfold last_time. change (last ((t, d) :: (t', d') :: l) (0, 0)) with (last ((t', d') :: l) (0, 0)).
    fold (last_time ((t', d') :: l)).
    rewrite (count_between_split _ t t' (last_time ((t', d') :: l))) by lia.
    rewrite (count_between_ext _ (fun _ => 0 <? acc + d) t t').
    2:{ intros x Hx. rewrite running_at_cons, (running_at_after ((t', d') :: l)).
        - destruct (Z.leb_spec t x); [|lia]. f_equal. lia.
        - intros e He. pose proof (sorted_last_ge t' d' l Hs' e He). lia. }
    rewrite (count_between_ext _ (fun x => 0 <? acc + d + running_at ((t', d') :: l) x) t').
    2:{ intros x Hx. rewrite running_at_cons. destruct (Z.leb_spec t x); [|lia]. f_equal. lia. }
    rewrite count_between_const by lia.
    unfold sweep_total in *.
    change (sweep_rows acc ((t, d) :: (t', d') :: l))
      with ((t, acc + d, Some t') :: sweep_rows (acc + d) ((t', d') :: l)).
    remember (sweep_rows (acc + d) ((t', d') :: l)) as R eqn:HR. clear HR.
    destruct (traverse_opt row_dur (filter (fun r => 0 <? row_running r) R)) as [bs|] eqn:E;
      [|discriminate IH'].
    cbn [option_map] in IH'. injection IH' as IH'. rewrite <- IH'.
    cbn [filter]. unfold row_running at 1. cbn [fst snd].
    destruct (0 <? acc + d).
    + cbn [traverse_opt row_dur]. rewrite E. simpl. f_equal; lia.
    + rewrite E. reflexivity.
Qed.

Lemma flag_pos (idx : nat) : 0 < flag idx.
Proof. unfold flag. rewrite Z.shiftl_1_l. apply Z.pow_pos_nonneg; lia. Qed.

Lemma running_at_map_const (v x : Z) (f : Z * Z -> Z) (ivs : list (Z * Z)) :
  running_at (map (fun iv => (f iv, v)) ivs) x
  = sumZ (map (fun iv => if f iv <=? x then v else 0) ivs).
Proof.
  induction ivs as [|iv ivs IH]; [reflexivity|].
  simpl map. rewrite running_at_cons, IH. reflexivity.
Qed.

Lemma running_at_melt (v x : Z) (ivs : list (Z * Z)) :
  (forall iv, In iv ivs -> fst iv <= snd iv) ->
  running_at (melt_status v ivs) x = sumZ (map (fun iv => if in_iv x iv then v else 0) ivs).
Proof.
  intros H. unfold melt_status. rewrite running_at_app.
  rewrite (running_at_map_const v x fst), (running_at_map_const (- v) x snd), <- sumZ_map_add.
  apply sumZ_map_ext. intros iv Hiv. specialize (H iv Hiv). unfold in_iv.
  destruct (Z.leb_spec (fst iv) x), (Z.leb_spec (snd iv) x), (Z.ltb_spec x (snd iv)); simpl; lia.
Qed.

Lemma sum_indicator_pos (v x : Z) (ivs : list (Z * Z)) :
  0 < v ->
  0 <= sumZ (map (fun iv => if in_iv x iv then v else 0) ivs)
  /\ (0 < sumZ (map (fun iv => if in_iv x iv then v else 0) ivs) <-> covered ivs x = true).
Proof.
  intros Hv. unfold covered. induction ivs as [|iv ivs IH]; simpl; [split; [lia|split; [lia|discriminate]]|].
  destruct IH as [IH1 IH2]. destruct (in_iv x iv); simpl; [split; [lia|split; intros; [reflexivity|lia]]|].
  split; [lia|exact IH2].
Qed.

Lemma running_at_emitted (idx : nat) (cats : list (string * list (Z * Z))) (x : Z) :
  (forall iv, In iv (all_intervals cats) -> fst iv <= snd iv) ->
  0 <= running_at (emitted_from idx cats) x
  /\ (0 < running_at (emitted_from idx cats) x <-> covered (all_intervals cats) x = true).
Proof.
  revert idx. induction cats as [|[kt ivs] cats IH]; intros idx H; simpl.
  - unfold covered, running_at; simpl. split; [lia|split; [lia|discriminate]].
  - assert (H1 : forall iv, In iv ivs -> fst iv <= snd iv)
      by (intros; apply H; simpl; apply in_or_app; left; assumption).
    assert (H2 : forall iv, In iv (all_intervals cats) -> fst iv <= snd iv)
      by (intros; apply H; simpl; apply in_or_app; right; assumption).
    rewrite running_at_app, running_at_melt by exact H1.
    destruct (sum_indicator_pos (flag idx) x ivs (flag_pos idx)) as [A1 A2].
    destruct (IH (S idx) H2) as [B1 B2].
    unfold covered in *. simpl. rewrite existsb_app, orb_true_iff, <- A2, <- B2. lia.
Qed.

Lemma emitted_balanced (idx : nat) (cats : list (string * list (Z * Z))) :
  sumZ (map snd (emitted_from idx cats)) = 0.
Proof.
  revert idx. induction cats as [|[kt ivs] cats IH]; intros idx; simpl; [reflexivity|].
  rewrite map_app, sumZ_app, IH. unfold melt_status. rewrite map_app, sumZ_app, !map_map.
  simpl. clear. induction ivs; simpl; lia.
Qed.

Lemma emitted_times (idx : nat) (cats : list (string * list (Z * Z))) (e : Z * Z) :
  In e (emitted_from idx cats) ->
  exists iv, In iv (all_intervals cats) /\ (fst e = fst iv \/ fst e = snd iv).
Proof.
  revert idx. induction cats as [|[kt ivs] cats IH]; intros idx He; simpl in *; [contradiction|].
  apply in_app_or in He as [He|He].
  - unfold melt_status in He. apply in_app_or in He as [He|He]; apply in_map_iff in He as [iv [<- Hiv]];
      exists iv; (split; [apply in_or_app; left; exact Hiv|simpl; auto]).
  - destruct (IH _ He) as [iv [Hiv Heq]]. exists iv. split; [apply in_or_app; right|]; auto.
Qed.

Lemma emitted_endpoints (idx : nat) (cats : list (string * list (Z * Z))) (iv : Z * Z) :
  In iv (all_intervals cats) ->
  (exists v, In (fst iv, v) (emitted_from idx cats)) /\ (exists v, In (snd iv, v) (emitted_from idx cats)).
Proof.
  revert idx. induction cats as [|[kt ivs] cats IH]; intros idx Hiv; simpl in *; [contradiction|].
  apply in_app_or in Hiv as [Hiv|Hiv].
  - split; [exists (flag idx)|exists (- flag idx)]; apply in_or_app; left; unfold melt_status;
      apply in_or_app; [left|right]; apply (in_map (fun iv => (_, _)) _ _ Hiv).
  - destruct (IH (S idx) Hiv) as [[v1 H1] [v2 H2]].
    split; [exists v1|exists v2]; apply in_or_app; right; assumption.
Qed.

Lemma overlap_events_sorted_perm (idx : nat) (acc : list (Z * Z)) (cats : list (string * list (Z * Z))) :
  Sorted tle acc ->
  Permutation (acc ++ emitted_from idx cats) (overlap_events_from idx acc cats)
  /\ Sorted tle (overlap_events_from idx acc cats).
Proof.
  revert idx acc. induction cats as [|[kt ivs] cats IH]; intros idx acc Hs; simpl.
  - rewrite app_nil_r. split; [apply Permutation_refl|exact Hs].
  - destruct (IH (S idx) (TimeSort.sort (acc ++ melt_status (flag idx) ivs)) (TimeSort.Sorted_sort _))
      as [Hp Hs'].
    split; [|exact Hs'].
    eapply perm_trans; [|exact Hp]. rewrite app_assoc.
    apply Permutation_app_tail, TimeSort.Permuted_sort.
Qed.

Lemma classify_total (mapping : list (string * Z)) (ev : list (Z * Z)) :
  total_time (classify_sorted mapping ev) = sweep_total 0 ev.
Proof.
  unfold classify_sorted, sweep_total, total_time.
  destruct (traverse_opt row_dur _) as [durs|] eqn:E; [|reflexivity]. simpl.
  rewrite groupby_sum_total, map_snd_combine; [reflexivity|].
  rewrite length_map. symmetry. apply (traverse_opt_length _ _ _ E).
Qed.

(** The sweep over any time-sorted permutation of the emitted events. *)
Lemma classify_any_order (cats : list (string * list (Z * Z))) (mapping : list (string * Z))
      (lo hi : Z) (ev : list (Z * Z)) :
  (forall iv, In iv (all_intervals cats) -> lo <= fst iv <= snd iv /\ snd iv <= hi) ->
  Permutation (emitted_from 0 cats) ev -> Sorted tle ev ->
  total_time (classify_sorted mapping ev) = Some (count_between (covered (all_intervals cats)) lo hi).
Proof.
  intros Hb Hp Hs. rewrite classify_total.
  assert (Hle : forall iv, In iv (all_intervals cats) -> fst iv <= snd iv)
    by (intros iv Hiv; specialize (Hb iv Hiv); lia).
  destruct ev as [|[t d] l].
  - unfold sweep_total. simpl. f_equal. symmetry. apply count_between_zero.
    intros x _. destruct (covered (all_intervals cats) x) eqn:E; [|reflexivity].
    unfold covered in E. apply existsb_exists in E as [iv [Hiv _]].
    destruct (emitted_endpoints 0 cats iv Hiv) as [[v Hv] _].
    apply Permutation_in with (l' := []) in Hv; [contradiction|exact Hp].
  - apply Sorted_StronglySorted in Hs; [|exact tle_trans].
    rewrite sweep_total_count with (acc := 0); [|exact Hs|].
    2:{ pose proof (emitted_balanced 0 cats) as Hbal.
        rewrite (sumZ_perm _ _ (Permutation_map snd Hp)) in Hbal. simpl in Hbal. lia. }
    f_equal.
    rewrite (count_between_ext _ (covered (all_intervals cats))).
    2:{ intros x _. rewrite <- (running_at_perm _ _ x Hp).
        destruct (running_at_emitted 0 cats x Hle) as [H1 H2].
        destruct (covered (all_intervals cats) x) eqn:E.
        - apply Z.ltb_lt. apply H2. reflexivity.
        - apply Z.ltb_ge. destruct (Z.le_gt_cases (running_at (emitted_from 0 cats) x) 0); [lia|].
          apply H2 in H. discriminate. }
    assert (Hin : forall e, In e (emitted_from 0 cats) -> t <= fst e <= last_time ((t, d) :: l))
      by (intros e He; apply (sorted_last_ge t d l Hs), (Permutation_in _ Hp), He).
    assert (Hbnd : forall e, In e ((t, d) :: l) -> lo <= fst e <= hi).
    { intros e He. apply (Permutation_in _ (Permutation_sym Hp)) in He.
      destruct (emitted_times 0 cats e He) as [iv [Hiv [Heq|Heq]]]; specialize (Hb iv Hiv); lia. }
    symmetry. apply count_between_restrict.
    + intros x Hx. unfold covered in Hx. apply existsb_exists in Hx as [iv [Hiv Hx]].
      unfold in_iv in Hx. apply andb_true_iff in Hx as [Hx1 Hx2].
      apply Z.leb_le in Hx1. apply Z.ltb_lt in Hx2.
      destruct (emitted_endpoints 0 cats iv Hiv) as [[v1 H1] [v2 H2]].
      apply Hin in H1. apply Hin in H2. simpl in H1, H2. lia.
    + pose proof (Hbnd (t, d) (or_introl eq_refl)).
      pose proof (sorted_last_ge t d l Hs (t, d) (or_introl eq_refl)). simpl in *. lia.
    + assert (Hl : In (last ((t, d) :: l) (0, 0)) ((t, d) :: l))
        by apply last_in_list.
      apply Hbnd in Hl. unfold last_time. lia.
Qed.

(** ** IntervalMerger *)

Lemma covered_cons (iv : Z * Z) (l : list (Z * Z)) (x : Z) :
  covered (iv :: l) x = in_iv x iv || covered l x.
Proof. reflexivity. Qed.

Lemma covered_perm (l1 l2 : list (Z * Z)) (x : Z) :
  Permutation l1 l2 -> covered l1 x = covered l2 x.
Proof.
  induction 1; rewrite ?covered_cons; try congruence.
  destruct (in_iv x x0), (in_iv x y); reflexivity.
Qed.

Lemma sorted_fst (s e : Z) (r : list (Z * Z)) :
  StronglySorted tle ((s, e) :: r) -> Forall (fun iv => s <= fst iv) r.
Proof.
  intros Hs. inversion Hs as [|? ? _ Hall]; subst.
  eapply Forall_impl; [|exact Hall]. intros a Ha. unfold tle, TimeOrder.leb in Ha.
  apply Z.leb_le in Ha. exact Ha.
Qed.

Lemma merge_scan_covered (l : list (Z * Z)) (cur : Z * Z) (x : Z) :
  Forall (fun iv => fst cur <= fst iv) l -> StronglySorted tle l ->
  covered (merge_scan cur l) x = covered (cur :: l) x.
Proof.
  revert cur. induction l as [|[s e] r IH]; intros [c1 c2] Hf Hs; [reflexivity|].
  inversion Hf as [|? ? Hse Hf']; subst. simpl in Hse.
  pose proof (sorted_fst s e r Hs) as Hr. inversion Hs as [|? ? Hs' _]; subst.
  simpl merge_scan. destruct (Z.leb_spec s c2).
  - rewrite IH; [|simpl; exact Hf'|exact Hs'].
    rewrite !covered_cons, orb_assoc. f_equal.
    unfold in_iv; simpl.
    destruct (Z.leb_spec c1 x), (Z.ltb_spec x (Z.max c2 e)), (Z.ltb_spec x c2),
      (Z.leb_spec s x), (Z.ltb_spec x e); simpl; lia.
  - rewrite covered_cons, IH; [reflexivity|exact Hr|exact Hs'].
Qed.

Lemma merge_covered (ivs : list (Z * Z)) (x : Z) :
  covered (merge_kernel_intervals ivs) x = covered ivs x.
Proof.
  unfold merge_kernel_intervals.
  rewrite (covered_perm ivs (TimeSort.sort ivs)) by apply TimeSort.Permuted_sort.
  pose proof (TimeSort.Sorted_sort ivs) as Hs.
  destruct (TimeSort.sort ivs) as [|[s e] r]; [reflexivity|].
  apply Sorted_StronglySorted in Hs; [|exact tle_trans].
  apply merge_scan_covered; [exact (sorted_fst s e r Hs)|].
  inversion Hs; assumption.
Qed.

Lemma merge_scan_head (l : list (Z * Z)) (cur : Z * Z) :
  exists e' rest, merge_scan cur l = (fst cur, e') :: rest.
Proof.
  revert cur. induction l as [|[s e] r IH]; intros [c1 c2]; simpl.
  - eauto.
  - destruct (s <=? c2).
    + destruct (IH (c1, Z.max c2 e)) as [e' [rest H]]. eauto.
    + eauto.
Qed.

Lemma merge_scan_chain (l : list (Z * Z)) (cur : Z * Z) :
  fst cur <= snd cur -> (forall iv, In iv l -> fst iv <= snd iv) ->
  StronglySorted tle l -> chain (merge_scan cur l).
Proof.
  revert cur. induction l as [|[s e] r IH]; intros [c1 c2] Hc Hl Hs; simpl in Hc.
  - simpl. tauto.
  - inversion Hs as [|? ? Hs' _]; subst.
    assert (Hl' : forall iv, In iv r -> fst iv <= snd iv) by (intros; apply Hl; right; assumption).
    assert (He : s <= e) by exact (Hl (s, e) (or_introl eq_refl)).
    simpl merge_scan. destruct (Z.leb_spec s c2).
    + apply IH; auto. simpl. lia.
    + destruct (merge_scan_head r (s, e)) as [e' [rest Hm]].
      pose proof (IH (s, e) He Hl' Hs') as Hch. rewrite Hm in *. simpl in *. intuition lia.
Qed.

Lemma merge_chain (ivs : list (Z * Z)) :
  (forall iv, In iv ivs -> fst iv <= snd iv) -> chain (merge_kernel_intervals ivs).
Proof.
  intros H. unfold merge_kernel_intervals.
  assert (H' : forall iv, In iv (TimeSort.sort ivs) -> fst iv <= snd iv)
    by (intros iv Hiv; apply H; eapply Permutation_in; [symmetry; apply TimeSort.Permuted_sort|exact Hiv]).
  pose proof (TimeSort.Sorted_sort ivs) as Hs.
  destruct (TimeSort.sort ivs) as [|cur r]; [exact I|].
  apply Sorted_StronglySorted in Hs; [|exact tle_trans]. inversion Hs; subst.
  apply merge_scan_chain; auto.
  - apply H'. left; reflexivity.
  - intros; apply H'; right; assumption.
Qed.

Lemma merge_scan_bounds (l : list (Z * Z)) (cur : Z * Z) (lo hi : Z) :
  lo <= fst cur /\ snd cur <= hi -> (forall iv, In iv l -> lo <= fst iv /\ snd iv <= hi) ->
  forall iv, In iv (merge_scan cur l) -> lo <= fst iv /\ snd iv <= hi.
Proof.
  revert cur. induction l as [|[s e] r IH]; intros [c1 c2] Hc Hl iv Hiv; simpl in *.
  - destruct Hiv as [<-|[]]. exact Hc.
  - assert (Hse := Hl (s, e) (or_introl eq_refl)). simpl in Hse.
    destruct (s <=? c2).
    + apply (IH (c1, Z.max c2 e)); [simpl; lia|intros; apply Hl; right; assumption|exact Hiv].
    + destruct Hiv as [<-|Hiv]; [exact Hc|].
      apply (IH (s, e)); [simpl; lia|intros; apply Hl; right; assumption|exact Hiv].
Qed.

Lemma merge_bounds (ivs : list (Z * Z)) (lo hi : Z) :
  (forall iv, In iv ivs -> lo <= fst iv /\ snd iv <= hi) ->
  forall iv, In iv (merge_kernel_intervals ivs) -> lo <= fst iv /\ snd iv <= hi.
Proof.
  intros H. unfold merge_kernel_intervals.
  assert (H' : forall iv, In iv (TimeSort.sort ivs) -> lo <= fst iv /\ snd iv <= hi)
    by (intros iv Hiv; apply H; eapply Permutation_in; [symmetry; apply TimeSort.Permuted_sort|exact Hiv]).
  destruct (TimeSort.sort ivs) as [|cur r]; [intros ? []|].
  apply merge_scan_bounds; [apply H'; left; reflexivity|intros; apply H'; right; assumption].
Qed.

Lemma chain_starts_after (s e : Z) (r : list (Z * Z)) :
  chain ((s, e) :: r) -> forall iv, In iv r -> e < fst iv.
Proof.
  revert s e. induction r as [|[s' e'] r IH]; intros s e Hc iv Hiv; [destruct Hiv|].
  simpl in Hc. destruct Hc as [_ [Hlt Hc']].
  destruct Hiv as [<-|Hiv]; [simpl; lia|].
  pose proof (IH s' e' Hc' iv Hiv). simpl in Hc'. lia.
Qed.

Lemma busy_time_cons (s e : Z) (r : list (Z * Z)) :
  busy_time ((s, e) :: r) = (e - s) + busy_time r.
Proof. unfold busy_time. simpl. lia. Qed.

(** The busy time of merged intervals is the length of their union. *)
Lemma chain_busy_count (l : list (Z * Z)) (lo hi : Z) :
  chain l -> (forall iv, In iv l -> lo <= fst iv /\ snd iv <= hi) ->
  busy_time l = count_between (covered l) lo hi.
Proof.
  induction l as [|[s e] r IH]; intros Hc Hb.
  - unfold busy_time. simpl. symmetry. apply count_between_zero. reflexivity.
  - assert (Hc' := Hc). simpl in Hc'. destruct Hc' as [Hse [_ Hr]].
    assert (Hb1 := Hb (s, e) (or_introl eq_refl)). simpl in Hb1.
    rewrite busy_time_cons, IH by (auto; intros; apply Hb; right; assumption).
    unfold count_between.
    rewrite (count_range_ext (covered ((s, e) :: r)) (fun x => in_iv x (s, e) || covered r x))
      by (intros; reflexivity).
    rewrite count_range_disj, count_range_iv.
    + rewrite Z2Nat.id by lia. lia.
    + intros x Hx. unfold in_iv in Hx. simpl in Hx. apply andb_true_iff in Hx as [_ Hx].
      apply Z.ltb_lt in Hx. unfold covered. apply Bool.not_true_iff_false. intros Hex.
      apply existsb_exists in Hex as [iv [Hiv Hin]]. unfold in_iv in Hin.
      apply andb_true_iff in Hin as [Hin _]. apply Z.leb_le in Hin.
      pose proof (chain_starts_after s e r Hc iv Hiv). lia.
Qed.

Lemma last_default {A} (x : A) (l : list A) (d1 d2 : A) : last (x :: l) d1 = last (x :: l) d2.
Proof.
  revert x. induction l as [|y l IH]; intros x; [reflexivity|].
  change (last (x :: y :: l) d1 = last (y :: l) d2). rewrite <- (IH y). reflexivity.
Qed.



Lemma intervals_bounded (l : list (Z * Z)) :
  exists lo hi, forall iv, In iv l -> lo <= fst iv /\ snd iv <= hi.
Proof.
  induction l as [|[s e] r [lo [hi IH]]]; [exists 0, 0; intros ? []|].
  exists (Z.min lo s), (Z.max hi e). intros iv [<-|Hiv]; simpl; [lia|].
  specialize (IH iv Hiv). lia.
Qed.


(** ** C1: the overlap classification conserves time *)

(** C1. For kernel-type categories whose merged intervals satisfy
    start <= end and lie in [lo, hi], the label totals reported by
    [_get_gpu_kernel_type_time] add up to the length of the union of all
    categories' intervals (the number of time points covered by at least
    one of them); time where no category is active is counted nowhere.
    This holds for every time-sorted order of the event frame (pandas'
    sort is not stable) and for the executable sweep; pairwise
    disjointness within a category is not even needed for the total. *)
Theorem overlap_classifier_conserves_time (cats : list (string * list (Z * Z))) (lo hi : Z) :
  (forall iv, In iv (all_intervals cats) -> lo <= fst iv <= snd iv /\ snd iv <= hi) ->
  (forall ev, Permutation (emitted_from 0 cats) ev -> Sorted tle ev ->
     total_time (classify_sorted (kernel_t_mapping_from 0 [] cats) ev)
     = Some (count_between (covered (all_intervals cats)) lo hi))
  /\ total_time (gpu_kernel_type_sweep cats)
     = Some (count_between (covered (all_intervals cats)) lo hi).
Proof.
  intros Hb. split.
  - intros ev Hp Hs. exact (classify_any_order cats _ lo hi ev Hb Hp Hs).
  - destruct (overlap_events_sorted_perm 0 [] cats (Sorted_nil _)) as [Hp Hs].
    exact (classify_any_order cats _ lo hi _ Hb Hp Hs).
Qed.

(** Witness for C1: a computation interval [0,10) and [20,30), a
    communication interval [5,25); the union is [0,30). *)
Lemma overlap_classifier_conserves_time_witness :
  (forall iv, In iv (all_intervals [(KernelType_COMPUTATION, [(0, 10); (20, 30)]); (KernelType_COMMUNICATION, [(5, 25)])]) ->
     0 <= fst iv <= snd iv /\ snd iv <= 30)
  /\ total_time (gpu_kernel_type_sweep [(KernelType_COMPUTATION, [(0, 10); (20, 30)]); (KernelType_COMMUNICATION, [(5, 25)])])
     = Some 30.
Proof.
  assert (Hb : forall iv, In iv (all_intervals [(KernelType_COMPUTATION, [(0, 10); (20, 30)]); (KernelType_COMMUNICATION, [(5, 25)])]) ->
     0 <= fst iv <= snd iv /\ snd iv <= 30)
    by (intros iv Hiv; simpl in Hiv; repeat destruct Hiv as [<-|Hiv]; simpl; try lia; contradiction).
  split; [exact Hb|].
  rewrite (proj2 (overlap_classifier_conserves_time _ 0 30 Hb)). vm_compute. reflexivity.
Defined.

(** ** Temporal breakdown *)

Lemma round_half_even_bounds (q : Q) (n : Z) :
  (0 <= q)%Q -> (q <= inject_Z n)%Q -> 0 <= round_half_even q <= n.
Proof.
  intros H0 Hn. unfold round_half_even.
  pose proof (Qfloor_le q) as Hf1. pose proof (Qlt_floor q) as Hf2.
  assert (Hf0 : 0 <= Qfloor q).
  { assert (inject_Z 0 < inject_Z (Qfloor q + 1))%Q by (eapply Qle_lt_trans; [exact H0|exact Hf2]).
    rewrite <- Zlt_Qlt in H. lia. }
  assert (Hfn : Qfloor q <= n) by (rewrite Zle_Qle; eapply Qle_trans; [exact Hf1|exact Hn]).
  destruct (Z.eq_dec (Qfloor q) n) as [Heq|Hne].
  - assert (Hd : (q - inject_Z (Qfloor q) <= 0)%Q).
    { rewrite Heq. apply (Qplus_le_l _ _ (inject_Z n)). ring_simplify. exact Hn. }
    assert (Hlt : (q - inject_Z (Qfloor q) < 1 # 2)%Q)
      by (eapply Qle_lt_trans; [exact Hd|reflexivity]).
    rewrite Qlt_alt in Hlt. rewrite Hlt. lia.
  - destruct (Qcompare _ _); [destruct (Z.even _)|..]; lia.
Qed.


Lemma merge_nonempty (ivs : list (Z * Z)) :
  ivs <> [] -> exists first rest, merge_kernel_intervals ivs = first :: rest.
Proof.
  intros H. unfold merge_kernel_intervals.
  pose proof (TimeSort.Permuted_sort ivs) as Hp.
  destruct (TimeSort.sort ivs) as [|cur r].
  - apply Permutation_sym, Permutation_nil in Hp. contradiction.
  - destruct (merge_scan_head r cur) as [e' [rest Hm]]. rewrite Hm. eauto.
Qed.





(** ** C2: the temporal breakdown table *)

(** C2 (code_bug). [get_temporal_breakdown] never returns a table.  With no
    rank the first ratio already fails on the missing [idle_time(us)]
    column; with at least one rank every ratio column is added, but
    [non_compute_time_pctg] is never assigned, so the final column selection
    raises [KeyError(['non_compute_time_pctg'])].  Errors of the per-rank
    step are propagated unchanged. *)
Theorem get_temporal_breakdown_key_error (kt : Z -> string) (traces : list (Z * list event)) :
  get_temporal_breakdown kt traces =
  match temporal_rows kt traces with
  | Err e => Err e
  | Ok [] => Err (KeyError ["idle_time(us)"%string])
  | Ok (_ :: _) => Err (KeyError ["non_compute_time_pctg"%string])
  end.
Proof.
  unfold get_temporal_breakdown.
  destruct (temporal_rows kt traces) as [[|r rs]|e]; reflexivity.
Qed.

(** ** C6: the assertions of [idle_time_per_rank] and the percentages *)




(** ** TopK aggregation *)

Lemma rename_one_cases (nk : Z) (q : Q) (keep : agg_row -> bool) (i : Z) (r : agg_row) (c : Z) :
  rename_one nk q keep i r c = others \/ rename_one nk q keep i r c = ar_name r.
Proof.
  unfold rename_one.
  destruct (negb (keep r) && (nk <=? i)); [left; reflexivity|].
  destruct (negb (keep r) && negb (Qle_bool (inject_Z c) q)); auto.
Qed.

Lemma group_values_In (k : string) (x : Z) (rows : list (string * Z)) :
  In x (group_values k rows) <-> In (k, x) rows.
Proof.
  unfold group_values. rewrite in_map_iff. split.
  - intros [[k' x'] [Hx Hin]]. apply filter_In in Hin as [Hin Hk]. simpl in *.
    apply String.eqb_eq in Hk. subst. exact Hin.
  - intros H. exists (k, x). split; [reflexivity|]. apply filter_In. split; [exact H|].
    apply String.eqb_refl.
Qed.

Lemma group_values_nonempty (k : string) (rows : list (string * Z)) :
  In k (map fst rows) -> group_values k rows <> [].
Proof.
  intros Hk Hnil. apply in_map_iff in Hk as [[k' x] [Hk Hin]]. simpl in Hk. subst k'.
  apply (group_values_In k x rows) in Hin. rewrite Hnil in Hin. exact Hin.
Qed.

Lemma groupby_agg_In (rows : list (string * Z)) (r : agg_row) :
  In r (groupby_agg rows) ->
  exists k, In k (map fst rows) /\ r = agg_of k (group_values k rows).
Proof.
  unfold groupby_agg. intros H. apply in_map_iff in H as [k [<- Hk]].
  exists k. split; [apply group_keys_In, Hk|reflexivity].
Qed.

Lemma agg_of_name (k : string) (xs : list Z) : ar_name (agg_of k xs) = k.
Proof. destruct xs; reflexivity. Qed.

Lemma fillna_name (r : agg_row) : ar_name (fillna_std r) = ar_name r.
Proof. unfold fillna_std. destruct (ar_std r); reflexivity. Qed.

Lemma fillna_sum (r : agg_row) : ar_sum (fillna_std r) = ar_sum r.
Proof. unfold fillna_std. destruct (ar_std r); reflexivity. Qed.

Lemma groupby_agg_names (rows : list (string * Z)) :
  map ar_name (groupby_agg rows) = group_keys (map fst rows).
Proof.
  unfold groupby_agg. rewrite map_map.
  erewrite map_ext; [apply map_id|]. intros k. apply agg_of_name.
Qed.

Lemma first_pass_names_NoDup (ev : list (string * Z)) (g : list agg_row) :
  Permutation g (map fillna_std (groupby_agg ev)) -> NoDup (map ar_name g).
Proof.
  intros Hp. apply (Permutation_map ar_name) in Hp.
  eapply Permutation_NoDup; [apply Permutation_sym, Hp|].
  rewrite map_map. erewrite map_ext; [|intros r; apply fillna_name].
  rewrite groupby_agg_names. apply group_keys_NoDup.
Qed.

Lemma cumsum_length (acc : Z) (xs : list Z) : List.length (cumsum_from acc xs) = List.length xs.
Proof. revert acc; induction xs; intros acc; simpl; [reflexivity|]. rewrite IHxs. reflexivity. Qed.

Lemma map_fst_combine {A B} (l1 : list A) (l2 : list B) :
  (List.length l1 <= List.length l2)%nat -> map fst (combine l1 l2) = l1.
Proof.
  revert l2; induction l1 as [|a l1 IH]; intros [|b l2] H; simpl in *; try reflexivity; [lia|].
  rewrite IH; [reflexivity|lia].
Qed.

(** The values grouped under a name [k] in the renamed frame are the sums of
    a subsequence of the rows, each renamed to [k]. *)
Lemma rename_indexed_group (f : Z -> agg_row -> Z -> string) (k : string) :
  forall (rc : list (agg_row * Z)) (i : Z), exists rs,
    (forall r, In r rs -> In r (map fst rc) /\ exists j c, f j r c = k)
    /\ (NoDup (map ar_name (map fst rc)) -> NoDup (map ar_name rs))
    /\ group_values k (rename_indexed f i rc) = map ar_sum rs.
Proof.
  induction rc as [|[a c] rc IH]; intros i.
  - exists []. split; [intros r0 []|]. split; [intros; constructor|reflexivity].
  - destruct (IH (i + 1)) as [rs [Hin [Hnd Hg]]].
    unfold group_values in *. simpl.
    destruct (String.eqb_spec (f i a c) k) as [Hk|Hk].
    + exists (a :: rs). split; [|split].
      * intros r' [<-|Hr']; [split; [left; reflexivity|eauto]|].
        destruct (Hin r' Hr') as [Hr'' Hj]. split; [right; exact Hr''|exact Hj].
      * simpl. intros Hn. inversion Hn as [|? ? Hnot Hn']; subst. constructor; [|auto].
        intros Hr. apply Hnot. apply in_map_iff in Hr as [r' [Heq Hr']].
        apply in_map_iff. exists r'. split; [exact Heq|]. apply Hin, Hr'.
      * simpl. f_equal. exact Hg.
    + exists rs. split; [|split].
      * intros r' Hr'. destruct (Hin r' Hr') as [Hr'' Hj]. split; [right; exact Hr''|exact Hj].
      * simpl. intros Hn. inversion Hn; subst. auto.
      * exact Hg.
Qed.

(** The rows after collapsing: each is the [fillna]ed aggregate of the sums
    of a non-empty subsequence of distinct rows of [g], all renamed to its
    name. *)
Lemma aggr_collapse_rows (nk : Z) (ratio : Q) (allow : option (list string))
    (g out : list agg_row) :
  NoDup (map ar_name g) ->
  nk < Z.of_nat (List.length g) ->
  aggr_collapse nk ratio allow g = Ok out ->
  forall r, In r out ->
  exists rs, rs <> []
    /\ (forall r0, In r0 rs -> In r0 g /\ (ar_name r0 = ar_name r \/ ar_name r = others))
    /\ NoDup (map ar_name rs)
    /\ r = fillna_std (agg_of (ar_name r) (map ar_sum rs)).
Proof.
  intros Hnd Hlen H r Hr. unfold aggr_collapse in H.
  destruct (Z.ltb_spec nk (Z.of_nat (List.length g))) as [_|]; [|lia].
  destruct (quantile ratio (cumsum_from 0 (map ar_sum g))) as [q|] eqn:Hq; [|discriminate].
  cbn [bind] in H. injection H as <-.
  set (cs := cumsum_from 0 (map ar_sum g)) in *.
  set (f := rename_one nk q (keep_of allow)).
  assert (Hfst : map fst (combine g cs) = g).
  { apply map_fst_combine. unfold cs. rewrite cumsum_length, length_map. lia. }
  apply in_map_iff in Hr as [r1 [<- Hr1]].
  apply groupby_agg_In in Hr1 as [k [Hk ->]].
  rewrite fillna_name, agg_of_name.
  destruct (rename_indexed_group f k (combine g cs) 0) as [rs [Hin [Hnd' Hg]]].
  rewrite Hfst in Hin, Hnd'.
  exists rs. split; [|split; [|split]].
  - intros ->. simpl in Hg. exact (group_values_nonempty _ _ Hk Hg).
  - intros r0 Hr0. destruct (Hin r0 Hr0) as [Hr0g [j [c Hj]]]. split; [exact Hr0g|].
    destruct (rename_one_cases nk q (keep_of allow) j r0 c) as [Ho|Ho];
      unfold f in Hj; rewrite Hj in Ho; auto.
  - apply Hnd', Hnd.
  - f_equal. f_equal. exact Hg.
Qed.

Lemma rename_one_others (nk : Z) (q : Q) (keep : agg_row -> bool) (i : Z) (r : agg_row) (c : Z) :
  rename_one nk q keep i r c = others
  <-> ar_name r = others \/ (keep r = false /\ ((q < inject_Z c)%Q \/ nk <= i)).
Proof.
  unfold rename_one. destruct (keep r); cbn [negb andb].
  - split; [auto|intros [H|[H _]]; [exact H|discriminate]].
  - destruct (Z.leb_spec nk i) as [Hi|Hi].
    + split; [intros _; right; split; [reflexivity|right; exact Hi]|reflexivity].
    + destruct (Qle_bool (inject_Z c) q) eqn:Hq; cbn [negb].
      * apply Qle_bool_iff in Hq. split; [auto|].
        intros [H|[_ [H|H]]]; [exact H| |lia].
        exfalso. exact (Qlt_not_le _ _ H Hq).
      * split; [|reflexivity]. intros _. right. split; [reflexivity|left].
        apply Qnot_le_lt. intros H. apply Qle_bool_iff in H. congruence.
Qed.

Lemma nth_error_combine_l {A B} (l1 : list A) (l2 : list B) (n : nat) (a : A) (d : B) :
  List.length l1 = List.length l2 -> nth_error l1 n = Some a ->
  nth_error (combine l1 l2) n = Some (a, nth n l2 d).
Proof.
  revert l2 n. induction l1 as [|x l1 IH]; intros [|y l2] [|n] Hl Hn; simpl in *;
    try discriminate.
  - injection Hn as ->. reflexivity.
  - apply IH; [lia|exact Hn].
Qed.

(** The values grouped under "others" in the renamed frame are the sums of
    exactly the rows renamed to "others", each once. *)
Lemma rename_indexed_others (f : Z -> agg_row -> Z -> string) :
  forall (rc : list (agg_row * Z)) (i : Z), NoDup (map ar_name (map fst rc)) ->
  exists rs,
    (forall r, In r rs -> In r (map fst rc))
    /\ (forall j r c, nth_error rc j = Some (r, c) -> (In r rs <-> f (i + Z.of_nat j) r c = others))
    /\ NoDup (map ar_name rs)
    /\ group_values others (rename_indexed f i rc) = map ar_sum rs.
Proof.
  induction rc as [|[a c] rc IH]; intros i Hnd.
  - exists []. split; [intros r []|]. split; [intros [|j] r c H; discriminate|].
    split; [constructor|reflexivity].
  - cbn [map fst] in Hnd. inversion Hnd as [|? ? Hnot Hnd']; subst.
    destruct (IH (i + 1) Hnd') as [rs [Hin [Hidx [Hnd2 Hg]]]].
    assert (Hna : ~ In a (map fst rc)) by (intros H; apply Hnot, in_map, H).
    unfold group_values in *. simpl.
    destruct (String.eqb_spec (f i a c) others) as [Hk|Hk].
    + exists (a :: rs). split; [|split; [|split]].
      * intros r [<-|Hr]; [left; reflexivity|right; apply Hin, Hr].
      * intros [|j] r c' Hj; simpl in Hj.
        -- injection Hj as <- <-. rewrite Z.add_0_r. split; [intros _; exact Hk|intros _; left; reflexivity].
        -- replace (i + Z.of_nat (S j)) with (i + 1 + Z.of_nat j) by lia.
           rewrite <- (Hidx j r c' Hj). split; [|intros H; right; exact H].
           intros [<-|H]; [|exact H]. exfalso. apply Hna.
           apply in_map_iff. exists (a, c'). split; [reflexivity|exact (nth_error_In _ _ Hj)].
      * simpl. constructor; [|exact Hnd2]. intros H. apply in_map_iff in H as [r' [Hn Hr']].
        apply Hnot. rewrite <- Hn. apply in_map, Hin, Hr'.
      * simpl. f_equal. exact Hg.
    + exists rs. split; [|split; [|split]].
      * intros r Hr. right. apply Hin, Hr.
      * intros [|j] r c' Hj; simpl in Hj.
        -- injection Hj as <- <-. rewrite Z.add_0_r. split; [|intros H; contradiction].
           intros H. exfalso. exact (Hna (Hin _ H)).
        -- replace (i + Z.of_nat (S j)) with (i + 1 + Z.of_nat j) by lia.
           exact (Hidx j r c' Hj).
      * exact Hnd2.
      * exact Hg.
Qed.

(** ** C3: the "others" row *)

(** The input of the C3 and C9 examples: durations of kernels A, B and C. *)
Lemma aggr_others_max_of_sums :
  map ar_max (aggr_first_pass topk_example) = [20; 9; 4]
  /\ map ar_min (aggr_first_pass topk_example) = [20; 1; 4]
  /\ exists rows, _aggr_gpu_kernel_time topk_example 1 1 None = Ok rows
     /\ map ar_name rows = ["A"; "others"]%string
     /\ exists r, find_row others rows = Some r
        /\ ar_sum r = 18 /\ ar_max r = 10 /\ ar_min r = 8.
Proof.
  split; [reflexivity|]. split; [reflexivity|].
  eexists. split; [reflexivity|]. split; [reflexivity|].
  eexists. split; [reflexivity|]. repeat split.
Qed.

(** C3 (amended).  Whenever the rows are collapsed, the "others" row
    aggregates the SUMS of exactly the first-pass groups renamed to
    "others": the rows [r0] at an index [i] of [g] that are not kept and
    whose cumulative sum exceeds the quantile [q] or whose index is at least
    [num_kernels] (with a group already named "others", which the second
    [groupby] joins to them).  Each such group enters once, its sum is the
    sum of their sums, but its max and min are the largest and smallest of
    those sums (not the max of their maxes, the min of their mins), and its
    mean and std are those of the sums.  [g] is the first pass in any order
    [sort_values] may give to ties. *)
Theorem aggr_others_row (ev : list (string * Z)) (g : list agg_row) (nk : Z) (ratio : Q)
    (allow : option (list string)) (out : list agg_row) (r : agg_row) :
  Permutation g (map fillna_std (groupby_agg ev)) ->
  nk < Z.of_nat (List.length g) ->
  aggr_collapse nk ratio allow g = Ok out ->
  In r out -> ar_name r = others ->
  exists q rs,
    quantile ratio (cumsum_from 0 (map ar_sum g)) = Ok q
    /\ (forall r0, In r0 rs -> In r0 g)
    /\ (forall i r0, nth_error g i = Some r0 ->
         In r0 rs <-> ar_name r0 = others
                      \/ (keep_of allow r0 = false
                          /\ ((q < inject_Z (nth i (cumsum_from 0 (map ar_sum g)) 0%Z))%Q
                              \/ nk <= Z.of_nat i)))
    /\ NoDup (map ar_name rs)
    /\ r = fillna_std (agg_of others (map ar_sum rs))
    /\ ar_sum r = sumZ (map ar_sum rs)
    /\ exists r0 rest, rs = r0 :: rest
       /\ ar_max r = fold_left Z.max (map ar_sum rest) (ar_sum r0)
       /\ ar_min r = fold_left Z.min (map ar_sum rest) (ar_sum r0).
Proof.
  intros Hp Hlen H Hr Hname. pose proof (first_pass_names_NoDup ev g Hp) as Hnd.
  unfold aggr_collapse in H.
  destruct (Z.ltb_spec nk (Z.of_nat (List.length g))) as [_|]; [|lia].
  destruct (quantile ratio (cumsum_from 0 (map ar_sum g))) as [q|] eqn:Hq; [|discriminate].
  cbn [bind] in H. injection H as <-.
  set (cs := cumsum_from 0 (map ar_sum g)) in *.
  set (f := rename_one nk q (keep_of allow)).
  assert (Hlc : List.length g = List.length cs)
    by (unfold cs; rewrite cumsum_length, length_map; reflexivity).
  assert (Hfst : map fst (combine g cs) = g) by (apply map_fst_combine; lia).
  destruct (rename_indexed_others f (combine g cs) 0) as [rs [Hin [Hidx [Hnd2 Hg]]]];
    [rewrite Hfst; exact Hnd|].
  rewrite Hfst in Hin.
  apply in_map_iff in Hr as [r1 [<- Hr1]].
  apply groupby_agg_In in Hr1 as [k [Hk ->]].
  rewrite fillna_name, agg_of_name in Hname. subst k.
  assert (Hne : rs <> []).
  { intros ->. exact (group_values_nonempty _ _ Hk Hg). }
  unfold f in Hg. rewrite Hg.
  exists q, rs. split; [reflexivity|]. split; [exact Hin|]. split.
  { intros i r0 Hi. rewrite (Hidx i r0 (nth i cs 0) (nth_error_combine_l g cs i r0 0 Hlc Hi)).
    rewrite Z.add_0_l. unfold f. apply rename_one_others. }
  split; [exact Hnd2|]. split; [reflexivity|].
  destruct rs as [|r0 rest]; [contradiction|].
  split.
  { unfold fillna_std. simpl. destruct (map ar_sum rest); reflexivity. }
  exists r0, rest. split; [reflexivity|].
  unfold fillna_std. simpl. destruct (map ar_sum rest); split; reflexivity.
Qed.

(** Witness: with [num_kernels = 1] and [duration_ratio = 1] the groups B
    and C (index 1 and 2) are renamed and form the "others" row. *)
Lemma aggr_others_row_witness :
  exists out, _aggr_gpu_kernel_time topk_example 1 1 None = Ok out
  /\ exists r, In r out /\ ar_name r = others
  /\ exists q rs,
    quantile 1 (cumsum_from 0 (map ar_sum (aggr_first_pass topk_example))) = Ok q
    /\ (forall r0, In r0 rs -> In r0 (aggr_first_pass topk_example))
    /\ (forall i r0, nth_error (aggr_first_pass topk_example) i = Some r0 ->
         In r0 rs <-> ar_name r0 = others
                      \/ (keep_of None r0 = false
                          /\ ((q < inject_Z (nth i (cumsum_from 0
                                  (map ar_sum (aggr_first_pass topk_example))) 0%Z))%Q
                              \/ 1 <= Z.of_nat i)))
    /\ NoDup (map ar_name rs)
    /\ r = fillna_std (agg_of others (map ar_sum rs))
    /\ ar_sum r = sumZ (map ar_sum rs)
    /\ exists r0 rest, rs = r0 :: rest
       /\ ar_max r = fold_left Z.max (map ar_sum rest) (ar_sum r0)
       /\ ar_min r = fold_left Z.min (map ar_sum rest) (ar_sum r0).
Proof.
  eexists. split; [reflexivity|].
  eexists. split; [right; left; reflexivity|]. split; [reflexivity|].
  eapply (aggr_others_row topk_example (aggr_first_pass topk_example) 1 1 None).
  - unfold aggr_first_pass. apply Permutation_map, Permutation_sym, SumDescSort.Permuted_sort.
  - vm_compute. reflexivity.
  - reflexivity.
  - right; left; reflexivity.
  - reflexivity.
Defined.

(** ** C9: the rows kept by name *)

(** C9.  Whenever the rows are collapsed, every output row not named
    "others" is a single first-pass group re-aggregated over its one [sum]
    value: its max, min and mean equal its sum and its std is 0 (NaN filled
    with 0). *)
Theorem aggr_kept_rows_lose_stats (ev : list (string * Z)) (g : list agg_row) (nk : Z)
    (ratio : Q) (allow : option (list string)) (out : list agg_row) (r : agg_row) :
  Permutation g (map fillna_std (groupby_agg ev)) ->
  nk < Z.of_nat (List.length g) ->
  aggr_collapse nk ratio allow g = Ok out ->
  In r out -> ar_name r <> others ->
  ar_max r = ar_sum r /\ ar_min r = ar_sum r /\ (ar_mean r == inject_Z (ar_sum r))%Q
  /\ ar_std r = StdSqrt 0
  /\ exists r0, In r0 (groupby_agg ev) /\ ar_name r0 = ar_name r /\ ar_sum r0 = ar_sum r.
Proof.
  intros Hp Hlen H Hr Hname.
  destruct (aggr_collapse_rows nk ratio allow g out (first_pass_names_NoDup ev g Hp) Hlen H r Hr)
    as [rs [Hne [Hin [Hnd Heq]]]].
  destruct rs as [|r0 [|r1 rest]]; [contradiction| |].
  - destruct (Hin r0 (or_introl eq_refl)) as [Hr0 [Hn0|Hn0]]; [|contradiction].
    unfold fillna_std, agg_of in Heq. simpl in Heq.
    apply (Permutation_in _ Hp), in_map_iff in Hr0 as [r0' [Hf Hr0']].
    rewrite Heq; simpl. split; [lia|]. split; [lia|].
    split; [unfold Qeq; simpl; lia|]. split; [reflexivity|].
    exists r0'. rewrite <- Hn0, <- Hf, fillna_name, fillna_sum.
    split; [exact Hr0'|split; [reflexivity|lia]].
  - exfalso. destruct (Hin r0 (or_introl eq_refl)) as [_ [Hn0|Hn0]]; [|contradiction].
    destruct (Hin r1 (or_intror (or_introl eq_refl))) as [_ [Hn1|Hn1]]; [|contradiction].
    simpl in Hnd. inversion Hnd as [|? ? Hnot]; subst. apply Hnot. left. congruence.
Qed.

Lemma aggr_kept_rows_lose_stats_witness :
  exists out, _aggr_gpu_kernel_time topk_example 1 1 None = Ok out
  /\ exists r, In r out /\ ar_name r <> others
  /\ ar_max r = ar_sum r /\ ar_min r = ar_sum r /\ (ar_mean r == inject_Z (ar_sum r))%Q
  /\ ar_std r = StdSqrt 0
  /\ exists r0, In r0 (groupby_agg topk_example) /\ ar_name r0 = ar_name r /\ ar_sum r0 = ar_sum r.
Proof.
  eexists. split; [reflexivity|].
  eexists. split; [left; reflexivity|]. split; [discriminate|].
  eapply (aggr_kept_rows_lose_stats topk_example (aggr_first_pass topk_example) 1 1 None).
  - unfold aggr_first_pass. apply Permutation_map, Permutation_sym, SumDescSort.Permuted_sort.
  - vm_compute. reflexivity.
  - reflexivity.
  - left; reflexivity.
  - discriminate.
Defined.

(** ** C4: the quantile rule and the [num_kernels] cap *)

Lemma aggr_first_pass_length (ev : list (string * Z)) :
  List.length (aggr_first_pass ev) = List.length (groupby_agg ev).
Proof.
  unfold aggr_first_pass. rewrite length_map.
  apply Permutation_length, Permutation_sym, SumDescSort.Permuted_sort.
Qed.

(** C4 (counterexample).  Three names and [num_kernels = 3]: with the lowest
    ratio 0 the quantile is 30 and the cumulative sums 50 and 60 of B and C
    exceed it, yet nothing is renamed. *)
Lemma aggr_quantile_gated_by_cap :
  (exists rows, _aggr_gpu_kernel_time topk_gate_example 3 0 None = Ok rows
     /\ map ar_name rows = ["A"; "B"; "C"]%string)
  /\ cumsum_from 0 (map ar_sum (aggr_first_pass topk_gate_example)) = [30; 50; 60]
  /\ exists q, quantile 0 [30; 50; 60] = Ok q /\ (q < inject_Z 50)%Q.
Proof.
  split; [eexists; split; reflexivity|]. split; [reflexivity|].
  eexists. split; [reflexivity|]. reflexivity.
Qed.

(** C4 (amended).  The rows are renamed only when there are more distinct
    names than [num_kernels]: otherwise the result is the first pass,
    whatever [duration_ratio] and [allowlist_names] are.  (Once there are
    more, the quantile rule can rename a row of index below [num_kernels],
    see [aggr_quantile_below_cap].) *)
Theorem aggr_no_collapse_within_cap (ev : list (string * Z)) (nk : Z) (ratio : Q)
    (allow : option (list string)) :
  Z.of_nat (List.length (groupby_agg ev)) <= nk ->
  _aggr_gpu_kernel_time ev nk ratio allow = Ok (aggr_first_pass ev).
Proof.
  intros H. unfold _aggr_gpu_kernel_time, aggr_collapse.
  rewrite aggr_first_pass_length.
  destruct (Z.ltb_spec nk (Z.of_nat (List.length (groupby_agg ev)))); [lia|reflexivity].
Qed.

Lemma aggr_no_collapse_within_cap_witness :
  Z.of_nat (List.length (groupby_agg topk_gate_example)) <= 3
  /\ _aggr_gpu_kernel_time topk_gate_example 3 0 None = Ok (aggr_first_pass topk_gate_example).
Proof.
  split; [vm_compute; discriminate|].
  apply aggr_no_collapse_within_cap. vm_compute. discriminate.
Defined.

(** With [num_kernels = 2] the same three names are collapsed, and B, of
    index 1, is renamed by the quantile rule alone. *)
Lemma aggr_quantile_below_cap :
  exists rows, _aggr_gpu_kernel_time topk_gate_example 2 0 None = Ok rows
    /\ map ar_name rows = ["A"; "others"]%string.
Proof. eexists. split; reflexivity. Qed.

(** ** Idle time *)

Lemma with_prev_end_pairs (r : list gpu_kernel) : forall p,
  with_prev_end (Some (end_ts p)) r
  = map (fun pk => (snd pk, Some (end_ts (fst pk)))) (combine (p :: r) r).
Proof.
  induction r as [|k r IH]; intros p; [reflexivity|].
  cbn [with_prev_end]. rewrite IH. reflexivity.
Qed.

Lemma sum_skipna_cons (o : option Z) (l : list (option Z)) :
  sum_skipna (o :: l) = match o with Some z => z | None => 0 end + sum_skipna l.
Proof. reflexivity. Qed.

Lemma sum_skipna_pairs (delay : Z) (c : idle_category) (pks : list (gpu_kernel * gpu_kernel)) :
  sum_skipna (map idle_interval
    (filter (fun r => idle_category_eqb (idle_category_of delay r) c)
       (map (fun pk => (snd pk, Some (end_ts (fst pk)))) pks)))
  = sumZ (map pair_gap (filter (fun pk => idle_category_eqb (pair_category delay pk) c) pks)).
Proof.
  induction pks as [|pk pks IH]; [reflexivity|].
  cbn [map filter].
  change (pair_category delay pk) with (idle_category_of delay (snd pk, Some (end_ts (fst pk)))).
  destruct (idle_category_eqb (idle_category_of delay (snd pk, Some (end_ts (fst pk)))) c);
    [|exact IH].
  cbn [map]. rewrite sum_skipna_cons, IH. reflexivity.
Qed.

(** The first kernel of a stream has a NaN gap and falls in OTHER. *)
Lemma first_row_other (delay : Z) (k : gpu_kernel) :
  idle_category_of delay (k, None) = OTHER /\ idle_interval (k, None) = None.
Proof.
  unfold idle_category_of, is_host_wait. simpl. destruct (gk_ts_runtime k); split; reflexivity.
Qed.

Lemma analyze_sorted_In (stream delay : Z) (ks : list gpu_kernel) (r : idle_row) :
  In r (analyze_sorted stream delay ks) ->
  ir_idle_time r = sum_skipna (map idle_interval
    (filter (fun row => idle_category_eqb (idle_category_of delay row) (ir_category r))
       (with_prev_end None ks))).
Proof.
  unfold analyze_sorted. intros H.
  apply in_map_iff in H as [[c s] [<- H]]. apply in_map_iff in H as [c' [Hc _]].
  injection Hc as <- <-. reflexivity.
Qed.

(** ** C5: gaps that touch or overlap *)

(** C5 (counterexample).  Two kernels [0, 100) and [50, 150) of one stream
    with [consecutive_kernel_delay = 10]: their gap is -50, and the
    KERNEL_WAIT total is -50, not 0. *)
Lemma idle_overlap_counted :
  map pair_gap (combine overlap_stream (tl overlap_stream)) = [-50]
  /\ map ir_category (_analyze_idle_time_for_stream 7 overlap_stream 10) = [KERNEL_WAIT; OTHER]
  /\ map ir_idle_time (_analyze_idle_time_for_stream 7 overlap_stream 10) = [-50; 0].
Proof. repeat split. Qed.

(** C5 (amended).  Non-positive gaps are not skipped: each category's
    [idle_time] is the sum of the gaps [ts - prev_end] of ALL consecutive
    pairs of the stream's kernels classified into it, negative gaps
    included (a gap of 0 adds 0).  [ks] is the stream's kernels in any order
    [sort_values] may give to ties. *)
Theorem idle_category_total_gaps (stream delay : Z) (ks : list gpu_kernel) (r : idle_row) :
  In r (analyze_sorted stream delay ks) ->
  ir_idle_time r
  = sumZ (map pair_gap
      (filter (fun pk => idle_category_eqb (pair_category delay pk) (ir_category r))
         (combine ks (tl ks)))).
Proof.
  intros H. rewrite (analyze_sorted_In stream delay ks r H).
  destruct ks as [|k0 ks]; [reflexivity|].
  cbn [with_prev_end tl]. rewrite with_prev_end_pairs.
  destruct (first_row_other delay k0) as [Hc Hi].
  cbn [filter]. rewrite Hc.
  rewrite <- sum_skipna_pairs.
  destruct (idle_category_eqb OTHER (ir_category r)); [|reflexivity].
  cbn [map]. rewrite sum_skipna_cons, Hi. reflexivity.
Qed.

Lemma idle_category_total_gaps_witness :
  exists r, In r (analyze_sorted 7 10 overlap_stream)
  /\ ir_idle_time r
     = sumZ (map pair_gap
         (filter (fun pk => idle_category_eqb (pair_category 10 pk) (ir_category r))
            (combine overlap_stream (tl overlap_stream)))).
Proof.
  eexists. split; [left; reflexivity|].
  apply (idle_category_total_gaps 7 10 overlap_stream). left; reflexivity.
Defined.

(** ** C10: ratios of a stream with no net idle time *)

Lemma idle_rows_total (stream : Z) (l : list (idle_category * Z)) :
  map ir_idle_time
    (map (fun p => mk_idle_row (fst p) (snd p) stream (fl_div (snd p) (sumZ (map snd l)))) l)
  = map snd l.
Proof. rewrite map_map. reflexivity. Qed.

(** A stream with one kernel has one OTHER row of idle time 0 and ratio NaN. *)
Lemma analyze_single_kernel (stream delay : Z) (k : gpu_kernel) :
  analyze_sorted stream delay [k] = [mk_idle_row OTHER 0 stream NaN].
Proof. destruct k as [ts dur st [rt|]]; reflexivity. Qed.

(** C10 (counterexample).  A host wait of +50 and an overlap of -50 on one
    stream: the total is 0, and the ratios are +inf and -inf (NaN only for
    OTHER, whose sum is 0). *)
Lemma idle_ratio_infinite :
  map ir_idle_time (_analyze_idle_time_for_stream 7 cancelling_stream 10) = [50; -50; 0]
  /\ map ir_ratio (_analyze_idle_time_for_stream 7 cancelling_stream 10)
     = [Inf true; Inf false; NaN].
Proof. split; reflexivity. Qed.

(** C10 (amended).  When a stream's total idle time is 0 (for instance a
    stream with one kernel, see [analyze_single_kernel], or positive and
    negative gaps that cancel), every ratio is a division by 0: NaN for a
    category whose own total is 0, +inf or -inf (by its sign) otherwise. *)
Theorem idle_ratio_zero_total (stream delay : Z) (ks : list gpu_kernel) (r : idle_row) :
  sumZ (map ir_idle_time (analyze_sorted stream delay ks)) = 0 ->
  In r (analyze_sorted stream delay ks) ->
  ir_ratio r = if ir_idle_time r =? 0 then NaN else Inf (0 <? ir_idle_time r).
Proof.
  intros Htot H. unfold analyze_sorted in *. cbv zeta in *.
  rewrite idle_rows_total in Htot.
  apply in_map_iff in H as [p [<- _]]. cbn [ir_ratio ir_idle_time].
  rewrite Htot. reflexivity.
Qed.

Lemma idle_ratio_zero_total_witness :
  sumZ (map ir_idle_time (analyze_sorted 7 10 cancelling_stream)) = 0
  /\ exists r, In r (analyze_sorted 7 10 cancelling_stream)
     /\ ir_ratio r = if ir_idle_time r =? 0 then NaN else Inf (0 <? ir_idle_time r).
Proof.
  split; [reflexivity|].
  eexists. split; [left; reflexivity|].
  apply (idle_ratio_zero_total 7 10 cancelling_stream); [reflexivity|left; reflexivity].
Defined.

(** ** User annotations *)

Lemma fold_map_comm {A B : Type} (g : B -> A -> A) (l : list B) :
  forall ks, fold_left (fun ks b => map (g b) ks) l ks
             = map (fun k => fold_left (fun k b => g b k) l k) ks.
Proof.
  induction l as [|b l IH]; intros ks; simpl.
  - symmetry. apply map_id.
  - rewrite IH, map_map. reflexivity.
Qed.

(** Each kernel row is updated on its own: the frame after the association
    is the map of a per-row function. *)
Lemma associate_rows_from (annos : list annotation) (pts : list (Z * Z)) :
  forall (L : list log_entry) (ks : list kernel_row),
  snd (fold_left
    (fun st p =>
       let filt := filter (same_pid_tid p) annos in
       (fst st ++ [InfoPidTid (fst p) (snd p) (List.length filt)],
        fold_left (fun ks a => map (assign_annotation (fst p) (snd p) a) ks) filt (snd st)))
    pts (L, ks))
  = map (fun k => fold_left
           (fun k p => fold_left (fun k a => assign_annotation (fst p) (snd p) a k)
                         (filter (same_pid_tid p) annos) k) pts k) ks.
Proof.
  induction pts as [|p pts IH]; intros L ks; cbn [fold_left].
  - symmetry. apply map_id.
  - rewrite IH. cbn [fst snd]. rewrite fold_map_comm, map_map. reflexivity.
Qed.

Lemma associate_rows (ks : list kernel_row) (annos : list annotation) :
  snd (_associate_gpu_kernels_with_user_annotations ks annos)
  = map (fun k => fold_left
           (fun k p => fold_left (fun k a => assign_annotation (fst p) (snd p) a k)
                         (filter (same_pid_tid p) annos) k)
           (drop_duplicates_from [] (map (fun a => (an_pid a, an_tid a)) annos)) k) ks.
Proof. apply associate_rows_from. Qed.

Lemma pid_tid_eqb_spec (x y : Z * Z) : pid_tid_eqb x y = true <-> x = y.
Proof.
  destruct x as [a b], y as [c d]. unfold pid_tid_eqb. simpl.
  rewrite andb_true_iff, !Z.eqb_eq. split; [intros [-> ->]; reflexivity|].
  intros H; injection H as -> ->. split; reflexivity.
Qed.

Lemma drop_duplicates_In (x : Z * Z) (l : list (Z * Z)) : forall seen,
  In x l -> In x (drop_duplicates_from seen l) \/ In x seen.
Proof.
  induction l as [|y l IH]; intros seen H; [destruct H|].
  simpl. destruct (existsb (pid_tid_eqb y) seen) eqn:Hs.
  - destruct H as [<-|H]; [|apply IH, H].
    right. apply existsb_exists in Hs as [z [Hz Hyz]].
    apply pid_tid_eqb_spec in Hyz. subst. exact Hz.
  - destruct H as [<-|H]; [left; left; reflexivity|].
    destruct (IH (y :: seen) H) as [H'|[<-|H']].
    + left; right; exact H'.
    + left; left; reflexivity.
    + right; exact H'.
Qed.

Lemma with_annotation_twice (k : kernel_row) (n m : Z) :
  with_annotation (with_annotation k n) m = with_annotation k m.
Proof. reflexivity. Qed.

(** Over annotations of the kernel's own (pid, tid), the per-row updates
    leave the name of the last overlapping annotation. *)
Lemma assign_fold_last (k : kernel_row) (l : list annotation) :
  fold_left (fun k' a => assign_annotation (ev_pid (kr_ev k)) (ev_tid (kr_ev k)) a k') l k
  = match last_overlap k l with
    | Some a => with_annotation k (an_name a)
    | None => k
    end.
Proof.
  unfold last_overlap. induction l as [|x l IH] using rev_ind; [reflexivity|].
  rewrite !fold_left_app. simpl. rewrite IH.
  destruct (fold_left (fun acc a => if overlaps_left k a then Some a else acc) l None) as [a|];
    unfold assign_annotation; cbn [with_annotation kr_ev]; rewrite !Z.eqb_refl; cbn [andb];
    change (overlaps_left (with_annotation k (an_name a)) x) with (overlaps_left k x) || idtac;
    destruct (overlaps_left _ x); reflexivity.
Qed.

Lemma assign_other (p : Z * Z) (k : kernel_row) (l : list annotation) :
  (ev_pid (kr_ev k), ev_tid (kr_ev k)) <> p ->
  fold_left (fun k' a => assign_annotation (fst p) (snd p) a k') l k = k.
Proof.
  intros Hp. induction l as [|a l IH]; [reflexivity|]. simpl.
  unfold assign_annotation at 2.
  destruct (Z.eqb_spec (ev_pid (kr_ev k)) (fst p)), (Z.eqb_spec (ev_tid (kr_ev k)) (snd p));
    simpl; try exact IH.
  exfalso. apply Hp. destruct p; simpl in *; congruence.
Qed.

Lemma assign_fold_with (k : kernel_row) (u : Z) (l : list annotation) :
  fold_left (fun k' a => assign_annotation (ev_pid (kr_ev k)) (ev_tid (kr_ev k)) a k') l
    (with_annotation k u)
  = with_annotation k (match last_overlap k l with Some a => an_name a | None => u end).
Proof.
  etransitivity; [exact (assign_fold_last (with_annotation k u) l)|].
  change (last_overlap (with_annotation k u) l) with (last_overlap k l).
  destruct (last_overlap k l); reflexivity.
Qed.

(** Over the (pid, tid) pairs, only the kernel's own pair changes its row. *)
Lemma assign_pairs (annos : list annotation) (k : kernel_row) (pts : list (Z * Z)) :
  forall u,
  fold_left (fun k' p => fold_left (fun k' a => assign_annotation (fst p) (snd p) a k')
                           (filter (same_pid_tid p) annos) k') pts (with_annotation k u)
  = with_annotation k
      (if existsb (pid_tid_eqb (ev_pid (kr_ev k), ev_tid (kr_ev k))) pts
       then match last_overlap k (filter (same_pid_tid (ev_pid (kr_ev k), ev_tid (kr_ev k))) annos) with
            | Some a => an_name a
            | None => u
            end
       else u).
Proof.
  induction pts as [|p pts IH]; intros u; [reflexivity|].
  cbn [fold_left existsb].
  destruct (pid_tid_eqb (ev_pid (kr_ev k), ev_tid (kr_ev k)) p) eqn:Hp.
  - apply pid_tid_eqb_spec in Hp. subst p. cbn [fst snd orb].
    rewrite assign_fold_with, IH.
    destruct (last_overlap k _); destruct (existsb _ pts); reflexivity.
  - rewrite assign_other; [apply IH|].
    intros E. cbn [with_annotation kr_ev] in E. rewrite <- E in Hp.
    unfold pid_tid_eqb in Hp. cbn [fst snd] in Hp. rewrite !Z.eqb_refl in Hp. discriminate.
Qed.

Lemma StronglySorted_snoc {A : Type} (R : A -> A -> Prop) (l : list A) (x : A) :
  StronglySorted R (l ++ [x]) -> StronglySorted R l /\ forall b, In b l -> R b x.
Proof.
  induction l as [|y l IH]; intros H; [split; [constructor|intros b []]|].
  simpl in H. apply StronglySorted_inv in H as [H Hf]. destruct (IH H) as [H1 H2].
  rewrite Forall_app in Hf. destruct Hf as [Hf1 Hf2]. split.
  - constructor; assumption.
  - intros b [<-|Hb]; [inversion Hf2; assumption|apply H2, Hb].
Qed.

Lemma StronglySorted_filter {A : Type} (R : A -> A -> Prop) (f : A -> bool) (l : list A) :
  StronglySorted R l -> StronglySorted R (filter f l).
Proof.
  induction l as [|y l IH]; intros H; [constructor|].
  apply StronglySorted_inv in H as [H Hf]. simpl. destruct (f y); [|apply IH, H].
  constructor; [apply IH, H|]. apply Forall_forall. intros b Hb.
  apply filter_In in Hb as [Hb _]. rewrite Forall_forall in Hf. apply Hf, Hb.
Qed.

(** In a list in duration-descending order, the last annotation overlapping
    a kernel has the smallest duration among those overlapping it. *)
Lemma last_overlap_min (k : kernel_row) (l : list annotation) :
  StronglySorted (fun x y => an_dur y <= an_dur x) l ->
  match last_overlap k l with
  | Some a => In a l /\ overlaps_left k a = true
              /\ forall b, In b l -> overlaps_left k b = true -> an_dur a <= an_dur b
  | None => forall b, In b l -> overlaps_left k b = false
  end.
Proof.
  unfold last_overlap. induction l as [|x l IH] using rev_ind; [intros _ b []|].
  intros H. apply StronglySorted_snoc in H as [Hl Hx]. specialize (IH Hl).
  rewrite fold_left_app. cbn [fold_left].
  destruct (overlaps_left k x) eqn:Ho.
  - split; [apply in_or_app; right; left; reflexivity|]. split; [exact Ho|].
    intros b Hb _. apply in_app_or in Hb as [Hb|[<-|[]]]; [apply Hx, Hb|lia].
  - destruct (fold_left _ l None) as [a|].
    + destruct IH as [Ha [Hao Hmin]]. split; [apply in_or_app; left; exact Ha|].
      split; [exact Hao|]. intros b Hb Hbo.
      apply in_app_or in Hb as [Hb|[<-|[]]]; [apply Hmin; assumption|congruence].
    + intros b Hb. apply in_app_or in Hb as [Hb|[<-|[]]]; [apply IH, Hb|exact Ho].
Qed.

Lemma Sorted_weaken {A : Type} (R S : A -> A -> Prop) (l : list A) :
  (forall x y, R x y -> S x y) -> Sorted R l -> Sorted S l.
Proof.
  intros HRS H. induction H as [|x l Hl IH Hd]; constructor; [exact IH|].
  destruct Hd; constructor. apply HRS. assumption.
Qed.

(** The annotation frame is in duration-descending order. *)
Lemma anno_frame_sorted (st : symbol_table) (trace_df : list event) (annos : list annotation) :
  _get_gpu_user_anno_interval_dataframe st trace_df = Some annos ->
  Sorted (fun x y => an_dur y <= an_dur x) annos.
Proof.
  unfold _get_gpu_user_anno_interval_dataframe. destruct (_ =? -1); [discriminate|].
  intros H. injection H as <-.
  eapply Sorted_weaken; [|apply AnnDurDescSort.Sorted_sort].
  intros x y Hxy. unfold AnnDurDescOrder.leb in Hxy. apply Z.leb_le, Hxy.
Qed.

(** ** C7: the innermost annotation *)

(** C7.  When the annotations are processed in duration-descending order
    (the order of [_get_gpu_user_anno_interval_dataframe], see
    [anno_frame_sorted]; any order of ties), a kernel that overlaps at least
    one annotation of its own (pid, tid) ends with the name of an
    overlapping annotation of its (pid, tid) of smallest duration; the other
    columns of its row are unchanged. *)
Theorem annotation_innermost (ks : list kernel_row) (annos : list annotation) (i : nat)
    (k : kernel_row) (b0 : annotation) :
  Sorted (fun x y => an_dur y <= an_dur x) annos ->
  nth_error ks i = Some k ->
  In b0 annos -> an_pid b0 = ev_pid (kr_ev k) -> an_tid b0 = ev_tid (kr_ev k) ->
  overlaps_left k b0 = true ->
  exists a,
    nth_error (snd (_associate_gpu_kernels_with_user_annotations ks annos)) i
      = Some (with_annotation k (an_name a))
    /\ In a annos /\ an_pid a = ev_pid (kr_ev k) /\ an_tid a = ev_tid (kr_ev k)
    /\ overlaps_left k a = true
    /\ forall b, In b annos -> an_pid b = ev_pid (kr_ev k) -> an_tid b = ev_tid (kr_ev k) ->
         overlaps_left k b = true -> an_dur a <= an_dur b.
Proof.
  intros Hs Hk Hb0 Hp Ht Ho.
  set (kP := (ev_pid (kr_ev k), ev_tid (kr_ev k))).
  assert (Hsame : forall b, In b annos -> an_pid b = ev_pid (kr_ev k) ->
                    an_tid b = ev_tid (kr_ev k) -> In b (filter (same_pid_tid kP) annos)).
  { intros b Hb Hpb Htb. apply filter_In. split; [exact Hb|].
    unfold same_pid_tid, kP. cbn [fst snd]. rewrite Hpb, Htb, !Z.eqb_refl. reflexivity. }
  assert (Hss : StronglySorted (fun x y => an_dur y <= an_dur x) (filter (same_pid_tid kP) annos)).
  { apply StronglySorted_filter, Sorted_StronglySorted; [intros x y z; lia|exact Hs]. }
  pose proof (last_overlap_min k _ Hss) as Hmin.
  assert (Hin : existsb (pid_tid_eqb kP)
                  (drop_duplicates_from [] (map (fun a => (an_pid a, an_tid a)) annos)) = true).
  { apply existsb_exists. exists kP. split; [|apply pid_tid_eqb_spec; reflexivity].
    destruct (drop_duplicates_In kP (map (fun a => (an_pid a, an_tid a)) annos) []) as [H|[]];
      [|exact H].
    apply in_map_iff. exists b0. split; [unfold kP; rewrite Hp, Ht; reflexivity|exact Hb0]. }
  destruct (last_overlap k (filter (same_pid_tid kP) annos)) as [a|] eqn:Ha.
  2: { rewrite (Hmin b0 (Hsame b0 Hb0 Hp Ht)) in Ho. discriminate. }
  destruct Hmin as [Haf [Hao Hamin]]. apply filter_In in Haf as [Ha_in Hsa].
  unfold same_pid_tid, kP in Hsa. cbn [fst snd] in Hsa.
  apply andb_true_iff in Hsa as [Hpa Hta]. apply Z.eqb_eq in Hpa, Hta.
  exists a. split.
  - rewrite associate_rows, nth_error_map, Hk. cbn [option_map]. f_equal.
    assert (Ek : k = with_annotation k (kr_user_annotation k)) by (destruct k; reflexivity).
    rewrite Ek at 1. rewrite assign_pairs. fold kP. rewrite Hin, Ha. reflexivity.
  - split; [exact Ha_in|]. split; [exact Hpa|]. split; [exact Hta|]. split; [exact Hao|].
    intros b Hb Hpb Htb Hob. apply Hamin; [apply Hsame; assumption|exact Hob].
Qed.

Lemma annotation_innermost_witness :
  snd (_associate_gpu_kernels_with_user_annotations [kernel_K] [anno_A; anno_B])
    = [with_annotation kernel_K (an_name anno_B)]
  /\ exists a,
    nth_error (snd (_associate_gpu_kernels_with_user_annotations [kernel_K] [anno_A; anno_B])) 0
      = Some (with_annotation kernel_K (an_name a))
    /\ In a [anno_A; anno_B] /\ an_pid a = ev_pid (kr_ev kernel_K)
    /\ an_tid a = ev_tid (kr_ev kernel_K)
    /\ overlaps_left kernel_K a = true
    /\ forall b, In b [anno_A; anno_B] -> an_pid b = ev_pid (kr_ev kernel_K) ->
         an_tid b = ev_tid (kr_ev kernel_K) ->
         overlaps_left kernel_K b = true -> an_dur a <= an_dur b.
Proof.
  split; [reflexivity|].
  apply (annotation_innermost [kernel_K] [anno_A; anno_B] 0 kernel_K anno_A).
  - repeat constructor; cbn; lia.
  - reflexivity.
  - left; reflexivity.
  - reflexivity.
  - reflexivity.
  - reflexivity.
Defined.

(** ** C8: a missing annotation category *)

(** C8.  If the annotation symbol is missing from the symbol table, both
    analyses log a warning and return [None] without raising (for
    [get_gpu_kernels_with_user_annotations], once [get_trace] has returned
    the rank's trace); if the GPU annotation symbol is present, that
    analysis returns a frame, even when no annotation overlaps a kernel. *)
Theorem annotation_category_absent (is_gpu_kernel : event -> bool) (st : symbol_table)
    (get_trace : Z -> result (list event)) (rank : Z) (traces : list (Z * list event))
    (use_gpu_annotation : bool) (duration_ratio : Q) (num_kernels : Z)
    (allowlist_patterns : option (list string)) :
  (dict_get (sym_index st) "gpu_user_annotation" = None ->
   get_gpu_kernels_with_user_annotations is_gpu_kernel st get_trace rank
   = match get_trace rank with
     | Ok _ => Ok ([WarnNoGpuUserAnnotations rank], None)
     | Err e => Err e
     end)
  /\ (forall id trace_df, dict_get (sym_index st) "gpu_user_annotation" = Some id -> id <> -1 ->
      get_trace rank = Ok trace_df ->
      exists log kernels,
        get_gpu_kernels_with_user_annotations is_gpu_kernel st get_trace rank
        = Ok (log, Some kernels))
  /\ (let annotation := if use_gpu_annotation then "gpu_user_annotation"%string
                        else "user_annotation"%string in
      dict_get (sym_index st) annotation = None ->
      get_gpu_user_annotation_breakdown st traces use_gpu_annotation duration_ratio num_kernels
        allowlist_patterns
      = Ok ([WarnNoAnnotation annotation], None)).
Proof.
  split; [|split].
  - intros H. unfold get_gpu_kernels_with_user_annotations.
    destruct (get_trace rank) as [trace_df|e]; [|reflexivity]. cbn [bind].
    unfold _get_gpu_user_anno_interval_dataframe. rewrite H. reflexivity.
  - intros id trace_df H Hid Ht. unfold get_gpu_kernels_with_user_annotations.
    rewrite Ht. cbn [bind]. unfold _get_gpu_user_anno_interval_dataframe. rewrite H.
    destruct (Z.eqb_spec id (-1)) as [|_]; [contradiction|]. eauto.
  - cbv zeta. intros H. unfold get_gpu_user_annotation_breakdown. rewrite H. reflexivity.
Qed.

(** * Further properties of the code *)

(** ** TopK aggregation: totals, names and the cap *)

Lemma agg_of_sum (k : string) (xs : list Z) : ar_sum (agg_of k xs) = sumZ xs.
Proof. destruct xs; reflexivity. Qed.

Lemma groupby_agg_total (rows : list (string * Z)) :
  sumZ (map ar_sum (groupby_agg rows)) = sumZ (map snd rows).
Proof.
  unfold groupby_agg. rewrite map_map.
  rewrite (sumZ_map_ext _ (fun k => sumZ (map snd (filter (fun r => String.eqb (fst r) k) rows))))
    by (intros k _; rewrite agg_of_sum; reflexivity).
  apply groupby_total_gen; [apply group_keys_NoDup|].
  intros r Hr. apply group_keys_In. apply in_map. exact Hr.
Qed.

Lemma fillna_sums (l : list agg_row) : map ar_sum (map fillna_std l) = map ar_sum l.
Proof. rewrite map_map. apply map_ext. apply fillna_sum. Qed.

Lemma fillna_names (l : list agg_row) : map ar_name (map fillna_std l) = map ar_name l.
Proof. rewrite map_map. apply map_ext. apply fillna_name. Qed.

Lemma first_pass_perm (ev : list (string * Z)) :
  Permutation (aggr_first_pass ev) (map fillna_std (groupby_agg ev)).
Proof.
  unfold aggr_first_pass. apply Permutation_map.
  symmetry. apply SumDescSort.Permuted_sort.
Qed.

Lemma first_pass_total (ev : list (string * Z)) :
  sumZ (map ar_sum (aggr_first_pass ev)) = sumZ (map snd ev).
Proof.
  rewrite (sumZ_perm _ (map ar_sum (map fillna_std (groupby_agg ev))))
    by (apply Permutation_map, first_pass_perm).
  rewrite fillna_sums. apply groupby_agg_total.
Qed.

Lemma rename_indexed_sums (f : Z -> agg_row -> Z -> string) (rc : list (agg_row * Z)) :
  forall i, map snd (rename_indexed f i rc) = map (fun p => ar_sum (fst p)) rc.
Proof.
  induction rc as [|[r c] rest IH]; intros i; simpl; [reflexivity|].
  rewrite IH. reflexivity.
Qed.

Lemma quantile_ok (p : Q) (xs : list Z) :
  (0 <= p <= 1)%Q -> exists q, quantile p xs = Ok q.
Proof.
  intros [H0 H1]. unfold quantile.
  apply Qle_bool_iff in H0. apply Qle_bool_iff in H1. rewrite H0, H1. simpl. eauto.
Qed.

Lemma quantile_err (p : Q) (xs : list Z) (e : py_error) :
  quantile p xs = Err e -> e = ValueError /\ ~ (0 <= p <= 1)%Q.
Proof.
  unfold quantile. intros H.
  destruct (Qle_bool 0 p) eqn:H0, (Qle_bool p 1) eqn:H1; simpl in H; try discriminate;
    injection H as <-; split; try reflexivity; intros [A B];
    apply Qle_bool_iff in A; apply Qle_bool_iff in B; congruence.
Qed.

(** [_aggr_gpu_kernel_time] either fails, with [ValueError], exactly when it
    has to collapse rows and [duration_ratio] is not in [0, 1], or returns
    rows whose [sum] column adds up to the total duration of its input. *)
Theorem aggr_total_preserved (ev : list (string * Z)) (nk : Z) (ratio : Q)
    (allow : option (list string)) :
  match _aggr_gpu_kernel_time ev nk ratio allow with
  | Ok out => sumZ (map ar_sum out) = sumZ (map snd ev)
  | Err e => e = ValueError
             /\ nk < Z.of_nat (List.length (groupby_agg ev)) /\ ~ (0 <= ratio <= 1)%Q
  end
  /\ ((0 <= ratio <= 1)%Q \/ Z.of_nat (List.length (groupby_agg ev)) <= nk ->
      exists out, _aggr_gpu_kernel_time ev nk ratio allow = Ok out).
Proof.
  unfold _aggr_gpu_kernel_time, aggr_collapse. rewrite aggr_first_pass_length.
  destruct (Z.ltb_spec nk (Z.of_nat (List.length (groupby_agg ev)))) as [Hlt|Hge].
  - set (cs := cumsum_from 0 (map ar_sum (aggr_first_pass ev))).
    destruct (quantile ratio cs) as [q|e] eqn:Hq; cbn [bind].
    + split; [|eauto].
      rewrite fillna_sums, groupby_agg_total, rename_indexed_sums.
      rewrite <- (map_map fst ar_sum), map_fst_combine; [apply first_pass_total|].
      unfold cs. rewrite cumsum_length, length_map. lia.
    + destruct (quantile_err _ _ _ Hq) as [-> Hr]. split; [tauto|].
      intros [Hr'|Hle]; [contradiction|lia].
  - split; [apply first_pass_total|eauto].
Qed.

Lemma rename_indexed_names (f : Z -> agg_row -> Z -> string) (rc : list (agg_row * Z)) (n : string) :
  forall i, In n (map fst (rename_indexed f i rc)) ->
  exists j r c, In r (map fst rc) /\ n = f j r c.
Proof.
  induction rc as [|[r c] rest IH]; intros i H; simpl in H; [contradiction|].
  destruct H as [H|H].
  - exists i, r, c. split; [left; reflexivity|symmetry; exact H].
  - destruct (IH (i + 1) H) as [j [r' [c' [Hin ->]]]].
    exists j, r', c'. split; [right; exact Hin|reflexivity].
Qed.

Lemma first_pass_name_In (ev : list (string * Z)) (r : agg_row) :
  In r (aggr_first_pass ev) -> In (ar_name r) (map fst ev).
Proof.
  intros H. apply (Permutation_in _ (first_pass_perm ev)) in H.
  apply (in_map ar_name) in H. rewrite fillna_names, groupby_agg_names in H.
  apply group_keys_In. exact H.
Qed.

(** The rows of [_aggr_gpu_kernel_time] have distinct names, each the name
    of an input row or ["others"]. *)
Theorem aggr_names_distinct (ev : list (string * Z)) (nk : Z) (ratio : Q)
    (allow : option (list string)) (out : list agg_row) :
  _aggr_gpu_kernel_time ev nk ratio allow = Ok out ->
  NoDup (map ar_name out)
  /\ forall r, In r out -> ar_name r = others \/ In (ar_name r) (map fst ev).
Proof.
  unfold _aggr_gpu_kernel_time, aggr_collapse.
  destruct (nk <? Z.of_nat (List.length (aggr_first_pass ev))).
  - set (cs := cumsum_from 0 (map ar_sum (aggr_first_pass ev))).
    destruct (quantile ratio cs) as [q|e]; cbn [bind]; [|discriminate].
    intros H. injection H as <-.
    rewrite fillna_names, groupby_agg_names. split; [apply group_keys_NoDup|].
    intros r Hr. apply (in_map ar_name) in Hr.
    rewrite fillna_names, groupby_agg_names, group_keys_In in Hr.
    destruct (rename_indexed_names _ _ _ 0 Hr) as [j [r0 [c [Hin ->]]]].
    destruct (rename_one_cases nk q (keep_of allow) j r0 c) as [Hn|Hn]; rewrite Hn; [left; reflexivity|right].
    apply first_pass_name_In.
    rewrite map_fst_combine in Hin; [exact Hin|].
    unfold cs. rewrite cumsum_length, length_map. lia.
  - intros H. injection H as <-. split.
    + apply (first_pass_names_NoDup ev). apply first_pass_perm.
    + intros r Hr. right. apply first_pass_name_In. exact Hr.
Qed.

Lemma aggr_names_distinct_witness :
  _aggr_gpu_kernel_time topk_example 1 1 None
    = Ok [fillna_std (agg_of "A" [20]); fillna_std (agg_of others [10; 8])]
  /\ NoDup (map ar_name [fillna_std (agg_of "A" [20]); fillna_std (agg_of others [10; 8])]).
Proof.
  assert (H : _aggr_gpu_kernel_time topk_example 1 1 None
    = Ok [fillna_std (agg_of "A" [20]); fillna_std (agg_of others [10; 8])])
    by (vm_compute; reflexivity).
  split; [exact H|]. exact (proj1 (aggr_names_distinct _ _ _ _ _ H)).
Defined.

Lemma sumZ_nonneg (l : list Z) : (forall x, In x l -> 0 <= x) -> 0 <= sumZ l.
Proof.
  induction l as [|x l IH]; intros H; simpl; [lia|].
  specialize (H x (or_introl eq_refl)) as Hx. specialize (IH (fun y Hy => H y (or_intror Hy))). lia.
Qed.

Lemma first_pass_sum_nonneg (ev : list (string * Z)) (r : agg_row) :
  (forall p, In p ev -> 0 <= snd p) -> In r (aggr_first_pass ev) -> 0 <= ar_sum r.
Proof.
  intros Hev H. apply (Permutation_in _ (first_pass_perm ev)) in H.
  apply in_map_iff in H as [r0 [<- H]]. rewrite fillna_sum.
  apply groupby_agg_In in H as [k [_ ->]]. rewrite agg_of_sum.
  apply sumZ_nonneg. intros x Hx. apply group_values_In in Hx. exact (Hev _ Hx).
Qed.

Lemma rename_cap (nk : Z) (q : Q) (keep : agg_row -> bool) (n : string) (rc : list (agg_row * Z)) :
  (forall r, In r (map fst rc) -> keep r = false) ->
  forall i, In n (map fst (rename_indexed (rename_one nk q keep) i rc)) ->
  n = others \/ In n (map ar_name (firstn (Z.to_nat (nk - i)) (map fst rc))).
Proof.
  intros Hk. induction rc as [|[r c] rest IH]; intros i H; simpl in H; [contradiction|].
  assert (Hr : keep r = false) by (apply Hk; left; reflexivity).
  destruct H as [H|H].
  - subst n. unfold rename_one. rewrite Hr. cbn [negb andb].
    destruct (Z.leb_spec nk i); [left; reflexivity|].
    destruct (negb (Qle_bool (inject_Z c) q)); [left; reflexivity|right].
    replace (Z.to_nat (nk - i)) with (S (Z.to_nat (nk - (i + 1)))) by lia.
    left. reflexivity.
  - destruct (IH (fun r0 H0 => Hk r0 (or_intror H0)) (i + 1) H) as [Ho|Hin]; [left; exact Ho|right].
    destruct (Z.leb_spec (nk - i) 0).
    + replace (Z.to_nat (nk - (i + 1))) with 0%nat in Hin by lia. contradiction.
    + replace (Z.to_nat (nk - i)) with (S (Z.to_nat (nk - (i + 1)))) by lia.
      right. exact Hin.
Qed.

(** Without an allowlist and with non-negative durations, the result of
    [_aggr_gpu_kernel_time] has at most [num_kernels + 1] rows: the rows of
    index [num_kernels] and beyond all become ["others"]. *)
Theorem aggr_row_cap (ev : list (string * Z)) (nk : Z) (ratio : Q) (out : list agg_row) :
  (forall p, In p ev -> 0 <= snd p) -> 0 <= nk ->
  _aggr_gpu_kernel_time ev nk ratio None = Ok out ->
  Z.of_nat (List.length out) <= nk + 1.
Proof.
  intros Hev Hnk. unfold _aggr_gpu_kernel_time, aggr_collapse.
  destruct (Z.ltb_spec nk (Z.of_nat (List.length (aggr_first_pass ev)))) as [Hlt|Hge].
  - set (g := aggr_first_pass ev). set (cs := cumsum_from 0 (map ar_sum g)).
    destruct (quantile ratio cs) as [q|e]; cbn [bind]; [|discriminate].
    intros H. injection H as <-.
    set (renamed := rename_indexed (rename_one nk q (keep_of None)) 0 (combine g cs)).
    assert (Hfst : map fst (combine g cs) = g)
      by (apply map_fst_combine; unfold cs; rewrite cumsum_length, length_map; lia).
    assert (Hincl : incl (group_keys (map fst renamed)) (others :: map ar_name (firstn (Z.to_nat nk) g))).
    { intros n Hn. apply (proj1 (group_keys_In _ _)) in Hn.
      destruct (rename_cap nk q (keep_of None) n (combine g cs)) with (i := 0) as [Ho|Hin].
      - intros r Hr. rewrite Hfst in Hr. unfold keep_of.
        apply Z.ltb_ge. exact (first_pass_sum_nonneg ev r Hev Hr).
      - exact Hn.
      - left. symmetry. exact Ho.
      - right. rewrite Hfst, Z.sub_0_r in Hin. exact Hin. }
    pose proof (NoDup_incl_length (group_keys_NoDup _) Hincl) as Hl.
    rewrite length_map, <- (length_map ar_name), groupby_agg_names.
    cbn [List.length] in Hl. rewrite length_map, length_firstn in Hl. lia.
  - intros H. injection H as <-. lia.
Qed.

Lemma aggr_row_cap_witness :
  exists out, _aggr_gpu_kernel_time topk_example 1 1 None = Ok out
    /\ Z.of_nat (List.length out) <= 1 + 1.
Proof.
  exists [fillna_std (agg_of "A" [20]); fillna_std (agg_of others [10; 8])].
  assert (H : _aggr_gpu_kernel_time topk_example 1 1 None
    = Ok [fillna_std (agg_of "A" [20]); fillna_std (agg_of others [10; 8])])
    by (vm_compute; reflexivity).
  split; [exact H|].
  apply (aggr_row_cap topk_example 1 1); [|lia|exact H].
  intros p Hp. simpl in Hp. repeat destruct Hp as [<-|Hp]; simpl; try lia; contradiction.
Defined.

(** ** Idle time per stream: totals, ratios and signs *)

Lemma sumZ_filter_zero {A} (f : A -> Z) (p : A -> bool) (l : list A) :
  (forall x, In x l -> p x = false -> f x = 0) ->
  sumZ (map f (filter p l)) = sumZ (map f l).
Proof.
  induction l as [|x l IH]; intros H; [reflexivity|].
  assert (IH' := IH (fun y Hy => H y (or_intror Hy))).
  cbn [filter]. destruct (p x) eqn:Hp; cbn [map];
    change (sumZ (f x :: map f l)) with (f x + sumZ (map f l)).
  - change (sumZ (f x :: map f (filter p l))) with (f x + sumZ (map f (filter p l))). lia.
  - rewrite (H x (or_introl eq_refl) Hp). lia.
Qed.

Lemma sum_skipna_categories (delay : Z) (rows : list (gpu_kernel * option Z)) :
  sumZ (map (fun c => sum_skipna (map idle_interval
          (filter (fun r => idle_category_eqb (idle_category_of delay r) c) rows)))
        idle_categories)
  = sum_skipna (map idle_interval rows).
Proof.
  unfold idle_categories, sum_skipna. cbn [map sumZ fold_right].
  induction rows as [|x rows IH]; [reflexivity|].
  simpl. destruct (idle_category_of delay x); simpl; unfold sumZ in *; simpl in *; lia.
Qed.

Lemma filter_existsb_false {A} (f : A -> bool) (l : list A) :
  existsb f l = false -> filter f l = [].
Proof.
  induction l as [|x l IH]; simpl; [reflexivity|].
  destruct (f x); [discriminate|]. exact IH.
Qed.

Lemma analyze_total (stream delay : Z) (ks : list gpu_kernel) :
  sumZ (map ir_idle_time (analyze_sorted stream delay ks))
  = sum_skipna (map idle_interval (with_prev_end None ks)).
Proof.
  unfold analyze_sorted. cbv zeta. rewrite idle_rows_total, map_map. cbn [snd].
  rewrite <- (sum_skipna_categories delay).
  apply sumZ_filter_zero. intros c _ Hc.
  rewrite (filter_existsb_false _ _ Hc). reflexivity.
Qed.

Lemma gaps_telescope (rest : list gpu_kernel) : forall p,
  sum_skipna (map idle_interval (with_prev_end (Some (end_ts p)) rest))
  = gk_ts (last (p :: rest) p) - gk_ts p - sumZ (map gk_dur (removelast (p :: rest))).
Proof.
  induction rest as [|k rest IH]; intros p.
  - simpl. unfold sum_skipna, sumZ. simpl. lia.
  - cbn [with_prev_end map]. rewrite sum_skipna_cons, IH.
    replace (last (p :: k :: rest) p) with (last (k :: rest) k)
      by (cbn [last]; destruct rest; [reflexivity|apply last_default]).
    replace (removelast (p :: k :: rest)) with (p :: removelast (k :: rest)) by reflexivity.
    cbn [map idle_interval fst snd]. unfold end_ts.
    change (sumZ (gk_dur p :: map gk_dur (removelast (k :: rest))))
      with (gk_dur p + sumZ (map gk_dur (removelast (k :: rest)))).
    lia.
Qed.

(** The idle times of a stream's categories add up to the start of its last
    kernel minus the start of its first kernel minus the durations of all
    kernels but the last: the sum of every gap [ts - prev_end].  [ks] is the
    stream's kernels in the order [sort_values(by="ts")] gave them. *)
Theorem idle_total_closed_form (stream delay : Z) (k0 : gpu_kernel) (rest : list gpu_kernel) :
  sumZ (map ir_idle_time (analyze_sorted stream delay (k0 :: rest)))
  = gk_ts (last (k0 :: rest) k0) - gk_ts k0 - sumZ (map gk_dur (removelast (k0 :: rest))).
Proof.
  rewrite analyze_total. cbn [with_prev_end map].
  rewrite sum_skipna_cons, (proj2 (first_row_other delay k0)), gaps_telescope. lia.
Qed.

Lemma with_prev_end_In (ks : list gpu_kernel) : forall prev row,
  In row (with_prev_end prev ks) -> In (fst row) ks.
Proof.
  induction ks as [|k ks IH]; intros prev row H; simpl in H; [contradiction|].
  destruct H as [<-|H]; [left; reflexivity|right; exact (IH _ _ H)].
Qed.

Lemma analyze_sorted_present (stream delay : Z) (ks : list gpu_kernel) (r : idle_row) :
  In r (analyze_sorted stream delay ks) ->
  exists row, In row (with_prev_end None ks)
    /\ idle_category_eqb (idle_category_of delay row) (ir_category r) = true.
Proof.
  unfold analyze_sorted. intros H.
  apply in_map_iff in H as [[c s] [<- H]]. apply in_map_iff in H as [c' [Hc Hin]].
  injection Hc as <- _. apply filter_In in Hin as [_ Hex].
  apply existsb_exists in Hex. exact Hex.
Qed.

Lemma idle_category_eqb_true (a b : idle_category) : idle_category_eqb a b = true -> a = b.
Proof. destruct a, b; simpl; congruence. Qed.

Lemma sumZ_pos (l : list Z) : (forall x, In x l -> 0 < x) -> l <> [] -> 0 < sumZ l.
Proof.
  intros H Hne. destruct l as [|x l]; [contradiction|].
  change (sumZ (x :: l)) with (x + sumZ l).
  assert (0 <= sumZ l) by (apply sumZ_nonneg; intros y Hy; specialize (H y (or_intror Hy)); lia).
  specialize (H x (or_introl eq_refl)). lia.
Qed.

(** Signs of the per-stream idle times: with a non-negative
    [consecutive_kernel_delay] the OTHER idle time is never negative, and
    when no kernel starts before its runtime launch event the HOST_WAIT idle
    time is positive.  (KERNEL_WAIT totals can be negative: see the example
    [overlap_stream].) *)
Theorem idle_category_signs (stream delay : Z) (ks : list gpu_kernel) (r : idle_row) :
  In r (analyze_sorted stream delay ks) ->
  (ir_category r = OTHER -> 0 <= delay -> 0 <= ir_idle_time r)
  /\ (ir_category r = HOST_WAIT ->
      (forall k rt, In k ks -> gk_ts_runtime k = Some rt -> rt <= gk_ts k) ->
      0 < ir_idle_time r).
Proof.
  intros Hr. rewrite (analyze_sorted_In stream delay ks r Hr). split.
  - intros Hc Hd. rewrite Hc. unfold sum_skipna. apply sumZ_nonneg.
    intros x Hx. rewrite map_map in Hx. apply in_map_iff in Hx as [row [<- Hrow]].
    apply filter_In in Hrow as [_ Hcat]. apply idle_category_eqb_true in Hcat.
    revert Hcat. unfold idle_category_of.
    destruct (is_host_wait row); [discriminate|].
    destruct (idle_interval row) as [d|]; [|intros; simpl; lia].
    destruct (Z.ltb_spec d delay); [discriminate|]. intros _. simpl. lia.
  - intros Hc Hrt. rewrite Hc. unfold sum_skipna. apply sumZ_pos.
    + intros x Hx. rewrite map_map in Hx. apply in_map_iff in Hx as [row [<- Hrow]].
      apply filter_In in Hrow as [Hin Hcat]. apply idle_category_eqb_true in Hcat.
      apply with_prev_end_In in Hin. revert Hcat Hin.
      destruct row as [k prev]. unfold idle_category_of, is_host_wait, idle_interval.
      cbn [fst snd].
      destruct (gk_ts_runtime k) as [rt|] eqn:Ek, prev as [p|]; cbn [fst snd].
      all: try discriminate; try (destruct (_ <? delay); discriminate).
      destruct (Z.ltb_spec p rt); [|destruct (_ <? delay); discriminate].
      intros _ Hk. specialize (Hrt k rt Hk Ek). simpl. lia.
    + destruct (analyze_sorted_present stream delay ks r Hr) as [row [Hin Hcat]].
      rewrite Hc in Hcat. intros Hnil.
      assert (Hf : In row (filter (fun row => idle_category_eqb (idle_category_of delay row) HOST_WAIT)
                     (with_prev_end None ks))) by (apply filter_In; split; assumption).
      apply map_eq_nil, map_eq_nil in Hnil. rewrite Hnil in Hf. contradiction.
Qed.

Lemma idle_category_signs_witness :
  (forall k rt, In k host_other_stream -> gk_ts_runtime k = Some rt -> rt <= gk_ts k)
  /\ exists rh ro,
       In rh (analyze_sorted 7 2 host_other_stream) /\ ir_category rh = HOST_WAIT
       /\ 0 < ir_idle_time rh /\ ir_idle_time rh = 4
       /\ In ro (analyze_sorted 7 2 host_other_stream) /\ ir_category ro = OTHER
       /\ 0 <= ir_idle_time ro /\ ir_idle_time ro = 10.
Proof.
  assert (Hrt : forall k rt, In k host_other_stream -> gk_ts_runtime k = Some rt -> rt <= gk_ts k).
  { intros k rt Hk Hr. simpl in Hk.
    destruct Hk as [<-|[<-|[<-|[]]]]; simpl in Hr; try discriminate.
    injection Hr as <-. simpl. lia. }
  split; [exact Hrt|].
  set (d := mk_idle_row OTHER 0 0 NaN).
  assert (Hh : In (nth 0 (analyze_sorted 7 2 host_other_stream) d) (analyze_sorted 7 2 host_other_stream))
    by (apply nth_In; vm_compute; lia).
  assert (Ho : In (nth 1 (analyze_sorted 7 2 host_other_stream) d) (analyze_sorted 7 2 host_other_stream))
    by (apply nth_In; vm_compute; lia).
  exists (nth 0 (analyze_sorted 7 2 host_other_stream) d), (nth 1 (analyze_sorted 7 2 host_other_stream) d).
  split; [exact Hh|]. split; [vm_compute; reflexivity|].
  split; [exact (proj2 (idle_category_signs 7 2 host_other_stream _ Hh) ltac:(vm_compute; reflexivity) Hrt)|].
  split; [vm_compute; reflexivity|].
  split; [exact Ho|]. split; [vm_compute; reflexivity|].
  split; [exact (proj1 (idle_category_signs 7 2 host_other_stream _ Ho) ltac:(vm_compute; reflexivity) ltac:(lia))|].
  vm_compute; reflexivity.
Defined.

(** ** Idle time breakdown of a rank *)

Lemma analyze_sorted_stream (stream delay : Z) (ks : list gpu_kernel) (r : idle_row) :
  In r (analyze_sorted stream delay ks) -> ir_stream r = stream.
Proof.
  unfold analyze_sorted. intros H. apply in_map_iff in H as [p [<- _]]. reflexivity.
Qed.

Lemma analyze_sorted_other (stream delay : Z) (ks : list gpu_kernel) :
  ks <> [] -> exists r, In r (analyze_sorted stream delay ks) /\ ir_category r = OTHER.
Proof.
  destruct ks as [|k ks]; [contradiction|]. intros _.
  unfold analyze_sorted. cbv zeta.
  eexists. split.
  { apply in_map_iff. eexists. split; [reflexivity|].
    apply in_map_iff. exists OTHER. split; [reflexivity|].
    apply filter_In. split; [right; right; left; reflexivity|].
    apply existsb_exists. exists (k, None). split; [left; reflexivity|].
    rewrite (proj1 (first_row_other delay k)). reflexivity. }
  reflexivity.
Qed.

Lemma analyze_stream_rows (s delay : Z) (ks : list gpu_kernel) :
  (exists r, In r (_analyze_idle_time_for_stream s ks delay))
  <-> exists k, In k ks /\ gk_stream k = s.
Proof.
  unfold _analyze_idle_time_for_stream.
  set (f := filter (fun k => gk_stream k =? s) ks).
  assert (Hp : Permutation f (KernelTsSort.sort f)) by apply KernelTsSort.Permuted_sort.
  split.
  - intros [r Hr]. destruct (KernelTsSort.sort f) as [|k l] eqn:E; [contradiction|].
    assert (Hk : In k f) by (apply (Permutation_in _ (Permutation_sym Hp)); left; reflexivity).
    apply filter_In in Hk as [Hk He]. apply Z.eqb_eq in He. eauto.
  - intros [k [Hk He]].
    assert (Hf : In k f) by (apply filter_In; split; [exact Hk|apply Z.eqb_eq; exact He]).
    apply (Permutation_in _ Hp) in Hf.
    destruct (analyze_sorted_other s delay (KernelTsSort.sort f)) as [r [Hr _]];
      [intros E; rewrite E in Hf; contradiction|].
    eauto.
Qed.

Lemma unique_from_In (x : Z) (l : list Z) : forall seen,
  In x (unique_from seen l) -> In x l.
Proof.
  induction l as [|y l IH]; intros seen H; simpl in H; [contradiction|].
  destruct (existsb (Z.eqb y) seen).
  - right. exact (IH _ H).
  - destruct H as [<-|H]; [left; reflexivity|right; exact (IH _ H)].
Qed.

Lemma unique_from_complete (x : Z) (l : list Z) : forall seen,
  In x l -> In x (unique_from seen l) \/ In x seen.
Proof.
  induction l as [|y l IH]; intros seen H; [contradiction|].
  simpl. destruct (existsb (Z.eqb y) seen) eqn:E.
  - destruct H as [<-|H]; [|exact (IH _ H)].
    right. apply existsb_exists in E as [z [Hz Ez]]. apply Z.eqb_eq in Ez. subst. exact Hz.
  - destruct H as [<-|H]; [left; left; reflexivity|].
    destruct (IH (y :: seen) H) as [H'|[<-|H']]; [left; right; exact H'|left; left; reflexivity|].
    right. exact H'.
Qed.

Lemma idle_gpu_kernels_stream (sym : list (string * Z)) (trace_df : trace_frame) (s : Z) :
  (exists k, In k (idle_gpu_kernels sym trace_df) /\ gk_stream k = s)
  <-> exists l r, In (l, r) trace_df /\ tr_stream r = s /\ s <> -1
                  /\ In (tr_cat r) (kernel_cat_ids sym).
Proof.
  unfold idle_gpu_kernels. split.
  - intros [k [Hk Hs]]. apply in_map_iff in Hk as [[l r] [<- Hin]].
    apply filter_In in Hin as [Hin Hf]. cbn [snd] in Hf. apply andb_true_iff in Hf as [Hn He].
    apply existsb_exists in He as [c [Hc Ec]]. apply Z.eqb_eq in Ec. cbn in Hs |- *.
    exists l, r. repeat split; try assumption.
    + subst s. intros E. rewrite E in Hn. discriminate.
    + subst c. exact Hc.
  - intros [l [r [Hin [Hs [Hn Hc]]]]].
    eexists. split.
    + apply in_map_iff. exists (l, r). split; [reflexivity|].
      apply filter_In. split; [exact Hin|]. cbn [snd].
      apply andb_true_iff. split.
      * rewrite Hs. destruct (Z.eqb_spec s (-1)); [contradiction|reflexivity].
      * apply existsb_exists. exists (tr_cat r). split; [exact Hc|apply Z.eqb_refl].
    + exact Hs.
Qed.

Lemma unique_from_nil (l : list Z) : unique_from [] l = [] <-> l = [].
Proof. destruct l; simpl; split; congruence. Qed.

Lemma idle_gpu_kernels_nil (sym : list (string * Z)) (trace_df : trace_frame) :
  idle_gpu_kernels sym trace_df = []
  <-> forall l r, In (l, r) trace_df -> tr_stream r = -1 \/ ~ In (tr_cat r) (kernel_cat_ids sym).
Proof.
  split.
  - intros H l r Hin. destruct (Z.eq_dec (tr_stream r) (-1)) as [E|E]; [left; exact E|right].
    intros Hc. destruct (proj2 (idle_gpu_kernels_stream sym trace_df (tr_stream r)))
      as [k [Hk _]]; [exists l, r; repeat split; assumption|].
    rewrite H in Hk. contradiction.
  - intros H. destruct (idle_gpu_kernels sym trace_df) as [|k ks] eqn:E; [reflexivity|].
    destruct (proj1 (idle_gpu_kernels_stream sym trace_df (gk_stream k)))
      as [l [r [Hin [Hs [Hn Hc]]]]]; [exists k; rewrite E; split; [left|]; reflexivity|].
    destruct (H l r Hin) as [Hr|Hr]; [congruence|contradiction].
Qed.

(** [get_idle_time_breakdown] on a rank: without a list of streams it raises
    [ValueError] exactly when the rank has no GPU kernel (an event off stream
    -1 of a kernel, memset, memcpy or MTIA category); with a non-empty list of
    streams it never fails. *)
Theorem idle_breakdown_value_error (sym : list (string * Z)) (get_trace : Z -> result trace_frame)
    (delay rank : Z) (trace_df : trace_frame) :
  get_trace rank = Ok trace_df ->
  (forall streams, (streams = None \/ streams = Some []) ->
     get_idle_time_breakdown sym get_trace delay rank streams = Err ValueError
     <-> forall l r, In (l, r) trace_df ->
           tr_stream r = -1 \/ ~ In (tr_cat r) (kernel_cat_ids sym))
  /\ (forall s l, exists rows,
        get_idle_time_breakdown sym get_trace delay rank (Some (s :: l)) = Ok rows).
Proof.
  intros Hget. unfold get_idle_time_breakdown. rewrite Hget. cbn [bind]. split.
  - intros streams Hs. rewrite <- idle_gpu_kernels_nil.
    assert (E : match streams with None | Some [] => unique_from [] (map gk_stream
                  (idle_gpu_kernels sym trace_df)) | Some l => l end
                = unique_from [] (map gk_stream (idle_gpu_kernels sym trace_df)))
      by (destruct Hs as [->| ->]; reflexivity).
    rewrite E. destruct (idle_gpu_kernels sym trace_df) as [|k ks]; simpl.
    + split; reflexivity.
    + split; discriminate.
  - intros s l. eexists. reflexivity.
Qed.

Lemma idle_breakdown_value_error_witness :
  get_idle_time_breakdown idle_example_symbols (fun _ => Ok [(0, mk_trace_rec 0 5 (-1) 2 (-1))])
    10 0 None = Err ValueError.
Proof.
  apply (proj1 (idle_breakdown_value_error idle_example_symbols
    (fun _ => Ok [(0, mk_trace_rec 0 5 (-1) 2 (-1))]) 10 0 _ eq_refl) None (or_introl eq_refl)).
  intros l r Hin. simpl in Hin. destruct Hin as [Hin|[]]. injection Hin as _ <-. left. reflexivity.
Defined.

Lemma breakdown_ok (sym : list (string * Z)) (get_trace : Z -> result trace_frame)
    (delay rank : Z) (streams : option (list Z)) (trace_df : trace_frame)
    (rows : list idle_breakdown_row) :
  get_trace rank = Ok trace_df ->
  get_idle_time_breakdown sym get_trace delay rank streams = Ok rows ->
  let gk := idle_gpu_kernels sym trace_df in
  exists ss, (forall s, In s ss <-> (match streams with
                                     | None => In s (map gk_stream gk)
                                     | Some l => (l = [] /\ In s (map gk_stream gk)) \/ In s l
                                     end))
    /\ rows = map (fun r => mk_idle_breakdown_row rank (ir_stream r) (idle_category_name (ir_category r))
                             (ir_idle_time r) (fl_round2 (ir_ratio r)))
                (List.concat (map (fun s => _analyze_idle_time_for_stream s gk delay) ss)).
Proof.
  intros Hget H gk. unfold get_idle_time_breakdown in H. rewrite Hget in H. cbn [bind] in H.
  fold gk in H.
  assert (Hu : forall s, In s (unique_from [] (map gk_stream gk)) <-> In s (map gk_stream gk)).
  { intros s. split; [apply unique_from_In|].
    intros Hs. destruct (unique_from_complete s _ [] Hs) as [H'|[]]. exact H'. }
  destruct streams as [[|x l]|].
  - exists (unique_from [] (map gk_stream gk)).
    destruct (unique_from [] (map gk_stream gk)) as [|y m] eqn:E; [discriminate|].
    injection H as <-. split; [|reflexivity].
    intros s. rewrite Hu. split; [intros Hs; left; split; [reflexivity|exact Hs]|].
    intros [[_ Hs]|[]]. exact Hs.
  - exists (x :: l). injection H as <-. split; [|reflexivity].
    intros s. split; [intros Hs; right; exact Hs|]. intros [[E _]|Hs]; [discriminate|exact Hs].
  - exists (unique_from [] (map gk_stream gk)).
    destruct (unique_from [] (map gk_stream gk)) as [|y m] eqn:E; [discriminate|].
    injection H as <-. split; [|reflexivity].
    intros s. apply Hu.
Qed.

(** The rows of [get_idle_time_breakdown] all carry the requested rank, and
    a stream has rows exactly when it has a GPU kernel on the rank and is one
    of the requested streams (every stream when none are requested); each
    stream that has rows has an "other" row. *)
Theorem idle_breakdown_streams (sym : list (string * Z)) (get_trace : Z -> result trace_frame)
    (delay rank : Z) (streams : option (list Z)) (trace_df : trace_frame)
    (rows : list idle_breakdown_row) :
  get_trace rank = Ok trace_df ->
  get_idle_time_breakdown sym get_trace delay rank streams = Ok rows ->
  (forall r, In r rows -> ib_rank r = rank)
  /\ (forall s, (exists r, In r rows /\ ib_stream r = s)
      <-> (exists l e, In (l, e) trace_df /\ tr_stream e = s /\ s <> -1
                       /\ In (tr_cat e) (kernel_cat_ids sym))
          /\ match streams with None => True | Some l => l = [] \/ In s l end)
  /\ (forall s, (exists r, In r rows /\ ib_stream r = s) ->
      exists r, In r rows /\ ib_stream r = s /\ ib_category r = "other"%string).
Proof.
  intros Hget H.
  destruct (breakdown_ok sym get_trace delay rank streams trace_df rows Hget H) as [ss [Hss ->]].
  set (gk := idle_gpu_kernels sym trace_df).
  set (f := fun r => mk_idle_breakdown_row rank (ir_stream r) (idle_category_name (ir_category r))
                       (ir_idle_time r) (fl_round2 (ir_ratio r))).
  assert (Hin : forall r, In r (map f (List.concat (map (fun s => _analyze_idle_time_for_stream s gk delay) ss)))
            <-> exists s ir, In s ss /\ In ir (_analyze_idle_time_for_stream s gk delay) /\ r = f ir).
  { intros r. rewrite in_map_iff. split.
    - intros [ir [<- Hir]]. apply in_concat in Hir as [l [Hl Hir]].
      apply in_map_iff in Hl as [s [<- Hs]]. eauto.
    - intros [s [ir [Hs [Hir ->]]]]. exists ir. split; [reflexivity|].
      apply in_concat. exists (_analyze_idle_time_for_stream s gk delay).
      split; [apply in_map_iff; exists s; split; [reflexivity|exact Hs]|exact Hir]. }
  assert (Hstream : forall s ir, In ir (_analyze_idle_time_for_stream s gk delay) -> ir_stream ir = s)
    by (intros s ir Hir; exact (analyze_sorted_stream _ _ _ _ Hir)).
  assert (Hgk : forall s, In s (map gk_stream gk) <-> exists k, In k gk /\ gk_stream k = s).
  { intros s. rewrite in_map_iff. split; intros [k [H1 H2]]; exists k; split; assumption. }
  split; [|split].
  - intros r Hr. apply Hin in Hr as [s [ir [_ [_ ->]]]]. reflexivity.
  - intros s. split.
    + intros [r [Hr Hs]]. apply Hin in Hr as [s' [ir [Hs' [Hir ->]]]].
      cbn [ib_stream f] in Hs. rewrite (Hstream _ _ Hir) in Hs. subst s'.
      split.
      * apply (proj1 (idle_gpu_kernels_stream sym trace_df s)).
        apply (proj1 (analyze_stream_rows s delay gk)). eauto.
      * apply Hss in Hs'. destruct streams as [l|]; [|exact I].
        destruct Hs' as [[El _]|Hs']; [left; exact El|right; exact Hs'].
    + intros [Hk Hreq]. apply (proj2 (idle_gpu_kernels_stream sym trace_df s)) in Hk.
      assert (Hs : In s ss).
      { apply Hss. destruct streams as [l|].
        - destruct Hreq as [El|Hl]; [left; split; [exact El|apply Hgk; exact Hk]|right; exact Hl].
        - apply Hgk. exact Hk. }
      destruct (proj2 (analyze_stream_rows s delay gk) Hk) as [ir Hir].
      exists (f ir). split; [apply Hin; eauto|]. cbn [f ib_stream]. apply (Hstream _ _ Hir).
  - intros s [r [Hr Hs]]. apply Hin in Hr as [s' [ir [Hs' [Hir ->]]]].
    cbn [ib_stream f] in Hs. rewrite (Hstream _ _ Hir) in Hs. subst s'.
    unfold _analyze_idle_time_for_stream in Hir |- *.
    destruct (analyze_sorted_other s delay
      (KernelTsSort.sort (filter (fun k => gk_stream k =? s) gk))) as [o [Ho Hc]];
      [intros E; rewrite E in Hir; contradiction|].
    exists (f o). split; [apply Hin; exists s, o; auto|].
    cbn [f ib_stream ib_category]. rewrite Hc, (analyze_sorted_stream _ _ _ _ Ho). split; reflexivity.
Qed.

Lemma idle_breakdown_streams_witness :
  exists rows, get_idle_time_breakdown idle_example_symbols (fun _ => Ok idle_example_trace) 10 0 None
               = Ok rows
    /\ (forall r, In r rows -> ib_rank r = 0).
Proof.
  eexists. split; [reflexivity|].
  apply (idle_breakdown_streams idle_example_symbols (fun _ => Ok idle_example_trace) 10 0 None
           idle_example_trace); reflexivity.
Defined.

(** ** GPU kernel breakdown *)

Lemma aggr_ok_total (ev : list (string * Z)) (nk : Z) (ratio : Q) (allow : option (list string))
    (out : list agg_row) :
  _aggr_gpu_kernel_time ev nk ratio allow = Ok out -> sumZ (map ar_sum out) = sumZ (map snd ev).
Proof.
  unfold _aggr_gpu_kernel_time, aggr_collapse.
  destruct (nk <? Z.of_nat (List.length (aggr_first_pass ev))).
  - set (cs := cumsum_from 0 (map ar_sum (aggr_first_pass ev))).
    destruct (quantile ratio cs) as [q|e]; cbn [bind]; [|discriminate].
    intros H. injection H as <-.
    rewrite fillna_sums, groupby_agg_total, rename_indexed_sums.
    rewrite <- (map_map fst ar_sum), map_fst_combine; [apply first_pass_total|].
    unfold cs. rewrite cumsum_length, length_map. lia.
  - intros H. injection H as <-. apply first_pass_total.
Qed.

Lemma aggr_ok_names (ev : list (string * Z)) (nk : Z) (ratio : Q) (allow : option (list string))
    (out : list agg_row) :
  _aggr_gpu_kernel_time ev nk ratio allow = Ok out -> NoDup (map ar_name out).
Proof.
  unfold _aggr_gpu_kernel_time, aggr_collapse.
  destruct (nk <? Z.of_nat (List.length (aggr_first_pass ev))).
  - destruct (quantile ratio _) as [q|e]; cbn [bind]; [|discriminate].
    intros H. injection H as <-.
    rewrite fillna_names, groupby_agg_names. apply group_keys_NoDup.
  - intros H. injection H as <-. apply (first_pass_names_NoDup ev). apply first_pass_perm.
Qed.

Lemma aggr_ok_exists (ev : list (string * Z)) (nk : Z) (ratio : Q) (allow : option (list string)) :
  (0 <= ratio <= 1)%Q -> exists out, _aggr_gpu_kernel_time ev nk ratio allow = Ok out.
Proof.
  intros Hr. unfold _aggr_gpu_kernel_time, aggr_collapse.
  destruct (nk <? _); [|eauto].
  destruct (quantile_ok ratio (cumsum_from 0 (map ar_sum (aggr_first_pass ev))) Hr) as [q ->].
  cbn [bind]. eauto.
Qed.

Lemma perm_filter {A} (f : A -> bool) (l1 l2 : list A) :
  Permutation l1 l2 -> Permutation (filter f l1) (filter f l2).
Proof.
  induction 1; simpl.
  - constructor.
  - destruct (f x); [constructor|]; assumption.
  - destruct (f x), (f y); try constructor; apply Permutation_refl.
  - eapply perm_trans; eassumption.
Qed.

Lemma filter_all_false {A} (f : A -> bool) (l : list A) :
  (forall x, In x l -> f x = false) -> filter f l = [].
Proof.
  induction l as [|x l IH]; intros H; simpl; [reflexivity|].
  rewrite (H x (or_introl eq_refl)). apply IH. intros y Hy. apply H. right; exact Hy.
Qed.

Lemma filter_all_true {A} (f : A -> bool) (l : list A) :
  (forall x, In x l -> f x = true) -> filter f l = l.
Proof.
  induction l as [|x l IH]; intros H; simpl; [reflexivity|].
  rewrite (H x (or_introl eq_refl)), IH; [reflexivity|]. intros y Hy. apply H. right; exact Hy.
Qed.

Lemma chain_le (l : list (Z * Z)) (iv : Z * Z) : chain l -> In iv l -> fst iv <= snd iv.
Proof.
  induction l as [|[s e] r IH]; intros Hc Hin; [destruct Hin|].
  simpl in Hc. destruct Hin as [<-|Hin]; [simpl; tauto|]. apply IH; tauto.
Qed.

Lemma in_le_sumZ (l : list Z) (x : Z) : (forall y, In y l -> 0 <= y) -> In x l -> x <= sumZ l.
Proof.
  induction l as [|y l IH]; intros H Hx; [destruct Hx|].
  change (sumZ (y :: l)) with (y + sumZ l).
  assert (Hl : forall z, In z l -> 0 <= z) by (intros; apply H; right; assumption).
  pose proof (sumZ_nonneg l Hl). pose proof (H y (or_introl eq_refl)).
  destruct Hx as [<-|Hx]; [lia|]. pose proof (IH Hl Hx). lia.
Qed.

Lemma traverse_opt_In {A B} (f : A -> option B) (l : list A) (bs : list B) (b : B) :
  traverse_opt f l = Some bs -> In b bs -> exists a, In a l /\ f a = Some b.
Proof.
  revert bs. induction l as [|a l IH]; intros bs H Hb; simpl in H.
  - injection H as <-. destruct Hb.
  - destruct (f a) as [b0|] eqn:Ef; [|discriminate].
    destruct (traverse_opt f l) as [bs'|] eqn:Et; [|discriminate].
    injection H as <-. destruct Hb as [<-|Hb].
    + exists a. split; [left; reflexivity|exact Ef].
    + destruct (IH bs' eq_refl Hb) as [a' [Ha' Hf]]. exists a'. split; [right; exact Ha'|exact Hf].
Qed.

(** On a time-sorted frame, [next_time - time] is never negative. *)
Lemma sweep_rows_dur_nonneg (ev : list (Z * Z)) (acc : Z) (r : Z * Z * option Z) (d : Z) :
  Sorted tle ev -> In r (sweep_rows acc ev) -> row_dur r = Some d -> 0 <= d.
Proof.
  revert acc. induction ev as [|[t s] rest IH]; intros acc Hs Hin Hd; [destruct Hin|].
  apply Sorted_inv in Hs as [Hs Hhd]. simpl in Hin. destruct Hin as [<-|Hin].
  - destruct rest as [|[t' s'] rest']; simpl in Hd; [discriminate|].
    injection Hd as <-. inversion Hhd as [|? ? Hle]; subst.
    unfold tle, TimeOrder.leb in Hle. simpl in Hle. apply Z.leb_le in Hle. lia.
  - exact (IH _ Hs Hin Hd).
Qed.

Lemma groupby_sum_nonneg (rows : list (string * Z)) :
  (forall r, In r rows -> 0 <= snd r) -> forall r, In r (groupby_sum rows) -> 0 <= snd r.
Proof.
  intros H r Hr. unfold groupby_sum in Hr. apply in_map_iff in Hr as [k [<- _]]. simpl.
  apply sumZ_nonneg. intros x Hx. apply in_map_iff in Hx as [p [<- Hp]].
  apply filter_In in Hp as [Hp _]. apply H, Hp.
Qed.

Lemma groupby_sum_keys (rows : list (string * Z)) :
  map fst (groupby_sum rows) = group_keys (map fst rows).
Proof. unfold groupby_sum. rewrite map_map. apply map_id. Qed.

Lemma classify_sorted_nonneg (mapping : list (string * Z)) (ev : list (Z * Z)) (l : list (string * Z)) :
  Sorted tle ev -> classify_sorted mapping ev = Some l -> forall r, In r l -> 0 <= snd r.
Proof.
  intros Hs H. unfold classify_sorted in H.
  destruct (traverse_opt row_dur _) as [durs|] eqn:Et; [|discriminate].
  injection H as <-. apply groupby_sum_nonneg.
  intros [lb d] Hr. apply in_combine_r in Hr. cbn [snd].
  destruct (traverse_opt_In _ _ _ _ Et Hr) as [row [Hrow Hd]].
  apply filter_In in Hrow as [Hrow _]. exact (sweep_rows_dur_nonneg ev 0 row _ Hs Hrow Hd).
Qed.

Lemma kernel_type_to_analysis_NoDup (mem : bool) : NoDup (kernel_type_to_analysis mem).
Proof.
  destruct mem; simpl; repeat constructor; simpl; intuition discriminate.
Qed.

Section GpuKernelBreakdownProofs.

Variable sym_name : Z -> string.
Variable get_kernel_type : string -> string.

Local Abbreviation gkt := (gk_kernel_type sym_name get_kernel_type).
Local Abbreviation kind := (kernels_of_kind sym_name get_kernel_type).

Lemma frames_covered (gk : list event) (types : list string) (x : Z) :
  covered (all_intervals (kernel_type_frames sym_name get_kernel_type gk types)) x
  = covered (map kernel_interval (filter (fun e => existsb (String.eqb (gkt e)) types) gk)) x.
Proof.
  apply Bool.eq_iff_eq_true. unfold all_intervals, kernel_type_frames. split.
  - unfold covered at 1. intros H. apply existsb_exists in H as [iv [Hiv Hx]].
    apply in_flat_map in Hiv as [[kt ivs] [Hkt Hiv]].
    apply in_map_iff in Hkt as [kt' [Heq Hkt]]. injection Heq as -> <-.
    assert (Hc : covered (merge_kernel_intervals (map kernel_interval (kind kt gk))) x = true)
      by (apply existsb_exists; exists iv; split; assumption).
    rewrite merge_covered in Hc. apply existsb_exists in Hc as [iv' [Hiv' Hx']].
    apply in_map_iff in Hiv' as [e [<- He]]. apply filter_In in He as [He Ht].
    apply existsb_exists. exists (kernel_interval e). split; [|exact Hx'].
    apply in_map. apply filter_In. split; [exact He|].
    apply existsb_exists. exists kt. split; [exact Hkt|exact Ht].
  - intros H. apply existsb_exists in H as [iv [Hiv Hx]].
    apply in_map_iff in Hiv as [e [<- He]]. apply filter_In in He as [He Ht].
    apply existsb_exists in Ht as [kt [Hkt Ht]].
    assert (Hc : covered (merge_kernel_intervals (map kernel_interval (kind kt gk))) x = true).
    { rewrite merge_covered. apply existsb_exists. exists (kernel_interval e). split; [|exact Hx].
      apply in_map. apply filter_In. split; assumption. }
    apply existsb_exists in Hc as [iv' [Hiv' Hx']].
    apply existsb_exists. exists iv'. split; [|exact Hx'].
    apply in_flat_map. exists (kt, merge_kernel_intervals (map kernel_interval (kind kt gk))).
    split; [|exact Hiv']. apply in_map_iff. exists kt. split; [reflexivity|exact Hkt].
Qed.

(** One rank: the type totals add up to the time covered by the kernels of
    the analysed types. *)
Lemma kernel_type_time_total (gk : list event) (types : list string) (lo hi : Z) :
  (forall e, In e gk -> lo <= ev_ts e /\ 0 <= ev_dur e /\ ev_ts e + ev_dur e <= hi) ->
  exists l, _get_gpu_kernel_type_time sym_name get_kernel_type gk types = Ok l
    /\ sumZ (map snd l)
       = count_between (covered (map kernel_interval
                                   (filter (fun e => existsb (String.eqb (gkt e)) types) gk))) lo hi.
Proof.
  intros Hb. set (cats := kernel_type_frames sym_name get_kernel_type gk types).
  assert (Hcb : forall iv, In iv (all_intervals cats) -> lo <= fst iv <= snd iv /\ snd iv <= hi).
  { intros iv Hiv. unfold all_intervals, cats, kernel_type_frames in Hiv.
    apply in_flat_map in Hiv as [[kt ivs] [Hkt Hiv]].
    apply in_map_iff in Hkt as [kt' [Heq _]]. injection Heq as -> <-.
    assert (Hk : forall iv, In iv (map kernel_interval (kind kt gk)) -> lo <= fst iv /\ snd iv <= hi).
    { intros iv' Hiv'. apply in_map_iff in Hiv' as [e [<- He]].
      apply filter_In in He as [He _]. specialize (Hb e He). simpl. lia. }
    assert (Hle : forall iv, In iv (map kernel_interval (kind kt gk)) -> fst iv <= snd iv).
    { intros iv' Hiv'. apply in_map_iff in Hiv' as [e [<- He]].
      apply filter_In in He as [He _]. specialize (Hb e He). simpl. lia. }
    pose proof (merge_bounds _ lo hi Hk iv Hiv).
    pose proof (chain_le _ iv (merge_chain _ Hle) Hiv). lia. }
  destruct (overlap_events_sorted_perm 0 [] cats (Sorted_nil _)) as [Hp Hs].
  pose proof (classify_any_order cats (kernel_t_mapping_from 0 [] cats) lo hi _ Hcb Hp Hs) as Ht.
  unfold _get_gpu_kernel_type_time, gpu_kernel_type_sweep. fold cats.
  destruct (classify_sorted _ _) as [l|]; [|discriminate].
  exists l. split; [reflexivity|]. injection Ht as ->.
  apply count_between_ext. intros x _. apply frames_covered.
Qed.

Lemma kernel_type_time_nonneg (gk : list event) (types : list string) (l : list (string * Z)) :
  _get_gpu_kernel_type_time sym_name get_kernel_type gk types = Ok l -> forall r, In r l -> 0 <= snd r.
Proof.
  unfold _get_gpu_kernel_type_time, gpu_kernel_type_sweep.
  destruct (classify_sorted _ _) as [l'|] eqn:E; intros H; [|discriminate].
  injection H as <-. eapply classify_sorted_nonneg; [|exact E].
  exact (proj2 (overlap_events_sorted_perm 0 [] _ (Sorted_nil _))).
Qed.

Lemma aggr_kernel_types_ok (nk : Z) (ratio : Q) (rank : Z) (gk : list event) (types : list string) :
  (0 <= ratio <= 1)%Q -> exists rows, aggr_kernel_types sym_name get_kernel_type nk ratio rank gk types = Ok rows.
Proof.
  intros Hr. induction types as [|kt rest [rows IH]]; simpl; [eauto|].
  destruct (aggr_ok_exists (map (fun e => (sym_name (ev_name e), ev_dur e)) (kind kt gk)) nk ratio None Hr)
    as [g Hg].
  rewrite Hg. cbn [bind]. rewrite IH. cbn [bind]. eauto.
Qed.

Lemma aggr_kernel_types_rows (nk : Z) (ratio : Q) (rank : Z) (gk : list event) (types : list string)
    (rows : list kernel_breakdown_row) :
  aggr_kernel_types sym_name get_kernel_type nk ratio rank gk types = Ok rows ->
  (forall r, In r rows -> In (kb_kernel_type r) types /\ kb_rank r = rank)
  /\ (NoDup types -> forall ty, In ty types ->
      exists g, _aggr_gpu_kernel_time (map (fun e => (sym_name (ev_name e), ev_dur e)) (kind ty gk))
                  nk ratio None = Ok g
        /\ filter (fun r => String.eqb (kb_kernel_type r) ty) rows
           = map (fun a => mk_kernel_breakdown_row a ty rank) g).
Proof.
  revert rows. induction types as [|kt rest IH]; intros rows H; simpl in H.
  - injection H as <-. split; [intros r []|intros _ ty []].
  - destruct (_aggr_gpu_kernel_time _ _ _ _) as [g|e] eqn:Eg; cbn [bind] in H; [|discriminate].
    destruct (aggr_kernel_types _ _ _ _ _ _ rest) as [rows'|e] eqn:Er; cbn [bind] in H; [|discriminate].
    injection H as <-. destruct (IH rows' eq_refl) as [IH1 IH2]. split.
    + intros r Hr. apply in_app_or in Hr as [Hr|Hr].
      * apply in_map_iff in Hr as [a [<- _]]. simpl. split; [left|]; reflexivity.
      * destruct (IH1 r Hr) as [A B]. split; [right; exact A|exact B].
    + intros Hnd ty Hty. inversion Hnd as [|? ? Hkt Hnd']; subst. rewrite filter_app.
      destruct (String.eqb_spec kt ty) as [<-|Hne].
      * exists g. split; [exact Eg|].
        rewrite filter_all_true, (filter_all_false _ rows'), app_nil_r; [reflexivity| |].
        -- intros r Hr. apply String.eqb_neq. intros Heq. apply Hkt. rewrite <- Heq. apply IH1, Hr.
        -- intros r Hr. apply in_map_iff in Hr as [a [<- _]]. apply String.eqb_refl.
      * destruct Hty as [Hty|Hty]; [contradiction|].
        destruct (IH2 Hnd' ty Hty) as [g' [Hg' Hf]]. exists g'. split; [exact Hg'|].
        rewrite filter_all_false; [exact Hf|].
        intros r Hr. apply in_map_iff in Hr as [a [<- _]]. apply String.eqb_neq. exact Hne.
Qed.

Lemma kernel_breakdown_ranks_ok (types : list string) (nk : Z) (ratio : Q) (traces : list (Z * list event)) :
  (0 <= ratio <= 1)%Q ->
  (forall rank df e, In (rank, df) traces -> In e (rank_gpu_kernels df) -> 0 <= ev_dur e) ->
  exists acc, kernel_breakdown_ranks sym_name get_kernel_type types nk ratio traces = Ok acc.
Proof.
  intros Hr. induction traces as [|[rank df] rest IH]; intros Hd; simpl; [eauto|].
  destruct (intervals_bounded (map kernel_interval (rank_gpu_kernels df))) as [lo [hi Hb]].
  destruct (kernel_type_time_total (rank_gpu_kernels df) types lo hi) as [l [Hl _]].
  { intros e He. pose proof (Hd rank df e (or_introl eq_refl) He).
    pose proof (Hb (kernel_interval e) (in_map _ _ _ He)). simpl in *. lia. }
  rewrite Hl. cbn [bind].
  destruct (aggr_kernel_types_ok nk ratio rank (rank_gpu_kernels df) types Hr) as [rows ->]. cbn [bind].
  destruct IH as [acc ->]; [intros r d e Hin; apply (Hd r d e); right; exact Hin|]. cbn [bind]. eauto.
Qed.

Lemma kernel_breakdown_ranks_total (types : list string) (nk : Z) (ratio : Q)
    (traces : list (Z * list event)) (lo hi : Z) (kts : list (string * Z)) (rows : list kernel_breakdown_row) :
  (forall rank df e, In (rank, df) traces -> In e (rank_gpu_kernels df) ->
     lo <= ev_ts e /\ 0 <= ev_dur e /\ ev_ts e + ev_dur e <= hi) ->
  kernel_breakdown_ranks sym_name get_kernel_type types nk ratio traces = Ok (kts, rows) ->
  sumZ (map snd kts)
  = sumZ (map (fun p => count_between (covered (map kernel_interval
             (filter (fun e => existsb (String.eqb (gkt e)) types) (rank_gpu_kernels (snd p))))) lo hi)
          traces).
Proof.
  revert kts rows. induction traces as [|[rank df] rest IH]; intros kts rows Hb H; simpl in H.
  - injection H as <- <-. reflexivity.
  - destruct (kernel_type_time_total (rank_gpu_kernels df) types lo hi) as [l [Hl Hsum]].
    { intros e He. exact (Hb rank df e (or_introl eq_refl) He). }
    rewrite Hl in H. cbn [bind] in H.
    destruct (aggr_kernel_types _ _ _ _ _ _ _) as [rows0|e]; cbn [bind] in H; [|discriminate].
    destruct (kernel_breakdown_ranks _ _ _ _ _ rest) as [[kts' rows']|e] eqn:E; cbn [bind] in H; [|discriminate].
    injection H as <- <-. simpl fst. rewrite map_app, sumZ_app, Hsum.
    rewrite (IH kts' rows'); [reflexivity| |reflexivity].
    intros r d e Hin. apply (Hb r d e). right; exact Hin.
Qed.

Lemma kernel_breakdown_ranks_nonneg (types : list string) (nk : Z) (ratio : Q)
    (traces : list (Z * list event)) (kts : list (string * Z)) (rows : list kernel_breakdown_row) :
  kernel_breakdown_ranks sym_name get_kernel_type types nk ratio traces = Ok (kts, rows) ->
  forall r, In r kts -> 0 <= snd r.
Proof.
  revert kts rows. induction traces as [|[rank df] rest IH]; intros kts rows H; simpl in H.
  - injection H as <- <-. intros r [].
  - destruct (_get_gpu_kernel_type_time _ _ _ _) as [l|e] eqn:El; cbn [bind] in H; [|discriminate].
    destruct (aggr_kernel_types _ _ _ _ _ _ _) as [rows0|e]; cbn [bind] in H; [|discriminate].
    destruct (kernel_breakdown_ranks _ _ _ _ _ rest) as [[kts' rows']|e] eqn:E; cbn [bind] in H; [|discriminate].
    injection H as <- <-. intros r Hr. apply in_app_or in Hr as [Hr|Hr].
    + exact (kernel_type_time_nonneg _ _ _ El r Hr).
    + exact (IH kts' rows' eq_refl r Hr).
Qed.

Lemma kernel_breakdown_ranks_rows (types : list string) (nk : Z) (ratio : Q)
    (traces : list (Z * list event)) (kts : list (string * Z)) (rows : list kernel_breakdown_row) :
  kernel_breakdown_ranks sym_name get_kernel_type types nk ratio traces = Ok (kts, rows) ->
  (forall r, In r rows -> In (kb_kernel_type r) types /\ In (kb_rank r) (map fst traces))
  /\ (NoDup (map fst traces) -> NoDup types -> forall rank df ty, In (rank, df) traces -> In ty types ->
      exists g, _aggr_gpu_kernel_time (map (fun e => (sym_name (ev_name e), ev_dur e))
                                           (kind ty (rank_gpu_kernels df))) nk ratio None = Ok g
        /\ filter (fun r => String.eqb (kb_kernel_type r) ty && (kb_rank r =? rank)) rows
           = map (fun a => mk_kernel_breakdown_row a ty rank) g).
Proof.
  revert kts rows. induction traces as [|[rank0 df0] rest IH]; intros kts rows H; simpl in H.
  - injection H as <- <-. split; [intros r []|intros _ _ rank df ty []].
  - destruct (_get_gpu_kernel_type_time _ _ _ _) as [l|e]; cbn [bind] in H; [|discriminate].
    destruct (aggr_kernel_types _ _ _ _ _ _ _) as [rows0|e] eqn:E0; cbn [bind] in H; [|discriminate].
    destruct (kernel_breakdown_ranks _ _ _ _ _ rest) as [[kts' rows']|e] eqn:E; cbn [bind] in H; [|discriminate].
    injection H as <- <-. cbn [snd].
    destruct (aggr_kernel_types_rows _ _ _ _ _ _ E0) as [A1 A2].
    destruct (IH kts' rows' eq_refl) as [IH1 IH2]. split.
    + intros r Hr. apply in_app_or in Hr as [Hr|Hr].
      * destruct (A1 r Hr) as [B C]. split; [exact B|left; symmetry; exact C].
      * destruct (IH1 r Hr) as [B C]. split; [exact B|right; exact C].
    + intros Hnd Hndt rank df ty Hin Hty. simpl in Hnd. inversion Hnd as [|? ? Hr0 Hnd']; subst.
      rewrite filter_app. destruct Hin as [Heq|Hin].
      * injection Heq as <- <-. destruct (A2 Hndt ty Hty) as [g [Hg Hf]].
        exists g. split; [exact Hg|].
        rewrite (filter_all_false _ rows'), app_nil_r.
        -- rewrite <- Hf. apply filter_ext_in. intros r Hr.
           rewrite (proj2 (A1 r Hr)), Z.eqb_refl, andb_true_r. reflexivity.
        -- intros r Hr. apply andb_false_iff. right. apply Z.eqb_neq. intros Heq.
           apply Hr0. rewrite <- Heq. apply IH1, Hr.
      * destruct (IH2 Hnd' Hndt rank df ty Hin Hty) as [g [Hg Hf]]. exists g. split; [exact Hg|].
        rewrite filter_all_false; [exact Hf|].
        intros r Hr. apply andb_false_iff. right. apply Z.eqb_neq. rewrite (proj2 (A1 r Hr)).
        intros ->. apply Hr0. apply (in_map fst) in Hin. exact Hin.
Qed.

(** [get_gpu_kernel_breakdown]: when the GPU kernels of every rank have
    non-negative durations and lie in [lo, hi], the [sum] column of
    [kernel_type_df] adds up, over all ranks, to the time during which at
    least one kernel of an analysed type runs on the rank; and the call
    succeeds whenever [duration_ratio] is in [0, 1]. *)
Theorem gpu_kernel_breakdown_type_total (traces : list (Z * list event)) (ratio : Q) (nk : Z)
    (mem : bool) (lo hi : Z) :
  (forall rank df e, In (rank, df) traces -> In e df -> ev_stream e <> -1 ->
     lo <= ev_ts e /\ 0 <= ev_dur e /\ ev_ts e + ev_dur e <= hi) ->
  (forall kt all, get_gpu_kernel_breakdown sym_name get_kernel_type traces ratio nk mem = Ok (kt, all) ->
     sumZ (map (fun r => snd (fst r)) kt)
     = sumZ (map (fun p => count_between (covered (map kernel_interval
                 (filter (fun e => existsb (String.eqb (gkt e)) (kernel_type_to_analysis mem))
                         (rank_gpu_kernels (snd p))))) lo hi) traces))
  /\ ((0 <= ratio <= 1)%Q ->
      exists kt all, get_gpu_kernel_breakdown sym_name get_kernel_type traces ratio nk mem = Ok (kt, all)).
Proof.
  intros Hb.
  assert (Hb' : forall rank df e, In (rank, df) traces -> In e (rank_gpu_kernels df) ->
             lo <= ev_ts e /\ 0 <= ev_dur e /\ ev_ts e + ev_dur e <= hi).
  { intros rank df e Hin He. apply filter_In in He as [He Hs].
    apply (Hb rank df e Hin He). apply Z.eqb_neq. destruct (ev_stream e =? -1); [discriminate|reflexivity]. }
  unfold get_gpu_kernel_breakdown. split.
  - intros kt all H.
    destruct (kernel_breakdown_ranks _ _ _ _ _ _) as [[kts rows]|e] eqn:E; cbn [bind] in H; [|discriminate].
    injection H as <- _. rewrite map_map. cbn [fst snd].
    rewrite (sumZ_perm _ (map snd (groupby_sum kts)))
      by (apply Permutation_map; symmetry; apply PairSumDescSort.Permuted_sort).
    rewrite groupby_sum_total. exact (kernel_breakdown_ranks_total _ _ _ _ lo hi _ _ Hb' E).
  - intros Hr.
    destruct (kernel_breakdown_ranks_ok (kernel_type_to_analysis mem) nk ratio traces Hr) as [acc ->].
    { intros rank df e Hin He. apply (Hb' rank df e Hin He). }
    cbn [bind]. eauto.
Qed.

Lemma pctg1_range (x k : Z) :
  0 <= x <= k -> 0 < k -> pct_in_range (fl_round1 (fl_mul100 (fl_div x k))).
Proof.
  intros Hx Hk. unfold fl_div.
  destruct (Z.eqb_spec k 0) as [|_]; [lia|]. cbn [fl_mul100 fl_round1].
  assert (Hq : (0 <= inject_Z x / inject_Z k <= 1)%Q).
  { split.
    - apply Qle_shift_div_l; [unfold Qlt; simpl; lia|].
      rewrite Qmult_0_l. unfold Qle; simpl; lia.
    - apply Qle_shift_div_r; [unfold Qlt; simpl; lia|].
      rewrite Qmult_1_l. rewrite <- Zle_Qle. lia. }
  set (q := (inject_Z x / inject_Z k)%Q) in *.
  set (r := round_half_even (100 * q * 10)).
  assert (Hr : 0 <= r <= 1000).
  { apply round_half_even_bounds; destruct Hq as [Hq0 Hq1].
    - apply Qmult_le_0_compat; [apply Qmult_le_0_compat|]; [discriminate|exact Hq0|discriminate].
    - setoid_replace (inject_Z 1000) with (100 * 1 * 10)%Q by reflexivity.
      apply Qmult_le_compat_r; [|discriminate].
      apply Qmult_le_l; [reflexivity|exact Hq1]. }
  unfold pct_in_range. exists (inject_Z r / 10)%Q. split; [reflexivity|].
  split; unfold Qle; simpl; lia.
Qed.

(** [get_gpu_kernel_breakdown]: [kernel_type_df] has one row per label,
    with a non-negative [sum]; its [percentage] column is NaN on every row
    when the sums add up to zero, and a number in [0, 100] otherwise. *)
Theorem gpu_kernel_breakdown_pctg (traces : list (Z * list event)) (ratio : Q) (nk : Z)
    (mem : bool) (kt : list (string * Z * fl)) (all : list kernel_breakdown_row) :
  get_gpu_kernel_breakdown sym_name get_kernel_type traces ratio nk mem = Ok (kt, all) ->
  NoDup (map (fun r => fst (fst r)) kt)
  /\ (forall r, In r kt -> 0 <= snd (fst r))
  /\ (sumZ (map (fun r => snd (fst r)) kt) = 0 -> forall r, In r kt -> snd r = NaN)
  /\ (0 < sumZ (map (fun r => snd (fst r)) kt) -> forall r, In r kt -> pct_in_range (snd r)).
Proof.
  unfold get_gpu_kernel_breakdown. intros H.
  destruct (kernel_breakdown_ranks _ _ _ _ _ _) as [[kts rows]|e] eqn:E; cbn [bind] in H; [|discriminate].
  injection H as <- _. cbn [fst snd].
  set (srt := PairSumDescSort.sort (groupby_sum kts)).
  assert (Hp : Permutation (groupby_sum kts) srt) by apply PairSumDescSort.Permuted_sort.
  assert (Hnn : forall p, In p srt -> 0 <= snd p).
  { intros p Hin. apply (Permutation_in _ (Permutation_sym Hp)) in Hin.
    exact (groupby_sum_nonneg kts (kernel_breakdown_ranks_nonneg _ _ _ _ _ _ E) p Hin). }
  assert (Htot : sumZ (map (fun r => snd (fst r))
                   (map (fun p => (fst p, snd p, fl_round1 (fl_mul100 (fl_div (snd p) (sumZ (map snd srt))))))
                        srt)) = sumZ (map snd srt)) by (rewrite map_map; reflexivity).
  assert (Hle : forall p, In p srt -> 0 <= snd p <= sumZ (map snd srt)).
  { intros p Hin. split; [apply Hnn, Hin|]. apply in_le_sumZ; [|apply in_map, Hin].
    intros y Hy. apply in_map_iff in Hy as [p' [<- Hp']]. apply Hnn, Hp'. }
  rewrite Htot. split; [|split; [|split]].
  - rewrite map_map. cbn [fst]. apply (Permutation_NoDup (Permutation_map fst Hp)).
    rewrite groupby_sum_keys. apply group_keys_NoDup.
  - intros r Hr. apply in_map_iff in Hr as [p [<- Hin]]. cbn [fst snd]. apply Hnn, Hin.
  - intros H0 r Hr. apply in_map_iff in Hr as [p [<- Hin]]. cbn [snd].
    specialize (Hle p Hin). rewrite H0 in *.
    replace (snd p) with 0 by lia. reflexivity.
  - intros Hpos r Hr. apply in_map_iff in Hr as [p [<- Hin]]. cbn [snd].
    apply pctg1_range; [apply Hle, Hin|exact Hpos].
Qed.

(** [get_gpu_kernel_breakdown]: every row of [all_kernel_df] has an analysed
    kernel type and a rank of the trace; when the ranks are distinct (the
    keys of [t.traces]), the rows of one (kernel type, rank) pair have
    distinct names and their [sum] column adds up to the total duration of
    that rank's GPU kernels of that type. *)
Theorem gpu_kernel_breakdown_kernel_rows (traces : list (Z * list event)) (ratio : Q) (nk : Z)
    (mem : bool) (kt : list (string * Z * fl)) (all : list kernel_breakdown_row) :
  NoDup (map fst traces) ->
  get_gpu_kernel_breakdown sym_name get_kernel_type traces ratio nk mem = Ok (kt, all) ->
  (forall r, In r all -> In (kb_kernel_type r) (kernel_type_to_analysis mem)
                         /\ In (kb_rank r) (map fst traces))
  /\ (forall rank df ty, In (rank, df) traces -> In ty (kernel_type_to_analysis mem) ->
      NoDup (map (fun r => ar_name (kb_stats r))
                 (filter (fun r => String.eqb (kb_kernel_type r) ty && (kb_rank r =? rank)) all))
      /\ sumZ (map (fun r => ar_sum (kb_stats r))
                   (filter (fun r => String.eqb (kb_kernel_type r) ty && (kb_rank r =? rank)) all))
         = sumZ (map ev_dur (kind ty (rank_gpu_kernels df)))).
Proof.
  intros Hnd. unfold get_gpu_kernel_breakdown. intros H.
  destruct (kernel_breakdown_ranks _ _ _ _ _ _) as [[kts rows]|e] eqn:E; cbn [bind] in H; [|discriminate].
  injection H as _ <-. cbn [snd].
  assert (Hp : Permutation rows (KindNameRankSort.sort rows)) by apply KindNameRankSort.Permuted_sort.
  destruct (kernel_breakdown_ranks_rows _ _ _ _ _ _ E) as [R1 R2]. split.
  - intros r Hr. apply R1. exact (Permutation_in _ (Permutation_sym Hp) Hr).
  - intros rank df ty Hin Hty.
    destruct (R2 Hnd (kernel_type_to_analysis_NoDup mem) rank df ty Hin Hty) as [g [Hg Hf]].
    pose proof (perm_filter (fun r => String.eqb (kb_kernel_type r) ty && (kb_rank r =? rank)) _ _ Hp) as Hpf.
    rewrite Hf in Hpf. split.
    + apply (Permutation_NoDup (Permutation_map (fun r => ar_name (kb_stats r)) Hpf)).
      rewrite map_map. exact (aggr_ok_names _ _ _ _ _ Hg).
    + rewrite <- (sumZ_perm _ _ (Permutation_map (fun r => ar_sum (kb_stats r)) Hpf)).
      rewrite map_map. cbn [kb_stats]. change (map (fun x => ar_sum x) g) with (map ar_sum g).
      rewrite (aggr_ok_total _ _ _ _ _ Hg), map_map. reflexivity.
Qed.

End GpuKernelBreakdownProofs.

(** ** User annotations: the kernel frame and the per-rank breakdown *)

Lemma anno_frame_In (st : symbol_table) (trace_df : list event) (annos : list annotation) (a : annotation) :
  _get_gpu_user_anno_interval_dataframe st trace_df = Some annos ->
  In a annos <->
  exists e, In e trace_df
    /\ ev_cat e = match dict_get (sym_index st) "gpu_user_annotation" with Some v => v | None => -1 end
    /\ a = mk_annotation (ev_pid e) (ev_tid e) (ev_ts e) (ev_ts e + ev_dur e) (ev_dur e) (ev_name e).
Proof.
  unfold _get_gpu_user_anno_interval_dataframe. destruct (_ =? -1); [discriminate|].
  intros H. injection H as <-.
  split; intros Ha.
  - apply (Permutation_in _ (Permutation_sym (AnnDurDescSort.Permuted_sort _))) in Ha.
    apply in_map_iff in Ha as [e [<- He]]. apply filter_In in He as [He Hc].
    apply Z.eqb_eq in Hc. exists e. split; [exact He|split; [exact Hc|reflexivity]].
  - destruct Ha as [e [He [Hc ->]]].
    apply (Permutation_in _ (AnnDurDescSort.Permuted_sort _)).
    apply in_map_iff. exists e. split; [reflexivity|]. apply filter_In. split; [exact He|].
    apply Z.eqb_eq, Hc.
Qed.

(** [get_gpu_kernels_with_user_annotations] with [expand_names=False]
    (the default [True] rewrites the name columns through
    [decode_symbol_id_to_symbol_name], which is not modelled): the returned
    frame holds the GPU kernels of the trace, in order and with their
    columns unchanged; a
    kernel that overlaps no GPU user annotation of its (pid, tid) keeps
    [user_annotation = -1], any other one gets the name of such an
    annotation. *)
Theorem kernels_with_annotations_rows (is_gpu_kernel : event -> bool) (st : symbol_table)
    (get_trace : Z -> result (list event)) (rank : Z) (trace_df : list event)
    (log : list log_entry) (kernels : list kernel_row) :
  get_trace rank = Ok trace_df ->
  get_gpu_kernels_with_user_annotations is_gpu_kernel st get_trace rank = Ok (log, Some kernels) ->
  exists id, dict_get (sym_index st) "gpu_user_annotation" = Some id /\ id <> -1
  /\ map kr_ev kernels = filter is_gpu_kernel trace_df
  /\ forall k, In k kernels ->
     (kr_user_annotation k = -1
      /\ forall e, In e trace_df -> ev_cat e = id -> ev_pid e = ev_pid (kr_ev k) ->
         ev_tid e = ev_tid (kr_ev k) ->
         ~ (ev_ts (kr_ev k) < ev_ts e + ev_dur e /\ ev_ts e < ev_ts (kr_ev k) + ev_dur (kr_ev k)))
     \/ (exists e, In e trace_df /\ ev_cat e = id /\ ev_pid e = ev_pid (kr_ev k)
         /\ ev_tid e = ev_tid (kr_ev k)
         /\ ev_ts (kr_ev k) < ev_ts e + ev_dur e /\ ev_ts e < ev_ts (kr_ev k) + ev_dur (kr_ev k)
         /\ kr_user_annotation k = ev_name e).
Proof.
  intros Ht H. unfold get_gpu_kernels_with_user_annotations in H. rewrite Ht in H. cbn [bind] in H.
  destruct (_get_gpu_user_anno_interval_dataframe st trace_df) as [annos|] eqn:Ha; [|discriminate].
  injection H as _ <-.
  assert (Hid : exists id, dict_get (sym_index st) "gpu_user_annotation" = Some id /\ id <> -1).
  { unfold _get_gpu_user_anno_interval_dataframe in Ha.
    destruct (dict_get _ _) as [id|]; [|discriminate].
    destruct (Z.eqb_spec id (-1)); [discriminate|]. eauto. }
  destruct Hid as [id [Hget Hne]]. exists id. split; [exact Hget|split; [exact Hne|]].
  pose proof (anno_frame_In st trace_df annos) as HIn. rewrite Hget in HIn.
  assert (HIn' := fun a => HIn a Ha). clear HIn. rename HIn' into HIn.
  assert (Hss : StronglySorted (fun x y => an_dur y <= an_dur x) annos).
  { apply Sorted_StronglySorted; [intros x y z; lia|]. exact (anno_frame_sorted _ _ _ Ha). }
  rewrite associate_rows. unfold _get_gpu_kernel_interval_dataframe. rewrite map_map.
  set (pts := drop_duplicates_from [] (map (fun a => (an_pid a, an_tid a)) annos)).
  assert (Hrow : forall e, fold_left (fun k p => fold_left (fun k a => assign_annotation (fst p) (snd p) a k)
                             (filter (same_pid_tid p) annos) k) pts (mk_kernel_row e (-1))
          = with_annotation (mk_kernel_row e (-1))
              (if existsb (pid_tid_eqb (ev_pid e, ev_tid e)) pts
               then match last_overlap (mk_kernel_row e (-1))
                            (filter (same_pid_tid (ev_pid e, ev_tid e)) annos) with
                    | Some a => an_name a | None => -1 end
               else -1))
    by (intros e; exact (assign_pairs annos (mk_kernel_row e (-1)) pts (-1))).
  split.
  - rewrite map_map. erewrite map_ext; [apply map_id|]. intros e. cbv beta. etransitivity; [apply (f_equal kr_ev (Hrow e))|reflexivity].
  - intros k Hk. apply in_map_iff in Hk as [k1 [<- Hk1]].
    apply in_map_iff in Hk1 as [e [<- He]]. rewrite (Hrow e). cbn [kr_user_annotation with_annotation kr_ev].
    set (k0 := mk_kernel_row e (-1)).
    assert (Hnone : (forall b, In b annos -> an_pid b = ev_pid e -> an_tid b = ev_tid e ->
                      overlaps_left k0 b = false) ->
                    forall e', In e' trace_df -> ev_cat e' = id -> ev_pid e' = ev_pid e ->
                      ev_tid e' = ev_tid e ->
                      ~ (ev_ts e < ev_ts e' + ev_dur e' /\ ev_ts e' < ev_ts e + ev_dur e)).
    { intros Hb e' He' Hc Hp Htd [H1 H2].
      assert (Hin : In (mk_annotation (ev_pid e') (ev_tid e') (ev_ts e') (ev_ts e' + ev_dur e')
                          (ev_dur e') (ev_name e')) annos)
        by (apply HIn; exists e'; auto).
      specialize (Hb _ Hin Hp Htd). unfold overlaps_left in Hb. cbn in Hb.
      apply andb_false_iff in Hb as [Hb|Hb]; apply Z.ltb_ge in Hb; lia. }
    destruct (existsb (pid_tid_eqb (ev_pid e, ev_tid e)) pts) eqn:Hex.
    + pose proof (last_overlap_min k0 (filter (same_pid_tid (ev_pid e, ev_tid e)) annos)
                    (StronglySorted_filter _ _ _ Hss)) as Hlo.
      destruct (last_overlap k0 _) as [a|].
      * right. destruct Hlo as [Hain [Hao _]]. apply filter_In in Hain as [Hain Hsame].
        destruct (proj1 (HIn a) Hain) as [e' [He' [Hc ->]]].
        unfold same_pid_tid in Hsame. cbn in Hsame. apply andb_true_iff in Hsame as [Hp Htd].
        apply Z.eqb_eq in Hp. apply Z.eqb_eq in Htd.
        unfold overlaps_left in Hao. cbn in Hao. apply andb_true_iff in Hao as [H1 H2].
        apply Z.ltb_lt in H1. apply Z.ltb_lt in H2.
        exists e'. repeat split; assumption.
      * left. split; [reflexivity|]. apply Hnone. intros b Hb Hp Htd. apply Hlo.
        apply filter_In. split; [exact Hb|]. unfold same_pid_tid. cbn.
        rewrite Hp, Htd, !Z.eqb_refl. reflexivity.
    + left. split; [reflexivity|]. apply Hnone. intros b Hb Hp Htd. exfalso.
      assert (Hpt : In (ev_pid e, ev_tid e) (map (fun a => (an_pid a, an_tid a)) annos))
        by (apply in_map_iff; exists b; rewrite Hp, Htd; split; [reflexivity|exact Hb]).
      destruct (drop_duplicates_In _ _ [] Hpt) as [Hd|[]].
      assert (Hex' : existsb (pid_tid_eqb (ev_pid e, ev_tid e)) pts = true).
      { apply existsb_exists. exists (ev_pid e, ev_tid e). split; [exact Hd|].
        apply pid_tid_eqb_spec. reflexivity. }
      congruence.
Qed.

Lemma annotation_breakdown_ranks_ok (st : symbol_table) (annotation : string) (idx nk : Z) (ratio : Q)
    (allow : option (list string)) (traces : list (Z * list event)) :
  (0 <= ratio <= 1)%Q ->
  exists r, annotation_breakdown_ranks st annotation idx nk ratio allow traces = Ok r.
Proof.
  intros Hr. induction traces as [|[rank df] rest [r IH]]; simpl; [eauto|].
  destruct (aggr_ok_exists (map (fun e => (sym_name st (ev_name e), ev_dur e))
                              (filter (fun e => ev_cat e =? idx) df)) nk ratio allow Hr) as [g ->].
  cbn [bind]. rewrite IH. cbn [bind]. eauto.
Qed.

Lemma annotation_breakdown_ranks_rows (st : symbol_table) (annotation : string) (idx nk : Z) (ratio : Q)
    (allow : option (list string)) (traces : list (Z * list event)) (log : list log_entry)
    (rows : list (Z * agg_row)) :
  annotation_breakdown_ranks st annotation idx nk ratio allow traces = Ok (log, rows) ->
  (forall r, In r rows -> In (fst r) (map fst traces))
  /\ (NoDup (map fst traces) -> forall rank df, In (rank, df) traces ->
      exists g, _aggr_gpu_kernel_time (map (fun e => (sym_name st (ev_name e), ev_dur e))
                                           (filter (fun e => ev_cat e =? idx) df)) nk ratio allow = Ok g
        /\ filter (fun r => fst r =? rank) rows = map (fun row => (rank, row)) g).
Proof.
  revert log rows. induction traces as [|[rank0 df0] rest IH]; intros log rows H; simpl in H.
  - injection H as <- <-. split; [intros r []|intros _ rank df []].
  - destruct (_aggr_gpu_kernel_time _ _ _ _) as [g0|e] eqn:Eg; cbn [bind] in H; [|discriminate].
    destruct (annotation_breakdown_ranks _ _ _ _ _ _ rest) as [[log' rows']|e] eqn:E;
      cbn [bind] in H; [|discriminate].
    injection H as <- <-. destruct (IH log' rows' eq_refl) as [IH1 IH2]. cbn [snd]. split.
    + intros r Hr. apply in_app_or in Hr as [Hr|Hr].
      * apply in_map_iff in Hr as [row [<- _]]. left. reflexivity.
      * right. apply IH1, Hr.
    + intros Hnd rank df Hin. simpl in Hnd. inversion Hnd as [|? ? Hr0 Hnd']; subst.
      rewrite filter_app. destruct Hin as [Heq|Hin].
      * injection Heq as <- <-. exists g0. split; [exact Eg|].
        rewrite filter_all_true, (filter_all_false _ rows'), app_nil_r; [reflexivity| |].
        -- intros r Hr. apply Z.eqb_neq. intros Heq. apply Hr0. rewrite <- Heq. apply IH1, Hr.
        -- intros r Hr. apply in_map_iff in Hr as [row [<- _]]. apply Z.eqb_refl.
      * destruct (IH2 Hnd' rank df Hin) as [g [Hg Hf]]. exists g. split; [exact Hg|].
        rewrite filter_all_false; [exact Hf|].
        intros r Hr. apply in_map_iff in Hr as [row [<- _]]. apply Z.eqb_neq. cbn [fst].
        intros ->. apply Hr0. apply (in_map fst) in Hin. exact Hin.
Qed.

(** [get_gpu_user_annotation_breakdown]: when the annotation symbol is
    present and [duration_ratio] is in [0, 1] the call succeeds; every row
    has a rank of the trace, and when the ranks are distinct the rows of a
    rank have distinct names and their [sum] column adds up to the total
    duration of that rank's annotation events. *)
Theorem annotation_breakdown_rank_totals (st : symbol_table) (traces : list (Z * list event))
    (use_gpu_annotation : bool) (ratio : Q) (nk : Z) (allow : option (list string)) :
  let annotation := if use_gpu_annotation then "gpu_user_annotation"%string
                    else "user_annotation"%string in
  (forall idx, dict_get (sym_index st) annotation = Some idx -> (0 <= ratio <= 1)%Q ->
     exists log rows,
       get_gpu_user_annotation_breakdown st traces use_gpu_annotation ratio nk allow = Ok (log, Some rows))
  /\ (forall log rows,
      get_gpu_user_annotation_breakdown st traces use_gpu_annotation ratio nk allow = Ok (log, Some rows) ->
      exists idx, dict_get (sym_index st) annotation = Some idx
      /\ (forall r, In r rows -> In (fst r) (map fst traces))
      /\ (NoDup (map fst traces) -> forall rank df, In (rank, df) traces ->
          NoDup (map (fun r => ar_name (snd r)) (filter (fun r => fst r =? rank) rows))
          /\ sumZ (map (fun r => ar_sum (snd r)) (filter (fun r => fst r =? rank) rows))
             = sumZ (map ev_dur (filter (fun e => ev_cat e =? idx) df)))).
Proof.
  cbv zeta. unfold get_gpu_user_annotation_breakdown. split.
  - intros idx Hidx Hr. rewrite Hidx.
    destruct (annotation_breakdown_ranks_ok st
                (if use_gpu_annotation then "gpu_user_annotation"%string else "user_annotation"%string) idx nk ratio
                (option_map (find_matched_symbols st) allow) traces Hr) as [r ->].
    cbn [bind]. eauto.
  - intros log rows H. destruct (dict_get _ _) as [idx|]; [|discriminate].
    exists idx. split; [reflexivity|].
    destruct (annotation_breakdown_ranks _ _ _ _ _ _ _) as [[log0 rows0]|e] eqn:E;
      cbn [bind] in H; [|discriminate].
    injection H as _ <-. cbn [snd].
    assert (Hp : Permutation rows0 (RankNameSort.sort rows0)) by apply RankNameSort.Permuted_sort.
    destruct (annotation_breakdown_ranks_rows _ _ _ _ _ _ _ _ _ E) as [R1 R2]. split.
    + intros r Hr. apply R1. exact (Permutation_in _ (Permutation_sym Hp) Hr).
    + intros Hnd rank df Hin. destruct (R2 Hnd rank df Hin) as [g [Hg Hf]].
      pose proof (perm_filter (fun r => fst r =? rank) _ _ Hp) as Hpf. rewrite Hf in Hpf. split.
      * apply (Permutation_NoDup (Permutation_map (fun r => ar_name (snd r)) Hpf)).
        rewrite map_map. exact (aggr_ok_names _ _ _ _ _ Hg).
      * rewrite <- (sumZ_perm _ _ (Permutation_map (fun r => ar_sum (snd r)) Hpf)).
        rewrite map_map. cbn [snd]. change (map (fun x => ar_sum x) g) with (map ar_sum g).
        rewrite (aggr_ok_total _ _ _ _ _ Hg), map_map. reflexivity.
Qed.

(** ** Idle time of a set of kernels: [_get_idle_time_for_kernels] *)

Lemma count_between_compl (f : Z -> bool) (lo hi : Z) :
  lo <= hi -> count_between f lo hi + count_between (fun x => negb (f x)) lo hi = hi - lo.
Proof.
  intros H. unfold count_between. rewrite <- count_range_disj.
  - rewrite (count_range_ext _ (fun _ => true)) by (intros x _; destruct (f x); reflexivity).
    rewrite count_range_const, Z2Nat.id by lia. reflexivity.
  - intros x Hx. rewrite Hx. reflexivity.
Qed.

Lemma merge_scan_absorbs (l : list (Z * Z)) (cur : Z * Z) :
  Forall (fun iv => fst cur <= fst iv) l -> StronglySorted tle l ->
  forall iv, In iv (cur :: l) ->
  exists m, In m (merge_scan cur l) /\ fst m <= fst iv /\ snd iv <= snd m.
Proof.
  revert cur. induction l as [|[s e] r IH]; intros [c1 c2] Hf Hs iv Hiv.
  - destruct Hiv as [<-|[]]. exists (c1, c2). split; [left; reflexivity|simpl; lia].
  - inversion Hf as [|? ? Hse Hf']; subst. simpl in Hse.
    pose proof (sorted_fst s e r Hs) as Hr. inversion Hs as [|? ? Hs' _]; subst.
    simpl merge_scan. destruct (Z.leb_spec s c2).
    + assert (Hf'' : Forall (fun iv => fst (c1, Z.max c2 e) <= fst iv) r).
      { eapply Forall_impl; [|exact Hr]. intros a Ha. simpl in *. lia. }
      destruct (IH (c1, Z.max c2 e) Hf'' Hs' (c1, Z.max c2 e) (or_introl eq_refl))
        as [m [Hm [H1 H2]]].
      destruct Hiv as [<-|[<-|Hiv]].
      * exists m. simpl in *. split; [exact Hm|lia].
      * exists m. simpl in *. split; [exact Hm|lia].
      * exact (IH (c1, Z.max c2 e) Hf'' Hs' iv (or_intror Hiv)).
    + destruct Hiv as [<-|Hiv].
      * exists (c1, c2). split; [left; reflexivity|simpl; lia].
      * destruct (IH (s, e) Hr Hs' iv Hiv) as [m [Hm H']].
        exists m. split; [right; exact Hm|exact H'].
Qed.

Lemma merge_scan_ends (l : list (Z * Z)) (cur : Z * Z) (m : Z * Z) :
  In m (merge_scan cur l) -> snd m = snd cur \/ exists iv, In iv l /\ snd m = snd iv.
Proof.
  revert cur. induction l as [|[s e] r IH]; intros [c1 c2] Hm; simpl in Hm.
  - destruct Hm as [<-|[]]. left; reflexivity.
  - destruct (s <=? c2).
    + destruct (IH _ Hm) as [H|[iv [Hiv H]]]; simpl in H.
      * destruct (Z.max_spec c2 e) as [[_ Hx]|[_ Hx]]; rewrite Hx in H.
        -- right. exists (s, e). split; [left; reflexivity|exact H].
        -- left. exact H.
      * right. exists iv. split; [right; exact Hiv|exact H].
    + destruct Hm as [<-|Hm]; [left; reflexivity|].
      destruct (IH _ Hm) as [H|[iv [Hiv H]]].
      * right. exists (s, e). split; [left; reflexivity|exact H].
      * right. exists iv. split; [right; exact Hiv|exact H].
Qed.

(** Every interval lies within some merged interval. *)
Lemma merge_absorbs (ivs : list (Z * Z)) (iv : Z * Z) :
  In iv ivs -> exists m, In m (merge_kernel_intervals ivs) /\ fst m <= fst iv /\ snd iv <= snd m.
Proof.
  intros Hiv. unfold merge_kernel_intervals.
  apply (Permutation_in _ (TimeSort.Permuted_sort ivs)) in Hiv.
  pose proof (TimeSort.Sorted_sort ivs) as Hs.
  destruct (TimeSort.sort ivs) as [|[s e] r]; [destruct Hiv|].
  apply Sorted_StronglySorted in Hs; [|exact tle_trans].
  apply merge_scan_absorbs; [exact (sorted_fst s e r Hs)|inversion Hs; assumption|exact Hiv].
Qed.

Lemma merge_first_start (ivs : list (Z * Z)) (first : Z * Z) (rest : list (Z * Z)) :
  merge_kernel_intervals ivs = first :: rest -> exists iv, In iv ivs /\ fst iv = fst first.
Proof.
  unfold merge_kernel_intervals. intros H.
  pose proof (TimeSort.Permuted_sort ivs) as Hp.
  destruct (TimeSort.sort ivs) as [|cur r]; [discriminate|].
  destruct (merge_scan_head r cur) as [e' [rest' Hm]]. rewrite Hm in H. injection H as <- _.
  exists cur. split; [|reflexivity].
  apply (Permutation_in _ (Permutation_sym Hp)). left; reflexivity.
Qed.

Lemma merge_ends (ivs : list (Z * Z)) (m : Z * Z) :
  In m (merge_kernel_intervals ivs) -> exists iv, In iv ivs /\ snd m = snd iv.
Proof.
  unfold merge_kernel_intervals. intros H.
  pose proof (TimeSort.Permuted_sort ivs) as Hp.
  destruct (TimeSort.sort ivs) as [|cur r]; [destruct H|].
  destruct (merge_scan_ends r cur m H) as [Hc|[iv [Hiv Hc]]].
  - exists cur. split; [|exact Hc]. apply (Permutation_in _ (Permutation_sym Hp)). left; reflexivity.
  - exists iv. split; [|exact Hc]. apply (Permutation_in _ (Permutation_sym Hp)). right; exact Hiv.
Qed.

Lemma chain_within (l : list (Z * Z)) (x : Z * Z) :
  chain (x :: l) -> forall m, In m (x :: l) -> fst x <= fst m /\ snd m <= snd (last (x :: l) x).
Proof.
  revert x. induction l as [|y l IH]; intros [s e] Hc m Hm.
  - destruct Hm as [<-|[]]. simpl in *. lia.
  - destruct y as [s' e']. assert (Hc' := Hc). simpl in Hc'. destruct Hc' as [Hse [Hlt Hc']].
    change (last ((s, e) :: (s', e') :: l) (s, e)) with (last ((s', e') :: l) (s, e)).
    rewrite (last_default _ _ (s, e) (s', e')).
    pose proof (IH (s', e') Hc' (s', e') (or_introl eq_refl)) as Hy.
    assert (Hle' : s' <= e') by (destruct l as [|[? ?] ?]; simpl in Hc'; tauto).
    destruct Hm as [<-|Hm]; simpl in *.
    + lia.
    + pose proof (IH (s', e') Hc' m Hm). simpl in *. lia.
Qed.

(** [_get_idle_time_for_kernels] raises [IndexError] exactly on an empty
    frame.  Otherwise, with non-negative durations, [kernel_time] is the
    window from the first start to the last end, and the idle time is the
    number of time points of that window where no kernel runs. *)
Theorem idle_time_for_kernels_uncovered (kernels : list event) :
  (_get_idle_time_for_kernels kernels = Err IndexError <-> kernels = [])
  /\ ((forall e, In e kernels -> 0 <= ev_dur e) -> kernels <> [] ->
      exists lo hi,
        (forall e, In e kernels -> lo <= ev_ts e /\ ev_ts e + ev_dur e <= hi)
        /\ (exists e, In e kernels /\ ev_ts e = lo)
        /\ (exists e, In e kernels /\ ev_ts e + ev_dur e = hi)
        /\ _get_idle_time_for_kernels kernels
           = Ok (count_between (fun x => negb (covered (map kernel_interval kernels) x)) lo hi, hi - lo)).
Proof.
  split.
  - split; [|intros ->; reflexivity].
    intros H. destruct kernels as [|k ks]; [reflexivity|exfalso].
    destruct (merge_nonempty (map kernel_interval (k :: ks))) as [first [rest Hm]]; [discriminate|].
    unfold _get_idle_time_for_kernels in H. rewrite Hm in H. discriminate.
  - intros Hd Hne. set (L := map kernel_interval kernels).
    assert (HL : L <> []) by (unfold L; destruct kernels; [contradiction|discriminate]).
    assert (Hle : forall iv, In iv L -> fst iv <= snd iv).
    { intros iv Hiv. unfold L in Hiv. apply in_map_iff in Hiv as [e [<- He]].
      specialize (Hd e He). unfold kernel_interval. simpl. lia. }
    destruct (merge_nonempty L HL) as [first [rest Hm]].
    assert (Hch : chain (first :: rest)) by (rewrite <- Hm; apply merge_chain, Hle).
    pose proof (chain_within rest first Hch) as Hw.
    set (hi := snd (last (first :: rest) first)) in *.
    exists (fst first), hi. split; [|split; [|split]].
    + intros e He. destruct (merge_absorbs L (kernel_interval e) (in_map _ _ _ He)) as [m [Hm' [H1 H2]]].
      rewrite Hm in Hm'. destruct (Hw m Hm'). simpl in *. lia.
    + destruct (merge_first_start L first rest Hm) as [iv [Hiv Hs]].
      unfold L in Hiv. apply in_map_iff in Hiv as [e [<- He]]. exists e. split; [exact He|exact Hs].
    + assert (Hlast : In (last (first :: rest) first) (merge_kernel_intervals L))
        by (rewrite Hm; apply last_in_list).
      destruct (merge_ends L _ Hlast) as [iv [Hiv Hs]].
      unfold L in Hiv. apply in_map_iff in Hiv as [e [<- He]]. exists e. split; [exact He|].
      unfold hi. rewrite Hs. reflexivity.
    + unfold _get_idle_time_for_kernels. fold L. rewrite Hm. fold hi.
      assert (Hb : busy_time (first :: rest) = count_between (covered L) (fst first) hi).
      { rewrite (chain_busy_count _ (fst first) hi Hch) by (intros iv Hiv; destruct (Hw iv Hiv); lia).
        apply count_between_ext. intros x _. rewrite <- Hm. apply merge_covered. }
      assert (Hlh : fst first <= hi).
      { destruct (Hw first (or_introl eq_refl)). pose proof (chain_le _ first Hch (or_introl eq_refl)). lia. }
      pose proof (count_between_compl (covered L) (fst first) hi Hlh). rewrite Hb. f_equal. f_equal. lia.
Qed.

(** Witness: the example's two kernels cover [0, 30), and the call succeeds. *)
Lemma gpu_kernel_breakdown_type_total_witness :
  (forall rank df e, In (rank, df) breakdown_example -> In e df -> ev_stream e <> -1 ->
     0 <= ev_ts e /\ 0 <= ev_dur e /\ ev_ts e + ev_dur e <= 40)
  /\ (forall kt all, get_gpu_kernel_breakdown breakdown_sym_name breakdown_kernel_type
                       breakdown_example 1 10 false = Ok (kt, all) ->
      sumZ (map (fun r => snd (fst r)) kt) = 30)
  /\ exists kt all, get_gpu_kernel_breakdown breakdown_sym_name breakdown_kernel_type
                      breakdown_example 1 10 false = Ok (kt, all).
Proof.
  assert (Hb : forall rank df e, In (rank, df) breakdown_example -> In e df -> ev_stream e <> -1 ->
     0 <= ev_ts e /\ 0 <= ev_dur e /\ ev_ts e + ev_dur e <= 40).
  { intros rank df e Hin He Hs. simpl in Hin. destruct Hin as [Heq|[]].
    injection Heq as <- <-. simpl in He.
    repeat destruct He as [<-|He]; simpl in *; try lia; contradiction. }
  split; [exact Hb|split].
  - intros kt all H.
    rewrite (proj1 (gpu_kernel_breakdown_type_total breakdown_sym_name breakdown_kernel_type
                      breakdown_example 1 10 false 0 40 Hb) kt all H).
    vm_compute. reflexivity.
  - apply (proj2 (gpu_kernel_breakdown_type_total breakdown_sym_name breakdown_kernel_type
                    breakdown_example 1 10 false 0 40 Hb)).
    split; unfold Qle; simpl; lia.
Defined.

(** Witness: on the example every percentage is a number in [0, 100]. *)
Lemma gpu_kernel_breakdown_pctg_witness :
  exists kt all, get_gpu_kernel_breakdown breakdown_sym_name breakdown_kernel_type
                   breakdown_example 1 10 false = Ok (kt, all)
    /\ forall r, In r kt -> pct_in_range (snd r).
Proof.
  assert (H : exists kt all, get_gpu_kernel_breakdown breakdown_sym_name breakdown_kernel_type
                               breakdown_example 1 10 false = Ok (kt, all))
    by (do 2 eexists; vm_compute; reflexivity).
  destruct H as [kt [all H]]. exists kt, all. split; [exact H|].
  apply (proj2 (proj2 (proj2 (gpu_kernel_breakdown_pctg breakdown_sym_name breakdown_kernel_type
                                 breakdown_example 1 10 false kt all H)))).
  vm_compute in H. injection H as <- _. vm_compute. reflexivity.
Defined.

(** Witness: the computation rows of rank 0 add up to the 20 us of its GEMM kernel. *)
Lemma gpu_kernel_breakdown_kernel_rows_witness :
  NoDup (map fst breakdown_example)
  /\ forall kt all, get_gpu_kernel_breakdown breakdown_sym_name breakdown_kernel_type
                      breakdown_example 1 10 false = Ok (kt, all) ->
     sumZ (map (fun r => ar_sum (kb_stats r))
               (filter (fun r => String.eqb (kb_kernel_type r) KernelType_COMPUTATION
                                 && (kb_rank r =? 0)) all)) = 20.
Proof.
  assert (Hnd : NoDup (map fst breakdown_example)) by (repeat constructor; simpl; tauto).
  split; [exact Hnd|]. intros kt all H.
  rewrite (proj2 (proj2 (gpu_kernel_breakdown_kernel_rows breakdown_sym_name breakdown_kernel_type
                           breakdown_example 1 10 false kt all Hnd H)
                    0 (snd (hd (0, []) breakdown_example)) KernelType_COMPUTATION
                    (or_introl eq_refl) (or_introl eq_refl))).
  vm_compute. reflexivity.
Defined.

(** Witness: the example rank's kernel frame holds its two kernels. *)
Lemma kernels_with_annotations_rows_witness :
  exists log kernels,
    get_gpu_kernels_with_user_annotations (fun e => negb (ev_stream e =? -1)) anno_example_st
      (fun _ => Ok anno_example_trace) 0 = Ok (log, Some kernels)
    /\ map kr_ev kernels = filter (fun e => negb (ev_stream e =? -1)) anno_example_trace.
Proof.
  assert (H : exists log kernels,
    get_gpu_kernels_with_user_annotations (fun e => negb (ev_stream e =? -1)) anno_example_st
      (fun _ => Ok anno_example_trace) 0 = Ok (log, Some kernels))
    by (do 2 eexists; vm_compute; reflexivity).
  destruct H as [log [kernels H]]. exists log, kernels. split; [exact H|].
  destruct (kernels_with_annotations_rows _ _ _ 0 anno_example_trace log kernels eq_refl H)
    as [id [_ [_ [Hm _]]]].
  exact Hm.
Defined.

(** Witness: the breakdown of the example rank succeeds. *)
Lemma annotation_breakdown_rank_totals_witness :
  exists log rows,
    get_gpu_user_annotation_breakdown anno_example_st [(0, anno_example_trace)] true 1 10 None
    = Ok (log, Some rows).
Proof.
  apply (proj1 (annotation_breakdown_rank_totals anno_example_st [(0, anno_example_trace)] true 1 10 None) 9).
  - reflexivity.
  - split; unfold Qle; simpl; lia.
Defined.

(** Witness: on the two example kernels the window is [0, 30) and the idle
    time is the 10 uncovered points between them. *)
Lemma idle_time_for_kernels_uncovered_witness :
  (forall e, In e idle_kernels_example -> 0 <= ev_dur e)
  /\ idle_kernels_example <> []
  /\ exists lo hi,
       _get_idle_time_for_kernels idle_kernels_example
       = Ok (count_between (fun x => negb (covered (map kernel_interval idle_kernels_example) x)) lo hi,
             hi - lo)
       /\ lo = 0 /\ hi = 30.
Proof.
  assert (Hd : forall e, In e idle_kernels_example -> 0 <= ev_dur e).
  { intros e He. simpl in He. destruct He as [<-|[<-|[]]]; simpl; lia. }
  assert (Hne : idle_kernels_example <> []) by discriminate.
  split; [exact Hd|split; [exact Hne|]].
  destruct (proj2 (idle_time_for_kernels_uncovered idle_kernels_example) Hd Hne)
    as [lo [hi [Hb [[e1 [He1 Hs]] [[e2 [He2 Hh]] H]]]]].
  exists lo, hi. split; [exact H|].
  assert (Hv : _get_idle_time_for_kernels idle_kernels_example = Ok (10, 30)) by reflexivity.
  rewrite Hv in H. injection H as H1 H2.
  pose proof (Hb _ He1). pose proof (Hb _ He2).
  destruct (Hb (mk_event 0 10 7 0 1 0 7) (or_introl eq_refl)) as [Hl _].
  destruct (Hb (mk_event 20 10 7 0 2 0 7) (or_intror (or_introl eq_refl))) as [_ Hr].
  simpl in He1, He2, Hl, Hr.
  destruct He1 as [<-|[<-|[]]]; destruct He2 as [<-|[<-|[]]]; simpl in *; lia.
Defined.
